(** * Lightbox: the optics solver of [lightbox.py], embedded and verified

    The development follows the Python module class by class:
    [Vector2], [Material], [Ray], [Item], [LightBox], [Sensor], [Physics],
    [Scoreboard], [Shop], and of [Game] the two tracing routines, the
    scoring and the ray casting of a frame.  Drawing, sound, the clock,
    the event loop and the two JSON files are outside the model: [save]
    and [load] are left out, and values the code reads from the clock are
    parameters.

    Numbers.  Python [float]s are read as real numbers ([R]), so every
    statement below is about the exact-arithmetic reading of the program:
    rounding, infinities and NaN are outside the model.  Python [int]s are
    [Z].  A division whose divisor is zero raises [ZeroDivisionError] in
    Python; every division of the modelled code is either guarded by the
    code itself ([normalize], [normal], [intersect], [check_hit]), divides
    by the constant [MAX_RAY_DISTANCE], or divides by a refractive index,
    and the theorems that depend on such a quotient take the indices
    positive.

    Objects.  A [Ray] holds a reference to one of the two process-wide
    [Material] objects [AIR] and [GLASS]; [GLASS] is mutated between frames
    by [set_base_ior], so the tracer takes its current value as a
    parameter and material references are dereferenced through it. *)

From Stdlib Require Import Reals Lra Lia ZArith List.
From stdpp Require Import base option strings gmap pretty.
Import ListNotations.
Open Scope R_scope.

(** ** Comparisons on reals as decidable propositions *)

#[global] Instance Rlt_decision (a b : R) : Decision (a < b) := Rlt_dec a b.
#[global] Instance Rle_decision (a b : R) : Decision (a <= b) := Rle_dec a b.
#[global] Instance Rgt_decision (a b : R) : Decision (a > b) := Rgt_dec a b.
#[global] Instance Rge_decision (a b : R) : Decision (a >= b) := Rge_dec a b.
#[global] Instance R_eq_decision : EqDecision R := Req_dec_T.

(** ** Module constants *)

Definition SENSOR_RADIUS : R := 35.
Definition MAX_RAY_DISTANCE : R := 6000.
Definition CURVE_DEPTH : R := 45.

(** Scoring *)
Definition TIME_PENALTY : Z := 30.
Definition MOVE_PENALTY : Z := 200.
Definition ITEM_PENALTY : Z := 400.
Definition MAX_SCORE : Z := 10000.

Definition Color : Type := (Z * Z * Z)%type.

Definition WHITE : Color := (255, 255, 255)%Z.
Definition RED : Color := (255, 80, 80)%Z.
Definition GREEN : Color := (80, 255, 120)%Z.
Definition ORANGE : Color := (255, 140, 0)%Z.
Definition YELLOW : Color := (255, 255, 100)%Z.
Definition BLUE : Color := (80, 150, 255)%Z.
Definition VIOLET : Color := (180, 100, 255)%Z.

Inductive ItemType : Type :=
| PLANE_MIRROR
| TRIANGLE
| RECTANGLE
| CURVED_MIRROR
| CONCAVE_LENS
| CONVEX_LENS.

#[global] Instance ItemType_eq_decision : EqDecision ItemType.
Proof. solve_decision. Defined.

(** ** Library functions

    [math.radians(x)] is [x * (pi / 180)]. *)
Definition radians (deg : R) : R := deg * (PI / 180).

(** [int(x)] of a float: truncation towards zero. *)
Definition int (x : R) : Z :=
  if bool_decide (0 <= x) then Int_part x else (- Int_part (- x))%Z.

(** ** class Vector2 *)

Module Vector2.

Record t : Type := mk { x : R; y : R }.

Definition add (a b : t) : t := mk (x a + x b) (y a + y b).
Definition sub (a b : t) : t := mk (x a - x b) (y a - y b).
Definition mul (a : t) (s : R) : t := mk (x a * s) (y a * s).
Definition dot (a b : t) : R := x a * x b + y a * y b.
Definition length (a : t) : R := sqrt (x a ^ 2 + y a ^ 2).

Definition normalize (a : t) : t :=
  let l := length a in
  if bool_decide (l > 0) then mk (x a / l) (y a / l) else mk 0 0.

(** [Vector2(-n.x, -n.y)], written out at each use in the source. *)
Definition neg (a : t) : t := mk (- x a) (- y a).

Definition to_tuple (a : t) : R * R := (x a, y a).

Definition rotate (a : t) (angle : R) : t :=
  let c := cos angle in
  let s := sin angle in
  mk (x a * c - y a * s) (x a * s + y a * c).

Definition perp (a : t) : t := normalize (mk (- y a) (x a)).

End Vector2.

(** ** class Material *)

Module Material.

Record t : Type := mk {
  ior_red : R;
  ior_orange : R;
  ior_yellow : R;
  ior_green : R;
  ior_blue : R;
  ior_violet : R
}.

(** The dictionary built at each call of [get_ior]. *)
Definition iors (self : t) : gmap string R :=
  <["red" := ior_red self]> (
  <["orange" := ior_orange self]> (
  <["yellow" := ior_yellow self]> (
  <["green" := ior_green self]> (
  <["blue" := ior_blue self]> (
  <["violet" := ior_violet self]> (
  <["white" := (ior_red self + ior_violet self) / 2]> ∅)))))).

(** [iors.get(wavelength, 1.0)] *)
Definition get_ior (self : t) (wavelength : string) : R :=
  default 1.0 (iors self !! wavelength).

(** [set_base_ior] assigns the six fields of [self]; the updated object is
    the result. *)
Definition set_base_ior (self : t) (base : R) : t :=
  let self := mk base (ior_orange self) (ior_yellow self) (ior_green self)
                 (ior_blue self) (ior_violet self) in
  let self := mk (ior_red self) (base + 0.025) (ior_yellow self) (ior_green self)
                 (ior_blue self) (ior_violet self) in
  let self := mk (ior_red self) (ior_orange self) (base + 0.050) (ior_green self)
                 (ior_blue self) (ior_violet self) in
  let self := mk (ior_red self) (ior_orange self) (ior_yellow self) (base + 0.075)
                 (ior_blue self) (ior_violet self) in
  let self := mk (ior_red self) (ior_orange self) (ior_yellow self) (ior_green self)
                 (base + 0.100) (ior_violet self) in
  mk (ior_red self) (ior_orange self) (ior_yellow self) (ior_green self)
     (ior_blue self) (base + 0.125).

(** [@dataclass] generates [__eq__], which compares the field tuples. *)
#[global] Instance eq_decision : EqDecision t.
Proof. solve_decision. Defined.

End Material.

Definition AIR : Material.t := Material.mk 1.000 1.000 1.000 1.000 1.000 1.000.

(** The value [GLASS] is created with; [Shop] later rewrites it through
    [set_base_ior]. *)
Definition GLASS_initial : Material.t :=
  Material.mk 1.500 1.525 1.550 1.575 1.600 1.625.

Definition SPECTRUM : list (string * Color * R) :=
  [ ("red", RED, 1.50);
    ("orange", ORANGE, 1.515);
    ("yellow", YELLOW, 1.530);
    ("green", GREEN, 1.545);
    ("blue", BLUE, 1.560);
    ("violet", VIOLET, 1.575) ].

(** Which of the two global material objects a ray points to. *)
Inductive MaterialRef : Type :=
| AIR_ref
| GLASS_ref.

Definition deref (GLASS : Material.t) (m : MaterialRef) : Material.t :=
  match m with
  | AIR_ref => AIR
  | GLASS_ref => GLASS
  end.

(** ** class Ray *)

Module Ray.

Record t : Type := mk {
  origin : Vector2.t;
  direction : Vector2.t;
  color : Color;
  wavelength : string;
  is_white : bool;
  path : list (R * R);
  active : bool;
  bounces : Z;
  material : MaterialRef;
  intensity : R;
  distance_traveled : R
}.

(** [Ray.__init__] *)
Definition init (pos dir : Vector2.t) (color : Color) (wave : string)
    (white : bool) (intensity : R) : t :=
  mk pos (Vector2.normalize dir) color wave
     (white || bool_decide (wave = "white"))
     [(Vector2.x pos, Vector2.y pos)] true 0%Z AIR_ref intensity 0.0.

(** Attribute assignments. *)
Definition set_origin (v : Vector2.t) (r : t) : t :=
  mk v (direction r) (color r) (wavelength r) (is_white r) (path r) (active r)
     (bounces r) (material r) (intensity r) (distance_traveled r).
Definition set_direction (v : Vector2.t) (r : t) : t :=
  mk (origin r) v (color r) (wavelength r) (is_white r) (path r) (active r)
     (bounces r) (material r) (intensity r) (distance_traveled r).
Definition set_path (p : list (R * R)) (r : t) : t :=
  mk (origin r) (direction r) (color r) (wavelength r) (is_white r) p (active r)
     (bounces r) (material r) (intensity r) (distance_traveled r).
Definition set_active (b : bool) (r : t) : t :=
  mk (origin r) (direction r) (color r) (wavelength r) (is_white r) (path r) b
     (bounces r) (material r) (intensity r) (distance_traveled r).
Definition set_bounces (n : Z) (r : t) : t :=
  mk (origin r) (direction r) (color r) (wavelength r) (is_white r) (path r)
     (active r) n (material r) (intensity r) (distance_traveled r).
Definition set_material (m : MaterialRef) (r : t) : t :=
  mk (origin r) (direction r) (color r) (wavelength r) (is_white r) (path r)
     (active r) (bounces r) m (intensity r) (distance_traveled r).
Definition set_intensity (i : R) (r : t) : t :=
  mk (origin r) (direction r) (color r) (wavelength r) (is_white r) (path r)
     (active r) (bounces r) (material r) i (distance_traveled r).
Definition set_distance_traveled (d : R) (r : t) : t :=
  mk (origin r) (direction r) (color r) (wavelength r) (is_white r) (path r)
     (active r) (bounces r) (material r) (intensity r) d.

Definition get_endpoint (self : t) : Vector2.t :=
  let remaining := Rmax 0 (1.0 - distance_traveled self / MAX_RAY_DISTANCE) in
  let max_dist := MAX_RAY_DISTANCE * remaining in
  Vector2.add (origin self) (Vector2.mul (direction self) (Rmin 2000 max_dist)).

End Ray.

(** ** class Item

    [shape] is what [update_shape] last computed from the pose; the tracer
    reads [type], [pos] and the segments of [shape]. *)

Module Item.

Record t : Type := mk {
  type : ItemType;
  pos : Vector2.t;
  shape : list Vector2.t
}.

(** [[(shape[i], shape[(i+1) % len(shape)]) for i in range(len(shape))]];
    both indices are in range, so the default of [nth] is never returned. *)
Definition get_segments (self : t) : list (Vector2.t * Vector2.t) :=
  let n := List.length (shape self) in
  map (fun i => (nth i (shape self) (Vector2.mk 0 0),
                 nth ((i + 1) mod n) (shape self) (Vector2.mk 0 0)))
      (seq 0 n).

End Item.

(** The whole [Item] object: the attributes that [update_shape],
    [contains], [get_handle] and [constrain] read and write.  The flags
    and offsets of dragging belong to the event loop and are left out. *)

Module ItemObject.

Record t : Type := mk {
  type : ItemType;
  pos : Vector2.t;
  width : R;
  height : R;
  rotation : R;
  shape : list Vector2.t
}.

(** The list [pts] of [update_shape]: the outline around the origin,
    before it is turned and moved.  The [else] branch of the source is
    not reached for a member of [ItemType]. *)
Definition pts (type : ItemType) (w h : R) : list Vector2.t :=
  match type with
  | TRIANGLE =>
      let r := w / 2 in
      map (fun i : Z =>
             let angle := radians (IZR (i * 120 - 90)) in
             Vector2.mk (r * cos angle) (r * sin angle))
          (seqZ 0 3)
  | RECTANGLE =>
      [Vector2.mk (- w / 2) (- h / 2); Vector2.mk (w / 2) (- h / 2);
       Vector2.mk (w / 2) (h / 2); Vector2.mk (- w / 2) (h / 2)]
  | CURVED_MIRROR =>
      let steps := 15%Z in
      map (fun i : Z =>
             let t := IZR i / IZR (steps - 1) in
             let x := - w / 2 + w * t in
             let y := CURVE_DEPTH * (1 - Rabs (2 * t - 1)) ^ 2 in
             Vector2.mk x y)
          (seqZ 0 steps)
  | PLANE_MIRROR => [Vector2.mk (- w / 2) 0; Vector2.mk (w / 2) 0]
  | CONCAVE_LENS =>
      let curve := w * 0.3 in
      let steps := 6%Z in
      map (fun i : Z =>
             let t := IZR i / IZR (steps - 1) in
             let x := - w / 2 + w * t in
             let y := - h / 2 + curve * (1 - (2 * t - 1) ^ 2) in
             Vector2.mk x y)
          (seqZ 0 steps)
      ++ map (fun i : Z =>
                let t := IZR i / IZR (steps - 1) in
                let x := w / 2 - w * t in
                let y := h / 2 - curve * (1 - (2 * t - 1) ^ 2) in
                Vector2.mk x y)
             (seqZ 0 steps)
  | CONVEX_LENS =>
      let bulge := h * 0.3 in
      let steps := 6%Z in
      map (fun i : Z =>
             let t := IZR i / IZR (steps - 1) in
             let x := - w / 2 + w * t in
             let y := - h / 2 - bulge * (1 - (2 * t - 1) ^ 2) in
             Vector2.mk x y)
          (seqZ 0 steps)
      ++ map (fun i : Z =>
                let t := IZR i / IZR (steps - 1) in
                let x := w / 2 - w * t in
                let y := h / 2 + bulge * (1 - (2 * t - 1) ^ 2) in
                Vector2.mk x y)
             (seqZ 0 steps)
  end.

Definition update_shape (self : t) : t :=
  let rad := radians (rotation self) in
  mk (type self) (pos self) (width self) (height self) (rotation self)
     (map (fun p => Vector2.add (Vector2.rotate p rad) (pos self))
          (pts (type self) (width self) (height self))).

(** [Item.__init__] *)
Definition init (item_type : ItemType) (x y w h rot : R) : t :=
  update_shape (mk item_type (Vector2.mk x y) w h rot []).

Definition contains (self : t) (pt : Vector2.t) : bool :=
  bool_decide (Vector2.length (Vector2.sub pt (pos self))
               < Rmax (width self) (height self) / 2).

Definition get_handle (self : t) : Vector2.t :=
  let rad := radians (rotation self) in
  Vector2.add (Vector2.rotate (Vector2.mk (width self / 2) (- height self / 2)) rad)
              (pos self).

Definition constrain (self : t) (sw sh : Z) : t :=
  let m := 50 in
  let px := Rmax m (Rmin (IZR sw - m) (Vector2.x (pos self))) in
  let py := Rmax m (Rmin (IZR sh - m) (Vector2.y (pos self))) in
  update_shape (mk (type self) (Vector2.mk px py) (width self) (height self)
                   (rotation self) (shape self)).

(** What the tracer reads of the object. *)
Definition view (self : t) : Item.t := Item.mk (type self) (pos self) (shape self).

End ItemObject.

(** ** class LightBox

    The flags and offsets of dragging are left out. *)

Module LightBox.

Record t : Type := mk {
  pos : Vector2.t;
  angle : R;
  w : R;
  h : R;
  lock_pos : bool;
  lock_rot : bool
}.

(** [LightBox.__init__] *)
Definition init (x y angle : R) (lock_pos lock_rot : bool) : t :=
  mk (Vector2.mk x y) angle 80 60 lock_pos lock_rot.

Definition get_dir (self : t) : Vector2.t :=
  let rad := radians (angle self) in
  Vector2.mk (cos rad) (sin rad).

Definition get_perp (self : t) : Vector2.t :=
  let rad := radians (angle self) in
  Vector2.mk (- sin rad) (cos rad).

Definition get_corner (self : t) : Vector2.t :=
  let rad := radians (angle self) in
  Vector2.add (Vector2.rotate (Vector2.mk (- w self / 2) (- h self / 2)) rad) (pos self).

Definition contains (self : t) (pt : Vector2.t) : bool :=
  if lock_pos self && lock_rot self then false
  else
    let local := Vector2.sub pt (pos self) in
    let rad := radians (- angle self) in
    let lx := Vector2.x local * cos rad - Vector2.y local * sin rad in
    let ly := Vector2.x local * sin rad + Vector2.y local * cos rad in
    bool_decide (Rabs lx < w self / 2) && bool_decide (Rabs ly < h self / 2).

Definition corner_contains (self : t) (pt : Vector2.t) : bool :=
  if lock_rot self then false
  else bool_decide (Vector2.length (Vector2.sub pt (get_corner self)) < 15).

Definition constrain (self : t) (sw sh : Z) : t :=
  let m := 60 in
  let px := Rmax m (Rmin (IZR sw - m) (Vector2.x (pos self))) in
  let py := Rmax m (Rmin (IZR sh - m) (Vector2.y (pos self))) in
  mk (Vector2.mk px py) (angle self) (w self) (h self) (lock_pos self) (lock_rot self).

End LightBox.

(** ** class Physics *)

Module Physics.

Definition intersect (p1 p2 p3 p4 : Vector2.t) : option (Vector2.t * R) :=
  let d := (Vector2.x p1 - Vector2.x p2) * (Vector2.y p3 - Vector2.y p4)
           - (Vector2.y p1 - Vector2.y p2) * (Vector2.x p3 - Vector2.x p4) in
  if bool_decide (Rabs d < 0.0001) then None
  else
    let t := ((Vector2.x p1 - Vector2.x p3) * (Vector2.y p3 - Vector2.y p4)
              - (Vector2.y p1 - Vector2.y p3) * (Vector2.x p3 - Vector2.x p4)) / d in
    let u := - ((Vector2.x p1 - Vector2.x p2) * (Vector2.y p1 - Vector2.y p3)
                - (Vector2.y p1 - Vector2.y p2) * (Vector2.x p1 - Vector2.x p3)) / d in
    if bool_decide (0 <= t) && bool_decide (t <= 1)
       && bool_decide (0 <= u) && bool_decide (u <= 1)
    then
      let pt := Vector2.mk (Vector2.x p1 + t * (Vector2.x p2 - Vector2.x p1))
                           (Vector2.y p1 + t * (Vector2.y p2 - Vector2.y p1)) in
      Some (pt, Vector2.length (Vector2.sub pt p1))
    else None.

Definition reflect (inc n : Vector2.t) : Vector2.t :=
  let inc := Vector2.normalize inc in
  let n := Vector2.normalize n in
  Vector2.normalize (Vector2.sub inc (Vector2.mul n (2 * Vector2.dot inc n))).

(** [None] is Python's [None]: no refracted direction. *)
Definition refract (inc n : Vector2.t) (n1 n2 : R) : option Vector2.t :=
  let inc := Vector2.normalize inc in
  let n := Vector2.normalize n in
  let n := if bool_decide (Vector2.dot n inc > 0) then Vector2.neg n else n in
  let ratio := n1 / n2 in
  let cos_i := - Vector2.dot n inc in
  let sin_t2 := ratio ^ 2 * (1 - cos_i ^ 2) in
  if bool_decide (sin_t2 > 1) then None
  else
    let cos_t := sqrt (1 - sin_t2) in
    Some (Vector2.normalize
            (Vector2.add (Vector2.mul inc ratio)
                         (Vector2.mul n (ratio * cos_i - cos_t)))).

Definition normal (p1 p2 : Vector2.t) : Vector2.t :=
  let dx := Vector2.x p2 - Vector2.x p1 in
  let dy := Vector2.y p2 - Vector2.y p1 in
  let l := sqrt (dx * dx + dy * dy) in
  if bool_decide (l > 0) then Vector2.mk (- dy / l) (dx / l) else Vector2.mk 0 1.

Definition fresnel_reflectance (incident normal : Vector2.t) (n1 n2 : R) : R :=
  let incident := Vector2.normalize incident in
  let normal := Vector2.normalize normal in
  let cos_i := - Vector2.dot normal incident in
  let schlick :=
    let r0 := ((n1 - n2) / (n1 + n2)) ^ 2 in
    r0 + (1 - r0) * (1 - cos_i) ^ 5 in
  if bool_decide (n1 > n2) then
    let sin_t_sq := (n1 / n2) ^ 2 * (1 - cos_i ^ 2) in
    if bool_decide (sin_t_sq > 1.0) then 1.0 else schlick
  else schlick.

End Physics.

(** ** class Sensor

    [pulse] only drives the drawing animation and is left out. *)

Module Sensor.

Record t : Type := mk {
  pos : Vector2.t;
  radius : R;
  color : Color;
  tol : Z;
  active : bool;
  was_active : bool;
  is_white : bool
}.

(** [Sensor.__init__] *)
Definition init (x y : R) (color : Color) (tol : Z) : t :=
  mk (Vector2.mk x y) SENSOR_RADIUS color tol false false
     (bool_decide (color = WHITE)).

(** The [for i in range(len(ray.path) - 1)] loop of [check_hit], over the
    consecutive pairs [path[i]], [path[i+1]]. *)
Fixpoint check_segments (self : t) (path : list (R * R)) : bool :=
  match path with
  | a :: (b :: _) as rest =>
      let p1 := Vector2.mk (fst a) (snd a) in
      let p2 := Vector2.mk (fst b) (snd b) in
      let line := Vector2.sub p2 p1 in
      let len_sq := Vector2.dot line line in
      if bool_decide (len_sq < 0.0001) then check_segments self rest
      else
        let t := Rmax 0 (Rmin 1 (Vector2.dot (Vector2.sub (pos self) p1) line / len_sq)) in
        let closest := Vector2.add p1 (Vector2.mul line t) in
        if bool_decide (Vector2.length (Vector2.sub (pos self) closest) < radius self)
        then true
        else check_segments self rest
  | _ => false
  end.

Definition check_hit (self : t) (ray : Ray.t) : bool :=
  if bool_decide (List.length (Ray.path ray) < 2)%nat
     || bool_decide (Ray.intensity ray < 0.2)
  then false
  else check_segments self (Ray.path ray).

Definition channel_ok (self : t) (a b : Z) : bool :=
  bool_decide (Z.abs (a - b) <= tol self)%Z.

Definition color_match (self : t) (ray : Ray.t) : bool :=
  if is_white self then Ray.is_white ray
  else if Ray.is_white ray then false
  else
    let '(r1, g1, b1) := Ray.color ray in
    let '(r2, g2, b2) := color self in
    channel_ok self r1 r2 && channel_ok self g1 g2 && channel_ok self b1 b2.

(** The condition of the [for ray in rays] loop of [update]. *)
Definition eligible (self : t) (ray : Ray.t) : bool :=
  bool_decide (Ray.intensity ray >= 0.2) && check_hit self ray && color_match self ray.

(** [update] returns the mutated sensor and the returned rising-edge flag. *)
Definition update (self : t) (rays : list Ray.t) : t * bool :=
  let self := mk (pos self) (radius self) (color self) (tol self) (active self)
                 (active self) (is_white self) in
  let self := mk (pos self) (radius self) (color self) (tol self) false
                 (was_active self) (is_white self) in
  let self :=
    fold_left (fun s ray =>
                 if eligible s ray
                 then mk (pos s) (radius s) (color s) (tol s) true
                         (was_active s) (is_white s)
                 else s) rays self in
  (self, active self && negb (was_active self)).

End Sensor.

(** ** class ScoreEntry, class Scoreboard

    The board is the list [self.scores]. *)

Module ScoreEntry.

Record t : Type := mk {
  name : string;
  score : Z;
  level : Z;
  date : string
}.

End ScoreEntry.

Module Scoreboard.

(** [list.sort(key=..., reverse=True)] is a stable sort into descending
    order of the key: elements with equal keys keep their order.  The
    result of such a sort does not depend on the algorithm; it is computed
    here by insertion. *)
Fixpoint insert {A : Type} (key : A -> Z) (a : A) (l : list A) : list A :=
  match l with
  | [] => [a]
  | b :: l' =>
      if bool_decide (key b > key a)%Z then b :: insert key a l' else a :: b :: l'
  end.

Fixpoint sort {A : Type} (key : A -> Z) (l : list A) : list A :=
  match l with
  | [] => []
  | a :: l' => insert key a (sort key l')
  end.

(** [for i, s in enumerate(self.scores): if s is entry: return i + 1],
    then [return 0]; [i] counts from the position already reached. *)
Fixpoint position (l : list (bool * ScoreEntry.t)) (i : Z) : Z :=
  match l with
  | [] => 0
  | s :: l' => if fst s then (i + 1)%Z else position l' (i + 1)%Z
  end.

(** [add]: [entry] is a new object; the test [s is entry] is on the
    identity of the object, which the mark [true] stands for.  The result
    is the new list and the returned position. *)
Definition add (scores : list ScoreEntry.t) (entry : ScoreEntry.t)
    : list ScoreEntry.t * Z :=
  let marked := map (pair false) scores ++ [(true, entry)] in
  let marked := sort (fun s => ScoreEntry.score (snd s)) marked in
  (map snd marked, position marked 0).

Definition get_top (scores : list ScoreEntry.t) (level : Z) (n : nat)
    : list ScoreEntry.t :=
  take n (filter (fun s => ScoreEntry.level s = level) scores).

Definition get_best (scores : list ScoreEntry.t) (level : Z) : option ScoreEntry.t :=
  let filtered := filter (fun s => ScoreEntry.level s = level) scores in
  match filtered with
  | s :: _ => Some s
  | [] => None
  end.

End Scoreboard.

(** ** class Shop

    [unlocked] is a dictionary with one entry for every member of
    [ItemType], read here as a function; [completed] maps level numbers to
    the star record.  The methods that change [GLASS] take its current
    value and return the new one. *)

Module Shop.

Definition COSTS (item : ItemType) : Z :=
  match item with
  | PLANE_MIRROR => 0
  | TRIANGLE => 3
  | RECTANGLE => 3
  | CURVED_MIRROR => 5
  | CONCAVE_LENS => 8
  | CONVEX_LENS => 8
  end.

Definition CUSTOM_REFRACTION_COST : Z := 30.

Record t : Type := mk {
  stars : Z;
  unlocked : ItemType -> bool;
  completed : gmap Z Z;
  custom_refraction_unlocked : bool;
  custom_ior : R
}.

(** [self.unlocked[item] = v] *)
Definition set_unlocked (item : ItemType) (v : bool) (u : ItemType -> bool)
    : ItemType -> bool :=
  fun t => if bool_decide (t = item) then v else u t.

(** [Shop.__init__], before [load]. *)
Definition init : t :=
  mk 0 (set_unlocked PLANE_MIRROR true (fun _ => false)) ∅ false 1.5.

(** [award] returns the changed shop and the tuple
    [(self.stars, bonus, message)]. *)
Definition award (self : t) (level stars' : Z) : t * (Z * Z * option string) :=
  match completed self !! level with
  | Some prev =>
      if bool_decide (stars' > prev)%Z then
        let bonus := (stars' - prev)%Z in
        let self := mk (stars self + bonus) (unlocked self)
                       (<[level := stars']> (completed self))
                       (custom_refraction_unlocked self) (custom_ior self) in
        let message :=
          if bool_decide (bonus = 1%Z) then "Bonus star! Your skills have improved!"
          else "Bonus " +:+ pretty bonus +:+ " stars! Outstanding improvement!" in
        (self, (stars self, bonus, Some message))
      else if bool_decide (stars' = 3%Z) && bool_decide (prev = 3%Z) then
        let self := mk (stars self + 1) (unlocked self) (completed self)
                       (custom_refraction_unlocked self) (custom_ior self) in
        (self, (stars self, 1%Z, Some "Perfection bonus! +1 star for mastery!"))
      else (self, (stars self, 0%Z, None))
  | None =>
      let self := mk (stars self + stars') (unlocked self)
                     (<[level := stars']> (completed self))
                     (custom_refraction_unlocked self) (custom_ior self) in
      (self, (stars self, 0%Z, None))
  end.

Definition unlock (self : t) (item : ItemType) : t * bool :=
  if unlocked self item then (self, true)
  else
    let cost := COSTS item in
    if bool_decide (stars self >= cost)%Z then
      (mk (stars self - cost) (set_unlocked item true (unlocked self)) (completed self)
          (custom_refraction_unlocked self) (custom_ior self), true)
    else (self, false).

Definition unlock_custom_refraction (self : t) : t * bool :=
  if custom_refraction_unlocked self then (self, true)
  else if bool_decide (stars self >= CUSTOM_REFRACTION_COST)%Z then
    (mk (stars self - CUSTOM_REFRACTION_COST) (unlocked self) (completed self)
        true (custom_ior self), true)
  else (self, false).

Definition update_ior (self : t) (GLASS : Material.t) (value : R) : t * Material.t :=
  let self := mk (stars self) (unlocked self) (completed self)
                 (custom_refraction_unlocked self) (Rmax 1.1 (Rmin 2.0 value)) in
  (self, Material.set_base_ior GLASS (custom_ior self)).

Definition is_level_unlocked (self : t) (level_num : Z) : bool :=
  if bool_decide (level_num <= 1)%Z then true
  else bool_decide (default 0%Z (completed self !! (level_num - 1)%Z) >= 1)%Z.

Definition clear_all (self : t) (GLASS : Material.t) : t * Material.t :=
  (mk 0 (set_unlocked PLANE_MIRROR true (fun _ => false)) ∅ false 1.5,
   Material.set_base_ior GLASS 1.5).

End Shop.

(** ** class Game: the tracer

    A call of [trace] or [trace_color] mutates its ray and appends to
    [self.rays].  Each ray object is mutated only by the call that traces
    it, so a call is modelled by the pair of the ray's final state and the
    rays the call appended to [self.rays], each in its final state and in
    the order of the appends.  [self.items] and the current [GLASS] are
    read-only during a call. *)

Module Game.

Definition get_intensity_at_distance (distance : R) : R :=
  Rmax 0.0 (1.0 - distance / MAX_RAY_DISTANCE).

(** The nearest hit found by the search loops: [best_dist], [best_pt],
    [best_n], [best_item].  The four are assigned together; [None] is the
    initial state ([best_dist = inf], [best_pt = None]). *)
Record Hit : Type := mkHit {
  best_dist : R;
  best_pt : Vector2.t;
  best_n : Vector2.t;
  best_item : Item.t
}.

(** Final state of the traced ray, and the rays appended to [self.rays]. *)
Definition result : Type := (Ray.t * list Ray.t)%type.

(** How a loop iteration ends: falls through to the next iteration, or
    leaves the routine ([break] or [return]). *)
Inductive flow : Type :=
| Next
| Leave.

Section Tracer.

Variable GLASS : Material.t.
Variable items : list Item.t.

(** [hit[1] < best_dist], with [best_dist = inf] before the first hit. *)
Definition closer (dist : R) (best : option Hit) : bool :=
  match best with
  | None => true
  | Some b => bool_decide (dist < best_dist b)
  end.

(** Body of [for s in item.get_segments()]; [guard] is the literal of
    the minimum-hit-distance test ([0.1] in [trace], [1.0] in
    [trace_color]). *)
Definition scan_segment (guard : R) (ray : Ray.t) (item : Item.t)
    (best : option Hit) (s : Vector2.t * Vector2.t) : option Hit :=
  match Physics.intersect (Ray.origin ray) (Ray.get_endpoint ray) (fst s) (snd s) with
  | Some hit =>
      if bool_decide (guard < snd hit) && closer (snd hit) best then
        let n := Physics.normal (fst s) (snd s) in
        let n := if bool_decide (Vector2.dot n (Ray.direction ray) > 0)
                 then Vector2.neg n else n in
        Some (mkHit (snd hit) (fst hit) n item)
      else best
  | None => best
  end.

(** [for item in self.items: for s in item.get_segments(): ...] *)
Definition nearest_hit (guard : R) (ray : Ray.t) : option Hit :=
  fold_left
    (fun best item => fold_left (scan_segment guard ray item) (Item.get_segments item) best)
    items None.

(** [ray.path.append(...)], [ray.distance_traveled += best_dist],
    [ray.origin = best_pt]. *)
Definition advance_to_hit (ray : Ray.t) (h : Hit) : Ray.t :=
  let ray := Ray.set_path
               (Ray.path ray ++ [(Vector2.x (best_pt h), Vector2.y (best_pt h))]) ray in
  let ray := Ray.set_distance_traveled (Ray.distance_traveled ray + best_dist h) ray in
  Ray.set_origin (best_pt h) ray.

(** The [else] branch of [if best_pt:], the same statements in both
    routines. *)
Definition no_hit (ray : Ray.t) : Ray.t :=
  let end_ := Vector2.add (Ray.origin ray) (Vector2.mul (Ray.direction ray) 2000) in
  let ray := Ray.set_distance_traveled (Ray.distance_traveled ray + 2000) ray in
  if bool_decide (Ray.distance_traveled ray >= MAX_RAY_DISTANCE) then
    let remaining := MAX_RAY_DISTANCE - (Ray.distance_traveled ray - 2000) in
    let ray :=
      if bool_decide (remaining > 0) then
        let end_ := Vector2.add (Ray.origin ray)
                                (Vector2.mul (Ray.direction ray) remaining) in
        Ray.set_path (Ray.path ray ++ [(Vector2.x end_, Vector2.y end_)]) ray
      else ray in
    Ray.set_active false ray
  else
    let ray := Ray.set_path (Ray.path ray ++ [(Vector2.x end_, Vector2.y end_)]) ray in
    Ray.set_active false ray.

(** [refl_ray = Ray(Vector2(best_pt.x, best_pt.y), refl_dir, color, wave,
    white, ray.intensity * R)] followed by the assignments of
    [distance_traveled] and [bounces]; [Rf] is the source's [R]. *)
Definition reflected_ray (ray : Ray.t) (h : Hit) (color : Color) (wave : string)
    (white : bool) (Rf : R) : Ray.t :=
  let refl_dir := Physics.reflect (Ray.direction ray) (best_n h) in
  let refl_ray :=
    Ray.init (Vector2.mk (Vector2.x (best_pt h)) (Vector2.y (best_pt h)))
             refl_dir color wave white (Ray.intensity ray * Rf) in
  let refl_ray := Ray.set_distance_traveled (Ray.distance_traveled ray) refl_ray in
  Ray.set_bounces (Ray.bounces ray + 1) refl_ray.

(** [new_ray = Ray(Vector2(best_pt.x, best_pt.y), new_dir, ccol, cname,
    False, ray.intensity * T)] followed by the assignments of [material],
    [distance_traveled] and [bounces]. *)
Definition dispersed_ray (ray : Ray.t) (h : Hit) (new_dir : Vector2.t)
    (ccol : Color) (cname : string) (T : R) : Ray.t :=
  let new_ray :=
    Ray.init (Vector2.mk (Vector2.x (best_pt h)) (Vector2.y (best_pt h)))
             new_dir ccol cname false (Ray.intensity ray * T) in
  let new_ray := Ray.set_material GLASS_ref new_ray in
  let new_ray := Ray.set_distance_traveled (Ray.distance_traveled ray) new_ray in
  Ray.set_bounces (Ray.bounces ray + 1) new_ray.

Definition is_mirror (item : Item.t) : bool :=
  bool_decide (Item.type item ∈ [PLANE_MIRROR; CURVED_MIRROR]).

Definition is_polygon (item : Item.t) : bool :=
  bool_decide (Item.type item ∈ [TRIANGLE; RECTANGLE]).

(** [entering = best_n.dot(best_item.pos - best_pt) < 0] *)
Definition entering_at (h : Hit) : bool :=
  bool_decide (Vector2.dot (best_n h) (Vector2.sub (Item.pos (best_item h)) (best_pt h)) < 0).

(** [GLASS if (ray.material == AIR and entering) else AIR] *)
Definition next_material (ray : Ray.t) (entering : bool) : MaterialRef :=
  if bool_decide (deref GLASS (Ray.material ray) = AIR) && entering
  then GLASS_ref else AIR_ref.

(** *** trace_color *)

Section ColorBody.

(** The recursive calls [self.trace_color(...)]. *)
Variable trace_color_rec : Ray.t -> option result.

(** [self.rays.append(refl_ray); self.trace_color(refl_ray)] *)
Definition spawn_color (refl_ray : Ray.t) : option (list Ray.t) :=
  '(refl_ray, appended) ← trace_color_rec refl_ray;
  Some (refl_ray :: appended).

(** From [R = Physics.fresnel_reflectance(...)] to the end of a refracting
    branch of [trace_color]; the polygon and the lens branch differ only in
    how [n1] and [n2] are chosen. *)
Definition color_boundary (ray : Ray.t) (h : Hit) (entering : bool) (n1 n2 : R)
    : option (flow * Ray.t * list Ray.t) :=
  let Rf := Physics.fresnel_reflectance (Ray.direction ray) (best_n h) n1 n2 in
  let T := 1.0 - Rf in
  spawned ←
    (if bool_decide (Rf > 0.01) then
       spawn_color (reflected_ray ray h (Ray.color ray) (Ray.wavelength ray) false Rf)
     else Some []);
  if bool_decide (T > 0.01) then
    match Physics.refract (Ray.direction ray) (best_n h) n1 n2 with
    | Some new_dir =>
        let ray := Ray.set_direction new_dir ray in
        let ray := Ray.set_intensity (Ray.intensity ray * T) ray in
        let ray := Ray.set_material (next_material ray entering) ray in
        let ray := Ray.set_bounces (Ray.bounces ray + 1) ray in
        Some (Next, ray, spawned)
    | None => Some (Leave, Ray.set_active false ray, spawned)
    end
  else Some (Leave, Ray.set_active false ray, spawned).

(** One iteration of the [for _ in range(10)] loop of [trace_color]. *)
Definition trace_color_body (guard : R) (ray : Ray.t)
    : option (flow * Ray.t * list Ray.t) :=
  if negb (Ray.active ray) || bool_decide (Ray.bounces ray >= 10)%Z then
    Some (Leave, ray, [])
  else if bool_decide (Ray.distance_traveled ray >= MAX_RAY_DISTANCE) then
    Some (Leave, Ray.set_active false ray, [])
  else
    match nearest_hit guard ray with
    | Some h =>
        let ray := advance_to_hit ray h in
        if is_mirror (best_item h) then
          let ray := Ray.set_direction
                       (Physics.reflect (Ray.direction ray) (best_n h)) ray in
          let ray := Ray.set_bounces (Ray.bounces ray + 1) ray in
          Some (Next, ray, [])
        else if is_polygon (best_item h) then
          let entering := entering_at h in
          let n1 := Material.get_ior (deref GLASS (Ray.material ray)) (Ray.wavelength ray) in
          let n2 := if entering then Material.get_ior GLASS (Ray.wavelength ray)
                    else Material.get_ior AIR (Ray.wavelength ray) in
          color_boundary ray h entering n1 n2
        else
          let entering := entering_at h in
          let '(n1, n2) :=
            if bool_decide (deref GLASS (Ray.material ray) = GLASS) && negb entering then
              (Material.get_ior GLASS (Ray.wavelength ray),
               Material.get_ior AIR (Ray.wavelength ray))
            else if entering then
              (Material.get_ior AIR (Ray.wavelength ray),
               Material.get_ior GLASS (Ray.wavelength ray))
            else
              (Material.get_ior GLASS (Ray.wavelength ray),
               Material.get_ior AIR (Ray.wavelength ray)) in
          color_boundary ray h entering n1 n2
    | None => Some (Leave, no_hit ray, [])
    end.

(** [for _ in range(k)] around the body; [out] collects the appends. *)
Fixpoint trace_color_loop (guard : R) (k : nat) (ray : Ray.t) (out : list Ray.t)
    : option result :=
  match k with
  | O => Some (ray, out)
  | S k' =>
      '(fl, ray, new) ← trace_color_body guard ray;
      match fl with
      | Leave => Some (ray, out ++ new)
      | Next => trace_color_loop guard k' ray (out ++ new)
      end
  end.

End ColorBody.

(** [trace_color] with the nesting depth of its recursive calls bounded by
    [depth]; [None] when the bound is used up. *)
Fixpoint trace_color_depth (guard : R) (depth : nat) (ray : Ray.t) : option result :=
  match depth with
  | O => None
  | S depth' => trace_color_loop (trace_color_depth guard depth') guard 10 ray []
  end.

(** *** trace *)

Section TraceBody.

(** The recursive calls [self.trace(...)] and [self.trace_color(...)]. *)
Variable trace_rec : Ray.t -> option result.
Variable trace_color_rec : Ray.t -> option result.

(** [self.rays.append(refl_ray); self.trace(refl_ray)] *)
Definition spawn_trace (refl_ray : Ray.t) : option (list Ray.t) :=
  '(refl_ray, appended) ← trace_rec refl_ray;
  Some (refl_ray :: appended).

(** [for cname, ccol, ior in SPECTRUM: ...]: each refracted band is traced
    by [trace_color] and appended after its own descendants. *)
Fixpoint spectral_split (bands : list (string * Color * R)) (ray : Ray.t) (h : Hit)
    (T : R) : option (list Ray.t) :=
  match bands with
  | [] => Some []
  | (cname, ccol, ior) :: bands' =>
      let n1_c := Material.get_ior AIR cname in
      let n2_c := Material.get_ior GLASS cname in
      here ←
        match Physics.refract (Ray.direction ray) (best_n h) n1_c n2_c with
        | Some new_dir =>
            '(new_ray, appended) ←
              trace_color_rec (dispersed_ray ray h new_dir ccol cname T);
            Some (appended ++ [new_ray])
        | None => Some []
        end;
      more ← spectral_split bands' ray h T;
      Some (here ++ more)
  end.

(** The [elif best_item.type in [TRIANGLE, RECTANGLE]] branch of [trace]. *)
Definition trace_polygon (ray : Ray.t) (h : Hit) : option (flow * Ray.t * list Ray.t) :=
  let entering := entering_at h in
  let '(n1, n2) :=
    if Ray.is_white ray then
      (Material.get_ior (deref GLASS (Ray.material ray)) "white",
       Material.get_ior GLASS "white")
    else
      (Material.get_ior (deref GLASS (Ray.material ray)) (Ray.wavelength ray),
       if entering then Material.get_ior GLASS (Ray.wavelength ray)
       else Material.get_ior AIR (Ray.wavelength ray)) in
  let Rf := Physics.fresnel_reflectance (Ray.direction ray) (best_n h) n1 n2 in
  let T := 1.0 - Rf in
  spawned ←
    (if bool_decide (Rf > 0.01) && bool_decide (Ray.intensity ray * Rf > 0.01) then
       spawn_trace (reflected_ray ray h (Ray.color ray) (Ray.wavelength ray)
                                  (Ray.is_white ray) Rf)
     else Some []);
  if bool_decide (T > 0.01) && bool_decide (Ray.intensity ray * T > 0.01) then
    if Ray.is_white ray && entering then
      let ray := Ray.set_active false ray in
      split ← spectral_split SPECTRUM ray h T;
      Some (Leave, ray, spawned ++ split)
    else
      let next_mat := next_material ray entering in
      match Physics.refract (Ray.direction ray) (best_n h) n1 n2 with
      | Some new_dir =>
          let ray := Ray.set_direction new_dir ray in
          let ray := Ray.set_material next_mat ray in
          let ray := Ray.set_intensity (Ray.intensity ray * T) ray in
          let ray := Ray.set_bounces (Ray.bounces ray + 1) ray in
          Some (Next, ray, spawned)
      | None => Some (Leave, Ray.set_active false ray, spawned)
      end
  else Some (Leave, Ray.set_active false ray, spawned).

(** The final [else] branch of [trace]: every other item type (the lenses). *)
Definition trace_lens (ray : Ray.t) (h : Hit) : option (flow * Ray.t * list Ray.t) :=
  let entering := entering_at h in
  if Ray.is_white ray && entering then
    let n1 := Material.get_ior AIR "white" in
    let n2 := Material.get_ior GLASS "white" in
    let Rf := Physics.fresnel_reflectance (Ray.direction ray) (best_n h) n1 n2 in
    let T := 1.0 - Rf in
    spawned ←
      (if bool_decide (Rf > 0.01) then
         spawn_trace (reflected_ray ray h WHITE "white" true Rf)
       else Some []);
    if bool_decide (T > 0.01) then
      let ray := Ray.set_active false ray in
      split ← spectral_split SPECTRUM ray h T;
      Some (Leave, ray, spawned ++ split)
    else Some (Leave, ray, spawned)
  else
    let '(n1, n2, ray) :=
      if bool_decide (deref GLASS (Ray.material ray) = GLASS) && negb entering then
        (Material.get_ior GLASS (Ray.wavelength ray),
         Material.get_ior AIR (Ray.wavelength ray), ray)
      else if entering then
        (Material.get_ior AIR (Ray.wavelength ray),
         Material.get_ior GLASS (Ray.wavelength ray),
         Ray.set_material GLASS_ref ray)
      else
        (Material.get_ior GLASS (Ray.wavelength ray),
         Material.get_ior AIR (Ray.wavelength ray),
         Ray.set_material AIR_ref ray) in
    let Rf := Physics.fresnel_reflectance (Ray.direction ray) (best_n h) n1 n2 in
    let T := 1.0 - Rf in
    spawned ←
      (if bool_decide (Rf > 0.01) then
         spawn_color trace_color_rec
           (reflected_ray ray h (Ray.color ray) (Ray.wavelength ray) false Rf)
       else Some []);
    if bool_decide (T > 0.01) then
      match Physics.refract (Ray.direction ray) (best_n h) n1 n2 with
      | Some new_dir =>
          let ray := Ray.set_direction new_dir ray in
          let ray := Ray.set_intensity (Ray.intensity ray * T) ray in
          let ray := Ray.set_bounces (Ray.bounces ray + 1) ray in
          Some (Next, ray, spawned)
      | None => Some (Leave, Ray.set_active false ray, spawned)
      end
    else Some (Leave, Ray.set_active false ray, spawned).

(** One iteration of the [for _ in range(20)] loop of [trace]. *)
Definition trace_body (guard : R) (ray : Ray.t) : option (flow * Ray.t * list Ray.t) :=
  if negb (Ray.active ray) || bool_decide (Ray.bounces ray >= 10)%Z then
    Some (Leave, ray, [])
  else if bool_decide (Ray.distance_traveled ray >= MAX_RAY_DISTANCE) then
    Some (Leave, Ray.set_active false ray, [])
  else
    match nearest_hit guard ray with
    | Some h =>
        let ray := advance_to_hit ray h in
        let current_intensity := get_intensity_at_distance (Ray.distance_traveled ray) in
        if bool_decide (current_intensity <= 0.01) then
          Some (Leave, Ray.set_active false ray, [])
        else if is_mirror (best_item h) then
          let ray := Ray.set_direction
                       (Physics.reflect (Ray.direction ray) (best_n h)) ray in
          let ray := Ray.set_bounces (Ray.bounces ray + 1) ray in
          Some (Next, ray, [])
        else if is_polygon (best_item h) then trace_polygon ray h
        else trace_lens ray h
    | None => Some (Next, no_hit ray, [])
    end.

(** [for _ in range(k)] around the body; [out] collects the appends. *)
Fixpoint trace_loop (guard : R) (k : nat) (ray : Ray.t) (out : list Ray.t)
    : option result :=
  match k with
  | O => Some (ray, out)
  | S k' =>
      '(fl, ray, new) ← trace_body guard ray;
      match fl with
      | Leave => Some (ray, out ++ new)
      | Next => trace_loop guard k' ray (out ++ new)
      end
  end.

End TraceBody.

(** [trace] with the nesting depth of the recursive calls bounded by
    [depth]; [guard_color] is the guard of the [trace_color] calls it
    makes. *)
Fixpoint trace_depth (guard guard_color : R) (depth : nat) (ray : Ray.t)
    : option result :=
  match depth with
  | O => None
  | S depth' =>
      trace_loop (trace_depth guard guard_color depth')
                 (trace_color_depth guard_color depth') guard 20 ray []
  end.

(** A spawned ray has one bounce more than its parent had, and a ray at
    the bounce cap spawns nothing: this depth is enough for every call
    ([trace_terminates] below), and any larger depth gives the same result
    ([trace_any_depth]). *)
Definition depth_for (ray : Ray.t) : nat := S (Z.to_nat (10 - Ray.bounces ray)).

(** The routines of the source, with their own guards. *)
Definition trace (ray : Ray.t) : option result :=
  trace_depth 0.1 1.0 (depth_for ray) ray.

Definition trace_color (ray : Ray.t) : option result :=
  trace_color_depth 1.0 (depth_for ray) ray.

End Tracer.

(** *** Scoring

    [calc_score] reads the clock; [ticks] is the value of
    [pygame.time.get_ticks()] and [has_level] tells whether [self.level]
    is set. *)

Definition calc_score (has_level : bool) (ticks start_time moves items_used : Z) : Z :=
  if negb has_level then 0%Z
  else
    let time := IZR (ticks - start_time) / 1000 in
    Z.max 0 (MAX_SCORE - int (time * IZR TIME_PENALTY) - moves * MOVE_PENALTY
             - items_used * ITEM_PENALTY).

Definition get_stars (level_num score : Z) : Z :=
  let base := (MAX_SCORE - level_num * 500)%Z in
  if bool_decide (IZR score >= IZR base * 0.9) then 3%Z
  else if bool_decide (IZR score >= IZR base * 0.75) then 2%Z
  else if bool_decide (IZR score >= IZR base * 0.5) then 1%Z
  else 0%Z.

(** *** The rays and sensors of a frame

    The branch of [update] for the state ["playing"], without the sound
    and the change of state. *)

Section Frame.

Variable GLASS : Material.t.
Variable items : list Item.t.

(** [Ray(self.level.box.pos + off, self.level.box.get_dir(), WHITE,
    "white", white=True)] with [off = perp * (i * 12)]. *)
Definition emit (box : LightBox.t) (i : Z) : Ray.t :=
  let perp := LightBox.get_perp box in
  let off := Vector2.mul perp (IZR (i * 12)) in
  Ray.init (Vector2.add (LightBox.pos box) off) (LightBox.get_dir box)
           WHITE "white" true 1.0.

(** [for i in range(-1, 2): ...; self.trace(r); self.rays.append(r)]:
    the call of [trace] appends the rays it adds, then the ray itself is
    appended. *)
Fixpoint cast (box : LightBox.t) (indices : list Z) (rays : list Ray.t)
    : option (list Ray.t) :=
  match indices with
  | [] => Some rays
  | i :: indices' =>
      '(r, appended) ← trace GLASS items (emit box i);
      cast box indices' (rays ++ appended ++ [r])
  end.

(** [for s in self.level.sensors: ...]: the updated sensors,
    [just_activated] and [all_active]. *)
Definition update_sensors (sensors : list Sensor.t) (rays : list Ray.t)
    : list Sensor.t * bool * bool :=
  fold_left
    (fun '(updated, just_activated, all_active) s =>
       let '(s, rose) := Sensor.update s rays in
       (updated ++ [s],
        if rose then true else just_activated,
        if negb (Sensor.active s) then false else all_active))
    sensors ([], false, true).

Definition update (box : LightBox.t) (sensors : list Sensor.t)
    : option (list Ray.t * list Sensor.t * bool * bool) :=
  rays ← cast box (seqZ (-1) 3) [];
  let '(sensors, just_activated, all_active) := update_sensors sensors rays in
  Some (rays, sensors, just_activated, all_active).

End Frame.

End Game.

(** * Vocabulary of the statements

    Predicates, measures and concrete scenes that the theorems below are
    stated with. *)

(** The keys of the dictionary of [get_ior]. *)
Definition band_names : list string :=
  ["red"; "orange"; "yellow"; "green"; "blue"; "violet"; "white"].

(** What the hit test and the colour test read of a sensor. *)
Definition same_target (s s' : Sensor.t) : Prop :=
  Sensor.pos s = Sensor.pos s'
  /\ Sensor.radius s = Sensor.radius s'
  /\ Sensor.color s = Sensor.color s'
  /\ Sensor.tol s = Sensor.tol s'
  /\ Sensor.is_white s = Sensor.is_white s'.

(** A white-seeking sensor in the middle of the stretch that [spent_ray]
    runs along. *)
Definition probe : Sensor.t := Sensor.init 600 360 WHITE 40.

(** A white ray as [trace] leaves it after six legs of 1000 between two
    facing mirrors: it has travelled exactly [MAX_RAY_DISTANCE], is
    inactive, and still stores intensity 1.0 (mirrors do not change it). *)
Definition spent_ray : Ray.t :=
  Ray.mk (Vector2.mk 100 360) (Vector2.mk (-1) 0) WHITE "white" true
         [(100, 360); (1100, 360); (100, 360); (1100, 360);
          (100, 360); (1100, 360); (100, 360)]
         false 5%Z AIR_ref 1.0 MAX_RAY_DISTANCE.

(** The six stored indices of a material are positive. *)
Definition positive_indices (m : Material.t) : Prop :=
  0 < Material.ior_red m /\ 0 < Material.ior_orange m /\ 0 < Material.ior_yellow m
  /\ 0 < Material.ior_green m /\ 0 < Material.ior_blue m /\ 0 < Material.ior_violet m.

(** [rec] answers on every ray with more than [b] bounces. *)
Definition spawn_total (rec : Ray.t -> option Game.result) (b : Z) : Prop :=
  forall r, (b < Ray.bounces r)%Z -> is_Some (rec r).

(** With positive glass indices, a non-negative intensity stays
    non-negative and does not grow from [ray] to [ray']. *)
Definition dims (GLASS : Material.t) (ray ray' : Ray.t) : Prop :=
  positive_indices GLASS -> 0 <= Ray.intensity ray ->
  0 <= Ray.intensity ray' <= Ray.intensity ray.

(** An iteration returns, never lowers the bounce count and never raises
    the intensity. *)
Definition step_spec (GLASS : Material.t) (ray : Ray.t)
    (res : option (Game.flow * Ray.t * list Ray.t)) : Prop :=
  exists fl ray' new,
    res = Some (fl, ray', new)
    /\ (Ray.bounces ray <= Ray.bounces ray')%Z
    /\ dims GLASS ray ray'.

(** The measure that bounds the nesting of recursive calls. *)
Definition headroom (ray : Ray.t) : nat := Z.to_nat (10 - Ray.bounces ray).

(** A ray at the bounce cap, as a sibling spawned by a parent with nine
    bounces is: [Ray.__init__] made it active. *)
Definition capped_ray : Ray.t :=
  Ray.set_bounces 10 (Ray.init (Vector2.mk 60 50) (Vector2.mk 0 (-1)) RED "red" false 0.5).

(** An active ray that has used up its travel budget. *)
Definition exhausted_ray : Ray.t :=
  Ray.set_distance_traveled 6000
    (Ray.init (Vector2.mk 60 50) (Vector2.mk 0 (-1)) RED "red" false 0.5).

(** [Item(PLANE_MIRROR, 60, 50, 120, 20)]: the shape [update_shape]
    computes at rotation 0. *)
Definition mirror : Item.t :=
  Item.mk PLANE_MIRROR (Vector2.mk 60 50) [Vector2.mk 0 50; Vector2.mk 120 50].

(** A white ray at (60, 0) heading towards the mirror, having already
    travelled [d] with [b] bounces. *)
Definition beam (d : R) (b : Z) : Ray.t :=
  Ray.mk (Vector2.mk 60 0) (Vector2.mk 0 1) WHITE "white" true [(60, 0)] true b
         AIR_ref 1.0 d.

(** The hit of the beam on the mirror. *)
Definition mirror_hit : Game.Hit :=
  Game.mkHit 50 (Vector2.mk 60 50) (Vector2.mk 0 (-1)) mirror.

(** The mirror branch of both loops: move to the hit, reflect, count the
    bounce. *)
Definition mirror_bounce (ray : Ray.t) (h : Game.Hit) : Ray.t :=
  let ray := Game.advance_to_hit ray h in
  let ray := Ray.set_direction
               (Physics.reflect (Ray.direction ray) (Game.best_n h)) ray in
  Ray.set_bounces (Ray.bounces ray + 1) ray.

(** The beam after its reflection on the mirror. *)
Definition bounced (d : R) (b : Z) : Ray.t :=
  Ray.mk (Vector2.mk 60 50) (Vector2.mk 0 (-1)) WHITE "white" true
         [(60, 0); (60, 50)] true (b + 1) AIR_ref 1.0 (d + 50).

(** Every item of the scene is a plane or curved mirror. *)
Definition mirrors_only (items : list Item.t) : Prop :=
  forall item, item ∈ items -> Game.is_mirror item = true.

(** Over the next [k] mirror hits the distance-based attenuation
    [1 - traveled / MAX_RAY_DISTANCE] stays above 0.01, the value at which
    [trace] (and only [trace]) ends a ray. *)
Fixpoint stays_bright (items : list Item.t) (g : R) (k : nat) (ray : Ray.t) : Prop :=
  match k with
  | O => True
  | S k' =>
      match Game.nearest_hit items g ray with
      | Some h =>
          Game.get_intensity_at_distance (Ray.distance_traveled ray + Game.best_dist h)
          > 0.01
          /\ stays_bright items g k' (mirror_bounce ray h)
      | None => True
      end
  end.

(** [Item(RECTANGLE, 600, 400, 100, 80)]: the shape [update_shape]
    computes at rotation 0. *)
Definition block : Item.t :=
  Item.mk RECTANGLE (Vector2.mk 600 400)
          [Vector2.mk 550 360; Vector2.mk 650 360; Vector2.mk 650 440; Vector2.mk 550 440].

(** A red ray of stored intensity 0.2 in air, above the block and heading
    down onto its top face. *)
Definition dim_ray : Ray.t :=
  Ray.mk (Vector2.mk 600 300) (Vector2.mk 0 1) RED "red" false [(600, 300)] true 1
         AIR_ref 0.2 100.

(** The hit of [dim_ray] on the top face of the block. *)
Definition block_hit : Game.Hit :=
  Game.mkHit 60 (Vector2.mk 600 360) (Vector2.mk 0 (-1)) block.

(** The reflected sibling of [dim_ray] at the top face, for reflectance
    0.04, as [Ray.__init__] and the two assignments leave it. *)
Definition dim_sibling : Ray.t :=
  Ray.mk (Vector2.mk 600 360) (Vector2.mk 0 (-1)) RED "red" false [(600, 360)] true 2
         AIR_ref (0.2 * 0.04) 160.

(** [dim_ray] refracted into the block. *)
Definition dim_refracted : Ray.t :=
  Ray.mk (Vector2.mk 600 360) (Vector2.mk 0 1) RED "red" false
         [(600, 300); (600, 360)] true 2 GLASS_ref (0.2 * (1.0 - 0.04)) 160.

(** A white ray as the light box emits it, above the block and heading
    down onto its top face. *)
Definition white_ray : Ray.t :=
  Ray.mk (Vector2.mk 600 300) (Vector2.mk 0 1) WHITE "white" true [(600, 300)] true 0
         AIR_ref 1.0 0.

(** Two stand-ins for a recursive call that agree on the rays an
    iteration on a ray with [b] bounces can spawn. *)
Definition agree_above (rec rec' : Ray.t -> option Game.result) (b : Z) : Prop :=
  forall r, (b < Ray.bounces r)%Z -> rec r = rec' r.

(** A stand-in for the recursive call that returns the spawned ray as it
    was built, so that an iteration shows which rays it spawns. *)
Definition observe (r : Ray.t) : option Game.result := Some (r, []).

(** The 2D cross product: the component of [a] along the tangent of a
    surface with unit normal [b], up to sign. *)
Definition cross (a b : Vector2.t) : R :=
  Vector2.x a * Vector2.y b - Vector2.y a * Vector2.x b.

(** The point at parameter [t] on the segment from [p] to [q]. *)
Definition along (p q : Vector2.t) (t : R) : Vector2.t :=
  Vector2.add p (Vector2.mul (Vector2.sub q p) t).


(** [s] is a segment of [item] that the reach of [ray] crosses at [pt],
    [d] away from the ray's origin and beyond the guard. *)
Definition crosses (guard : R) (ray : Ray.t) (item : Item.t)
    (s : Vector2.t * Vector2.t) (pt : Vector2.t) (d : R) : Prop :=
  s ∈ Item.get_segments item
  /\ Physics.intersect (Ray.origin ray) (Ray.get_endpoint ray) (fst s) (snd s)
     = Some (pt, d)
  /\ guard < d.

(** [n] is a normal of the segment [s], turned against the ray. *)
Definition faces (ray : Ray.t) (s : Vector2.t * Vector2.t) (n : Vector2.t) : Prop :=
  (n = Physics.normal (fst s) (snd s) \/ n = Vector2.neg (Physics.normal (fst s) (snd s)))
  /\ Vector2.dot n (Ray.direction ray) <= 0.

(** [h] records a crossing of a segment of its item. *)
Definition hit_on (guard : R) (ray : Ray.t) (h : Game.Hit) : Prop :=
  exists s,
    crosses guard ray (Game.best_item h) s (Game.best_pt h) (Game.best_dist h)
    /\ faces ray s (Game.best_n h).

(** The search has found a hit no farther than [d]. *)
Definition found_within (d : R) (best : option Game.Hit) : Prop :=
  exists h, best = Some h /\ Game.best_dist h <= d.

(** A ray within the limits the tracer works to: at most ten bounces, a
    direction no longer than 1, and a travelled distance within
    [MAX_RAY_DISTANCE], or within one last leg of 2000 more once the ray
    is inactive. *)
Definition tidy (r : Ray.t) : Prop :=
  (Ray.bounces r <= 10)%Z
  /\ Vector2.length (Ray.direction r) <= 1
  /\ Ray.distance_traveled r <= MAX_RAY_DISTANCE + 2000
  /\ (Ray.active r = true -> Ray.distance_traveled r <= MAX_RAY_DISTANCE).

(** A ray that has been moved to a hit and may still bounce. *)
Definition room (r : Ray.t) : Prop :=
  (Ray.bounces r < 10)%Z
  /\ Vector2.length (Ray.direction r) <= 1
  /\ Ray.distance_traveled r <= MAX_RAY_DISTANCE.

(** [c] has the colour and the wavelength name of [r]. *)
Definition same_band (r c : Ray.t) : Prop :=
  Ray.color c = Ray.color r /\ Ray.wavelength c = Ray.wavelength r.

(** [c] has the band of [r], or is white, or has a band of [SPECTRUM]. *)
Definition palette (r c : Ray.t) : Prop :=
  same_band r c
  \/ (Ray.wavelength c = "white" /\ Ray.color c = WHITE)
  \/ exists ior, (Ray.wavelength c, Ray.color c, ior) ∈ SPECTRUM.

(** [r'] is a later state of the ray object [r]: same band and whiteness,
    a path extended by at most [k] points, no fewer bounces, no less
    travelled, and within the limits if [r] was. *)
Definition follows (k : nat) (r r' : Ray.t) : Prop :=
  same_band r r'
  /\ Ray.is_white r' = Ray.is_white r
  /\ (exists ext, Ray.path r' = Ray.path r ++ ext /\ (List.length ext <= k)%nat)
  /\ (Ray.bounces r <= Ray.bounces r')%Z
  /\ Ray.distance_traveled r <= Ray.distance_traveled r'
  /\ (tidy r -> tidy r').

(** What the branches after a hit do to the ray itself: at most one more
    bounce and a new direction no longer than 1. *)
Definition turned (r r' : Ray.t) : Prop :=
  same_band r r'
  /\ Ray.is_white r' = Ray.is_white r
  /\ Ray.path r' = Ray.path r
  /\ Ray.distance_traveled r' = Ray.distance_traveled r
  /\ (Ray.bounces r <= Ray.bounces r' <= Ray.bounces r + 1)%Z
  /\ (Ray.direction r' = Ray.direction r \/ Vector2.length (Ray.direction r') <= 1).

(** [c] is a ray added while [r] was traced: it has more bounces than [r]
    had, a band allowed by [pal], and is within the limits if [r]
    satisfied [pre]. *)
Definition offspring (pal : Ray.t -> Ray.t -> Prop) (pre : Ray.t -> Prop)
    (r c : Ray.t) : Prop :=
  (Ray.bounces r < Ray.bounces c)%Z /\ pal r c /\ (pre r -> tidy c).

(** What a call of a tracing routine guarantees. *)
Definition contract (k : nat) (pal : Ray.t -> Ray.t -> Prop)
    (rec : Ray.t -> option Game.result) : Prop :=
  forall r r' out,
    rec r = Some (r', out) ->
    follows k r r' /\ Forall (offspring pal tidy r) out.

(** The legs of a path: its pairs of consecutive points. *)
Fixpoint legs (path : list (R * R)) : list ((R * R) * (R * R)) :=
  match path with
  | a :: (b :: _) as rest => (a, b) :: legs rest
  | _ => []
  end.

(** The leg from [a] to [b] is at least 0.01 long and has a point closer
    than the sensor's radius to the sensor's centre. *)
Definition in_range (self : Sensor.t) (a b : R * R) : Prop :=
  let p1 := Vector2.mk (fst a) (snd a) in
  let p2 := Vector2.mk (fst b) (snd b) in
  0.0001 <= Vector2.dot (Vector2.sub p2 p1) (Vector2.sub p2 p1)
  /\ exists t, 0 <= t <= 1
       /\ Vector2.length (Vector2.sub (Sensor.pos self) (along p1 p2 t))
          < Sensor.radius self.

(** [c] is white with the wavelength name "white", or carries one of the
    bands of [SPECTRUM]. *)
Definition white_or_band (c : Ray.t) : Prop :=
  (Ray.wavelength c = "white" /\ Ray.color c = WHITE)
  \/ exists ior, (Ray.wavelength c, Ray.color c, ior) ∈ SPECTRUM.

(** The glass carries the dispersion of [set_base_ior] over a base index
    within the range of the slider. *)
Definition dispersive (g : Material.t) : Prop :=
  exists base, 1.1 <= base <= 2.0 /\ g = Material.set_base_ior g base.

(** The calls that the event loop makes on the shop. *)
Inductive shop_op : Type :=
| Award (level stars : Z)
| Unlock (item : ItemType)
| UnlockCustomRefraction
| UpdateIor (value : R)
| ClearAll.

(** One such call on the shop and the glass. *)
Definition shop_step (st : Shop.t * Material.t) (op : shop_op) : Shop.t * Material.t :=
  match op with
  | Award level stars => (fst (Shop.award (fst st) level stars), snd st)
  | Unlock item => (fst (Shop.unlock (fst st) item), snd st)
  | UnlockCustomRefraction => (fst (Shop.unlock_custom_refraction (fst st)), snd st)
  | UpdateIor value => Shop.update_ior (fst st) (snd st) value
  | ClearAll => Shop.clear_all (fst st) (snd st)
  end.

(** Awards carry between 0 and 3 stars, as [get_stars] returns. *)
Definition fair_op (op : shop_op) : Prop :=
  match op with
  | Award _ stars => (0 <= stars <= 3)%Z
  | _ => True
  end.

(** What every reachable state of the shop and the glass satisfies. *)
Definition shop_ok (st : Shop.t * Material.t) : Prop :=
  (0 <= Shop.stars (fst st))%Z
  /\ Shop.unlocked (fst st) PLANE_MIRROR = true
  /\ map_Forall (fun _ record => (0 <= record <= 3)%Z) (Shop.completed (fst st))
  /\ 1.1 <= Shop.custom_ior (fst st) <= 2.0
  /\ dispersive (snd st).

(** Whole numbers in descending order. *)
Fixpoint descending (l : list Z) : Prop :=
  match l with
  | [] => True
  | a :: l' => Forall (fun b => (b <= a)%Z) l' /\ descending l'
  end.

(** A board with two levels, best score first. *)
Definition sample_board : list ScoreEntry.t :=
  [ScoreEntry.mk "ANN" 9100 1 "2026-01-05"; ScoreEntry.mk "BOB" 8700 2 "2026-01-06";
   ScoreEntry.mk "CYD" 8700 1 "2026-01-07"; ScoreEntry.mk "DEE" 5200 1 "2026-01-08"].
(** * Properties *)

(** ** Deciding comparisons in proofs *)

(** [decide_with tac] rewrites one [bool_decide P] of the goal to the
    truth value that [tac] establishes for [P]. *)
Ltac decide_with tac :=
  match goal with
  | |- context [@bool_decide ?P ?d] =>
      first
        [ rewrite (@bool_decide_eq_true_2 P d) by tac
        | rewrite (@bool_decide_eq_false_2 P d) by tac ]
  end.

(** ** Vector2 *)

Section Vector2Facts.

Import Vector2.

Lemma sum_squares_nonneg (a b : R) : 0 <= a ^ 2 + b ^ 2.
Proof. nra. Qed.

Lemma length_nonneg (v : t) : 0 <= length v.
Proof. apply sqrt_pos. Qed.

Lemma length_squared (v : t) : length v * length v = x v ^ 2 + y v ^ 2.
Proof. unfold length. apply sqrt_sqrt, sum_squares_nonneg. Qed.

Lemma length_unit (v : t) : length v = 1 -> x v ^ 2 + y v ^ 2 = 1.
Proof. intros H. rewrite <- length_squared, H. lra. Qed.

Lemma length_of_unit (a b : R) : a ^ 2 + b ^ 2 = 1 -> length (mk a b) = 1.
Proof. intros H. unfold length. cbn [x y]. rewrite H. apply sqrt_1. Qed.

Lemma normalize_unit (v : t) : length v = 1 -> normalize v = v.
Proof.
  intros H. unfold normalize. rewrite H.
  decide_with lra. destruct v as [a b]. cbn [x y]. f_equal; field.
Qed.

Lemma length_neg (v : t) : length (neg v) = length v.
Proof. unfold length, neg. cbn [x y]. f_equal. ring. Qed.

Lemma length_mul (v : t) (k : R) : 0 <= k -> length (mul v k) = k * length v.
Proof.
  intros Hk. unfold length, mul. cbn [x y].
  replace ((x v * k) ^ 2 + (y v * k) ^ 2) with (k ^ 2 * (x v ^ 2 + y v ^ 2)) by ring.
  rewrite sqrt_mult by (try apply sum_squares_nonneg; nra).
  rewrite sqrt_pow2 by assumption. reflexivity.
Qed.

Lemma normalize_mul (v : t) (k : R) : 0 < k -> length v = 1 -> normalize (mul v k) = v.
Proof.
  intros Hk Hv. unfold normalize. rewrite length_mul, Hv by lra.
  decide_with lra. destruct v as [a b]. unfold mul. cbn [x y]. f_equal; field; lra.
Qed.

(** The zero vector or a unit vector. *)
Lemma normalize_length (v : t) : length (normalize v) = 0 \/ length (normalize v) = 1.
Proof.
  unfold normalize. case_bool_decide as Hl.
  - right. apply length_of_unit.
    pose proof (length_squared v) as Hs.
    replace ((x v / length v) ^ 2 + (y v / length v) ^ 2)
      with ((x v ^ 2 + y v ^ 2) / (length v * length v)) by (field; lra).
    rewrite <- Hs. field. lra.
  - left. unfold length. cbn [x y].
    replace (0 ^ 2 + 0 ^ 2) with 0 by ring. apply sqrt_0.
Qed.

Lemma normalize_squares (v : t) :
  x (normalize v) ^ 2 + y (normalize v) ^ 2 <= 1.
Proof.
  rewrite <- length_squared.
  destruct (normalize_length v) as [-> | ->]; lra.
Qed.

(** Cauchy-Schwarz for the normalised vectors the optics work with. *)
Lemma dot_normalize_bounds (u v : t) :
  -1 <= dot (normalize u) (normalize v) <= 1.
Proof.
  pose proof (normalize_squares u) as Hu.
  pose proof (normalize_squares v) as Hv.
  unfold dot.
  set (a := x (normalize u)) in *. set (b := y (normalize u)) in *.
  set (c := x (normalize v)) in *. set (d := y (normalize v)) in *.
  assert (Hcs : (a * c + b * d) ^ 2 <= (a ^ 2 + b ^ 2) * (c ^ 2 + d ^ 2)).
  { pose proof (pow2_ge_0 (a * d - b * c)). nra. }
  assert (Hle : (a * c + b * d) ^ 2 <= 1).
  { pose proof (sum_squares_nonneg a b). pose proof (sum_squares_nonneg c d). nra. }
  split; nra.
Qed.

End Vector2Facts.

(** ** Material *)


(** C10.  [get_ior] is defined on every string: a wavelength that is
    none of the six band names nor "white" yields the default 1.0. *)
Theorem get_ior_unknown_wavelength (self : Material.t) (wavelength : string) :
  (wavelength ∉ band_names) -> Material.get_ior self wavelength = 1.0.
Proof.
  unfold band_names. intros Hw.
  rewrite !not_elem_of_cons in Hw.
  destruct Hw as (? & ? & ? & ? & ? & ? & ? & _).
  unfold Material.get_ior, Material.iors.
  rewrite !lookup_insert_ne by congruence.
  rewrite lookup_empty. reflexivity.
Qed.

Lemma get_ior_unknown_wavelength_witness :
  ("infrared" ∉ band_names) /\ Material.get_ior GLASS_initial "infrared" = 1.0.
Proof.
  assert (H : "infrared" ∉ band_names) by (apply (bool_decide_unpack _); reflexivity).
  split; [exact H | exact (get_ior_unknown_wavelength GLASS_initial "infrared" H)].
Defined.

(** ** Physics *)

Section PhysicsFacts.

Import Vector2.

Lemma dot_neg_l (u v : t) : dot (neg u) v = - dot u v.
Proof. unfold dot, neg. cbn [x y]. ring. Qed.

Lemma dot_self_unit (v : t) : length v = 1 -> dot v v = 1.
Proof. intros H. apply length_unit in H. unfold dot. lra. Qed.

(** C5.  From glass (1.5) to air (1.0), beyond the critical angle, that
    is when (n1/n2)^2 (1 - cos^2 theta_i) > 1 for the normalised incident
    direction and normal, [refract] has no solution and
    [fresnel_reflectance] is exactly 1.0. *)
Theorem total_internal_reflection (inc n : t) :
  (1.5 / 1.0) ^ 2 * (1 - (- dot (normalize n) (normalize inc)) ^ 2) > 1 ->
  Physics.refract inc n 1.5 1.0 = None
  /\ Physics.fresnel_reflectance inc n 1.5 1.0 = 1.0.
Proof.
  intros Hcrit. split.
  - unfold Physics.refract.
    set (i := normalize inc) in *. set (m := normalize n) in *.
    assert (Hsq : (- dot (if bool_decide (dot m i > 0) then neg m else m) i) ^ 2
                  = (- dot m i) ^ 2).
    { case_bool_decide; [rewrite dot_neg_l; ring | reflexivity]. }
    rewrite Hsq. decide_with ltac:(exact Hcrit). reflexivity.
  - unfold Physics.fresnel_reflectance.
    decide_with ltac:(lra). decide_with ltac:(nra). reflexivity.
Qed.

Lemma total_internal_reflection_witness :
  Physics.refract (mk (4 / 5) (- 3 / 5)) (mk 0 1) 1.5 1.0 = None
  /\ Physics.fresnel_reflectance (mk (4 / 5) (- 3 / 5)) (mk 0 1) 1.5 1.0 = 1.0.
Proof.
  apply total_internal_reflection.
  rewrite !normalize_unit by (apply length_of_unit; lra).
  unfold dot. cbn [x y]. lra.
Defined.

(** Straight through: the refracted direction at normal incidence. *)
Lemma refract_straight (inc : t) (k n1 n2 : R) :
  length inc = 1 -> 0 < k ->
  Physics.refract inc (mul (neg inc) k) n1 n2 = Some inc.
Proof.
  intros Hunit Hk.
  assert (Hneg : length (neg inc) = 1) by (rewrite length_neg; exact Hunit).
  unfold Physics.refract.
  rewrite (normalize_unit inc Hunit), (normalize_mul (neg inc) k Hk Hneg).
  assert (Hd : dot (neg inc) inc = -1)
    by (rewrite dot_neg_l, (dot_self_unit inc Hunit); reflexivity).
  decide_with ltac:(rewrite Hd; lra).
  rewrite !Hd.
  replace (- - 1) with 1 by ring.
  replace ((n1 / n2) ^ 2 * (1 - 1 ^ 2)) with 0 by ring.
  decide_with ltac:(lra).
  replace (1 - 0) with 1 by ring. rewrite sqrt_1.
  f_equal.
  replace (add (mul inc (n1 / n2)) (mul (neg inc) (n1 / n2 * 1 - 1))) with inc.
  - apply normalize_unit, Hunit.
  - destruct inc as [a b]. unfold add, mul, neg. cbn [x y]. f_equal; ring.
Qed.

(** C8.  At normal incidence (unit incident direction, normal exactly
    anti-parallel to it, of any length) [refract] returns the incident
    direction unchanged, whatever the positive indices. *)
Theorem refract_normal_incidence (inc : t) (k n1 n2 : R) :
  length inc = 1 -> 0 < k -> 0 < n1 -> 0 < n2 ->
  Physics.refract inc (mul (neg inc) k) n1 n2 = Some inc.
Proof.
  intros Hunit Hk _ _. apply refract_straight; assumption.
Qed.

Lemma refract_normal_incidence_witness :
  Physics.refract (mk (3 / 5) (4 / 5)) (mul (neg (mk (3 / 5) (4 / 5))) 2) 1.0 1.5
  = Some (mk (3 / 5) (4 / 5)).
Proof.
  apply refract_normal_incidence; try lra.
  apply length_of_unit. lra.
Defined.

End PhysicsFacts.

(** ** Sensor *)

Section SensorFacts.

(** One turn of the loop of [check_hit]. *)
Lemma check_segments_step (self : Sensor.t) (a b : R * R) (rest : list (R * R)) :
  Sensor.check_segments self (a :: b :: rest)
  = let p1 := Vector2.mk (fst a) (snd a) in
    let p2 := Vector2.mk (fst b) (snd b) in
    let line := Vector2.sub p2 p1 in
    let len_sq := Vector2.dot line line in
    if bool_decide (len_sq < 0.0001) then Sensor.check_segments self (b :: rest)
    else
      let t := Rmax 0 (Rmin 1 (Vector2.dot (Vector2.sub (Sensor.pos self) p1) line
                               / len_sq)) in
      let closest := Vector2.add p1 (Vector2.mul line t) in
      if bool_decide (Vector2.length (Vector2.sub (Sensor.pos self) closest)
                      < Sensor.radius self)
      then true
      else Sensor.check_segments self (b :: rest).
Proof. reflexivity. Qed.

Lemma check_segments_same_target (s s' : Sensor.t) (path : list (R * R)) :
  same_target s s' -> Sensor.check_segments s path = Sensor.check_segments s' path.
Proof.
  intros (Hp & Hr & _).
  induction path as [| a rest IH]; [reflexivity |].
  destruct rest as [| b rest]; [reflexivity |].
  rewrite !check_segments_step. cbv zeta. rewrite Hp, Hr, IH. reflexivity.
Qed.

Lemma eligible_same_target (s s' : Sensor.t) (ray : Ray.t) :
  same_target s s' -> Sensor.eligible s ray = Sensor.eligible s' ray.
Proof.
  intros Hs. pose proof Hs as (Hp & Hr & Hc & Ht & Hw).
  unfold Sensor.eligible, Sensor.check_hit, Sensor.color_match, Sensor.channel_ok.
  rewrite (check_segments_same_target s s' _ Hs), Hc, Ht, Hw. reflexivity.
Qed.

Lemma check_hit_floor (self : Sensor.t) (ray : Ray.t) :
  Sensor.check_hit self ray = true -> Ray.intensity ray >= 0.2.
Proof.
  unfold Sensor.check_hit. intros H.
  destruct (bool_decide (Ray.intensity ray < 0.2)) eqn:Hi.
  - rewrite orb_true_r in H. discriminate.
  - apply bool_decide_eq_false in Hi. lra.
Qed.

Lemma check_hit_ignores_distance (self : Sensor.t) (ray : Ray.t) (d : R) :
  Sensor.check_hit self (Ray.set_distance_traveled d ray) = Sensor.check_hit self ray.
Proof. reflexivity. Qed.

(** The loop of [update] leaves the target alone and raises [active] as
    soon as one ray passes the filter. *)
Lemma update_loop (self : Sensor.t) (rays : list Ray.t) (s : Sensor.t) :
  same_target self s ->
  let s' := fold_left
              (fun s ray =>
                 if Sensor.eligible s ray
                 then Sensor.mk (Sensor.pos s) (Sensor.radius s) (Sensor.color s)
                                (Sensor.tol s) true (Sensor.was_active s)
                                (Sensor.is_white s)
                 else s) rays s in
  same_target self s'
  /\ Sensor.was_active s' = Sensor.was_active s
  /\ Sensor.active s' = Sensor.active s || existsb (Sensor.eligible self) rays.
Proof.
  revert s. induction rays as [| ray rays IH]; intros s Hs; cbn [fold_left existsb].
  - rewrite orb_false_r. auto.
  - rewrite <- (eligible_same_target self s ray Hs).
    destruct (Sensor.eligible self ray) eqn:He.
    + edestruct IH as (Ht & Hw & Ha); [| split; [exact Ht | split; [exact Hw |]]].
      * destruct Hs as (? & ? & ? & ? & ?). repeat split; assumption.
      * rewrite Ha. cbn [Sensor.active]. rewrite orb_true_r. reflexivity.
    + apply IH, Hs.
Qed.

Lemma update_active (self : Sensor.t) (rays : list Ray.t) :
  Sensor.active (fst (Sensor.update self rays)) = existsb (Sensor.eligible self) rays
  /\ snd (Sensor.update self rays)
     = existsb (Sensor.eligible self) rays && negb (Sensor.active self).
Proof.
  unfold Sensor.update. cbn [fst snd].
  match goal with
  | |- Sensor.active (fold_left _ rays ?s0) = _ /\ _ =>
      destruct (update_loop self rays s0) as (_ & Hw & Ha); [repeat split |]
  end.
  rewrite Ha, Hw. auto.
Qed.

Lemma check_hit_probe : Sensor.check_hit probe spent_ray = true.
Proof.
  unfold Sensor.check_hit, spent_ray, probe, Sensor.init.
  cbn [Ray.path Ray.intensity List.length].
  decide_with ltac:(lia). decide_with ltac:(lra).
  cbn [orb]. rewrite check_segments_step. cbv zeta.
  cbn [fst snd Sensor.pos Sensor.radius].
  unfold Vector2.sub, Vector2.dot, Vector2.add, Vector2.mul, Vector2.length, SENSOR_RADIUS.
  cbn [Vector2.x Vector2.y].
  decide_with ltac:(lra).
  replace (((600 - 100) * (1100 - 100) + (360 - 360) * (360 - 360))
           / ((1100 - 100) * (1100 - 100) + (360 - 360) * (360 - 360)))
    with (1 / 2) by lra.
  rewrite (Rmin_right 1 (1 / 2)) by lra.
  rewrite (Rmax_right 0 (1 / 2)) by lra.
  replace ((600 - (100 + (1100 - 100) * (1 / 2))) ^ 2
           + (360 - (360 + (360 - 360) * (1 / 2))) ^ 2)
    with 0 by lra.
  rewrite sqrt_0. decide_with ltac:(lra). reflexivity.
Qed.

Lemma color_match_probe : Sensor.color_match probe spent_ray = true.
Proof. reflexivity. Qed.

Lemma spent_ray_attenuation :
  Game.get_intensity_at_distance (Ray.distance_traveled spent_ray) = 0.
Proof.
  unfold Game.get_intensity_at_distance, spent_ray, MAX_RAY_DISTANCE.
  cbn [Ray.distance_traveled]. rewrite Rmax_left by lra. lra.
Qed.

(** C1, as stated, fails: the ray [spent_ray] has travelled exactly the
    maximum distance, so its attenuation-based intensity is 0, and yet
    [check_hit] admits it and [update] activates the sensor. *)
Lemma eligible_probe : Sensor.eligible probe spent_ray = true.
Proof.
  unfold Sensor.eligible. rewrite check_hit_probe, color_match_probe.
  unfold spent_ray. cbn [Ray.intensity]. decide_with ltac:(lra). reflexivity.
Qed.

Lemma sensor_admits_spent_ray :
  Ray.distance_traveled spent_ray = MAX_RAY_DISTANCE
  /\ ~ Game.get_intensity_at_distance (Ray.distance_traveled spent_ray) >= 0.2
  /\ Sensor.check_hit probe spent_ray = true
  /\ Sensor.active (fst (Sensor.update probe [spent_ray])) = true
  /\ snd (Sensor.update probe [spent_ray]) = true.
Proof.
  split; [reflexivity |]. split; [rewrite spent_ray_attenuation; lra |].
  split; [exact check_hit_probe |].
  destruct (update_active probe [spent_ray]) as [-> ->].
  cbn [existsb]. rewrite eligible_probe. split; reflexivity.
Qed.

(** C1, amended.  The floor of the sensor tests is on the stored
    [intensity] field: [check_hit] admits a ray only if that field is at
    least 0.2, never reads [distance_traveled], and [update] activates the
    sensor only on a ray of its list that passes [check_hit] and
    [color_match] with stored intensity at least 0.2. *)
Theorem sensor_floor_is_stored_intensity (self : Sensor.t) :
  (forall ray, Sensor.check_hit self ray = true -> Ray.intensity ray >= 0.2)
  /\ (forall ray d,
        Sensor.check_hit self (Ray.set_distance_traveled d ray)
        = Sensor.check_hit self ray)
  /\ (forall rays,
        Sensor.active (fst (Sensor.update self rays)) = true ->
        exists ray, ray ∈ rays
                    /\ Ray.intensity ray >= 0.2
                    /\ Sensor.check_hit self ray = true
                    /\ Sensor.color_match self ray = true).
Proof.
  split; [exact (check_hit_floor self) |].
  split; [exact (check_hit_ignores_distance self) |].
  intros rays Ha. rewrite (proj1 (update_active self rays)) in Ha.
  apply existsb_exists in Ha as (ray & Hin & He).
  exists ray. unfold Sensor.eligible in He.
  apply andb_prop in He as [He Hc]. apply andb_prop in He as [Hi Hh].
  apply bool_decide_eq_true in Hi.
  split; [apply list_elem_of_In; exact Hin | auto].
Qed.

Lemma sensor_floor_is_stored_intensity_witness :
  Ray.intensity spent_ray >= 0.2.
Proof.
  exact (proj1 (sensor_floor_is_stored_intensity probe) spent_ray check_hit_probe).
Defined.

End SensorFacts.

(** ** Fresnel reflectance and the refractive indices *)

Section FresnelFacts.

Import Vector2.

Lemma get_ior_positive (m : Material.t) (wavelength : string) :
  positive_indices m -> 0 < Material.get_ior m wavelength.
Proof.
  intros (? & ? & ? & ? & ? & ?).
  unfold Material.get_ior, Material.iors.
  repeat (rewrite lookup_insert; case_decide;
          [cbn [from_option]; unfold Datatypes.id; lra |]).
  rewrite lookup_empty. cbn [from_option]. lra.
Qed.

Lemma AIR_positive : positive_indices AIR.
Proof. unfold positive_indices, AIR. cbn. repeat split; lra. Qed.

Lemma GLASS_initial_positive : positive_indices GLASS_initial.
Proof. unfold positive_indices, GLASS_initial. cbn. repeat split; lra. Qed.

Lemma pow5_nonneg (a : R) : 0 <= a -> 0 <= a ^ 5.
Proof. intros Ha. apply pow_le, Ha. Qed.

Lemma pow5_le_1 (a : R) : 0 <= a <= 1 -> a ^ 5 <= 1.
Proof.
  intros Ha. rewrite <- (pow1 5). apply pow_incr. exact Ha.
Qed.

(** Schlick's base reflectance for positive indices. *)
Lemma r0_bounds (n1 n2 : R) :
  0 < n1 -> 0 < n2 -> 0 <= ((n1 - n2) / (n1 + n2)) ^ 2 <= 1.
Proof.
  intros H1 H2. set (q := (n1 - n2) / (n1 + n2)).
  assert (Hq : -1 <= q <= 1).
  { unfold q. split.
    - apply Rmult_le_reg_r with (n1 + n2); [lra |].
      unfold Rdiv. rewrite Rmult_assoc, Rinv_l by lra. lra.
    - apply Rmult_le_reg_r with (n1 + n2); [lra |].
      unfold Rdiv. rewrite Rmult_assoc, Rinv_l by lra. lra. }
  split; nra.
Qed.

Lemma fresnel_reflectance_nonneg (incident normal : t) (n1 n2 : R) :
  0 < n1 -> 0 < n2 -> 0 <= Physics.fresnel_reflectance incident normal n1 n2.
Proof.
  intros H1 H2. unfold Physics.fresnel_reflectance.
  pose proof (r0_bounds n1 n2 H1 H2) as Hr0.
  pose proof (dot_normalize_bounds normal incident) as Hd.
  set (c := - dot (normalize normal) (normalize incident)) in *.
  assert (Hp : 0 <= (1 - c) ^ 5) by (apply pow5_nonneg; unfold c; lra).
  assert (Hs : 0 <= ((n1 - n2) / (n1 + n2)) ^ 2
                    + (1 - ((n1 - n2) / (n1 + n2)) ^ 2) * (1 - c) ^ 5) by nra.
  repeat case_bool_decide; lra.
Qed.

(** The sign of a dot product survives normalisation. *)
Lemma dot_normalize_sign (u v : t) :
  dot u v <= 0 -> dot (normalize u) (normalize v) <= 0.
Proof.
  intros Huv. unfold normalize.
  pose proof (length_nonneg u). pose proof (length_nonneg v).
  repeat case_bool_decide; unfold dot in *; cbn [x y]; try lra.
  replace (x u / length u * (x v / length v) + y u / length u * (y v / length v))
    with ((x u * x v + y u * y v) * / (length u * length v)) by (field; lra).
  assert (0 < / (length u * length v)) by (apply Rinv_0_lt_compat; nra).
  nra.
Qed.

Lemma fresnel_reflectance_le_1 (incident normal : t) (n1 n2 : R) :
  0 < n1 -> 0 < n2 -> dot normal incident <= 0 ->
  Physics.fresnel_reflectance incident normal n1 n2 <= 1.
Proof.
  intros H1 H2 Hopp. unfold Physics.fresnel_reflectance.
  pose proof (r0_bounds n1 n2 H1 H2) as Hr0.
  pose proof (dot_normalize_bounds normal incident) as Hd.
  pose proof (dot_normalize_sign normal incident Hopp) as Hs.
  set (c := - dot (normalize normal) (normalize incident)) in *.
  assert (Hp : 0 <= (1 - c) ^ 5 <= 1).
  { split; [apply pow5_nonneg | apply pow5_le_1]; unfold c; lra. }
  assert (Hb : ((n1 - n2) / (n1 + n2)) ^ 2
               + (1 - ((n1 - n2) / (n1 + n2)) ^ 2) * (1 - c) ^ 5 <= 1) by nra.
  repeat case_bool_decide; lra.
Qed.

End FresnelFacts.

(** ** The tracer: what one loop iteration guarantees *)

Section StepFacts.

Variable GLASS : Material.t.
Variable items : list Item.t.

Lemma spawn_total_mono (rec : Ray.t -> option Game.result) (b b' : Z) :
  (b <= b')%Z -> spawn_total rec b -> spawn_total rec b'.
Proof. intros Hb Hrec r Hr. apply Hrec. lia. Qed.

Lemma dims_refl (ray : Ray.t) : dims GLASS ray ray.
Proof. intros _ Hi. lra. Qed.

Lemma dims_trans (r1 r2 r3 : Ray.t) :
  dims GLASS r1 r2 -> dims GLASS r2 r3 -> dims GLASS r1 r3.
Proof.
  intros H12 H23 Hg Hi. specialize (H12 Hg Hi). specialize (H23 Hg (proj1 H12)). lra.
Qed.

Lemma dims_same_intensity (ray ray' : Ray.t) :
  Ray.intensity ray' = Ray.intensity ray -> dims GLASS ray ray'.
Proof. intros He _ Hi. rewrite He. lra. Qed.

(** Multiplying by a transmission factor [T = 1 - R] that passed the
    [T > 0.01] test. *)
Lemma dims_transmitted (ray ray' : Ray.t) (incident normal : Vector2.t) (n1 n2 : R) :
  (positive_indices GLASS -> 0 < n1 /\ 0 < n2) ->
  1.0 - Physics.fresnel_reflectance incident normal n1 n2 > 0.01 ->
  Ray.intensity ray'
  = Ray.intensity ray * (1.0 - Physics.fresnel_reflectance incident normal n1 n2) ->
  dims GLASS ray ray'.
Proof.
  intros Hn HT He Hg Hi. destruct (Hn Hg) as [H1 H2].
  pose proof (fresnel_reflectance_nonneg incident normal n1 n2 H1 H2).
  rewrite He. split; nra.
Qed.

Lemma deref_positive (m : MaterialRef) (wavelength : string) :
  positive_indices GLASS -> 0 < Material.get_ior (deref GLASS m) wavelength.
Proof.
  intros Hg. apply get_ior_positive. destruct m; [apply AIR_positive | exact Hg].
Qed.

Lemma step_spec_done (ray ray' : Ray.t) (fl : Game.flow) (new : list Ray.t) :
  (Ray.bounces ray <= Ray.bounces ray')%Z -> dims GLASS ray ray' ->
  step_spec GLASS ray (Some (fl, ray', new)).
Proof. intros Hb Hd. exists fl, ray', new. auto. Qed.

Lemma spawn_color_total (rec : Ray.t -> option Game.result) (b : Z) (r : Ray.t) :
  spawn_total rec b -> (b < Ray.bounces r)%Z -> is_Some (Game.spawn_color rec r).
Proof.
  intros Hrec Hb. destruct (Hrec r Hb) as [[r' out] Hr].
  unfold Game.spawn_color. rewrite Hr. eexists. reflexivity.
Qed.

Lemma reflected_ray_bounces (ray : Ray.t) (h : Game.Hit) (c : Color) (w : string)
    (white : bool) (Rf : R) :
  Ray.bounces (Game.reflected_ray ray h c w white Rf) = (Ray.bounces ray + 1)%Z.
Proof. reflexivity. Qed.

Lemma color_boundary_spec (rec : Ray.t -> option Game.result) (ray : Ray.t)
    (h : Game.Hit) (entering : bool) (n1 n2 : R) :
  spawn_total rec (Ray.bounces ray) ->
  (positive_indices GLASS -> 0 < n1 /\ 0 < n2) ->
  step_spec GLASS ray (Game.color_boundary GLASS rec ray h entering n1 n2).
Proof.
  intros Hrec Hn. unfold Game.color_boundary.
  set (Rf := Physics.fresnel_reflectance (Ray.direction ray) (Game.best_n h) n1 n2).
  assert (Hsp : is_Some
                  (if bool_decide (Rf > 0.01)
                   then Game.spawn_color rec
                          (Game.reflected_ray ray h (Ray.color ray) (Ray.wavelength ray)
                                              false Rf)
                   else Some [])).
  { case_bool_decide; [| eexists; reflexivity].
    apply (spawn_color_total rec (Ray.bounces ray)); [exact Hrec |].
    rewrite reflected_ray_bounces. lia. }
  destruct Hsp as [spawned ->]. cbn [mbind option_bind].
  case_bool_decide as HT.
  - destruct (Physics.refract _ _ n1 n2) as [new_dir |].
    + apply step_spec_done; [cbn; lia |].
      apply (dims_transmitted _ _ (Ray.direction ray) (Game.best_n h) n1 n2 Hn HT).
      reflexivity.
    + apply step_spec_done; [cbn; lia | apply dims_same_intensity; reflexivity].
  - apply step_spec_done; [cbn; lia | apply dims_same_intensity; reflexivity].
Qed.

(** Moving the ray to the hit point changes neither field of interest. *)
Lemma step_spec_advance (ray : Ray.t) (h : Game.Hit)
    (res : option (Game.flow * Ray.t * list Ray.t)) :
  step_spec GLASS (Game.advance_to_hit ray h) res -> step_spec GLASS ray res.
Proof. intros H. exact H. Qed.

Lemma head_passed (ray : Ray.t) :
  negb (Ray.active ray) || bool_decide (Ray.bounces ray >= 10)%Z = false ->
  Ray.active ray = true /\ (Ray.bounces ray < 10)%Z.
Proof.
  intros H. apply orb_false_elim in H as [Ha Hb].
  apply negb_false_iff in Ha. apply bool_decide_eq_false in Hb. split; [exact Ha | lia].
Qed.

Lemma trace_color_body_spec (rec : Ray.t -> option Game.result) (guard : R)
    (ray : Ray.t) :
  ((Ray.bounces ray < 10)%Z -> spawn_total rec (Ray.bounces ray)) ->
  step_spec GLASS ray (Game.trace_color_body GLASS items rec guard ray).
Proof.
  intros Hrec. unfold Game.trace_color_body.
  destruct (negb (Ray.active ray) || bool_decide (Ray.bounces ray >= 10)%Z) eqn:Hhead.
  { apply step_spec_done; [lia | apply dims_refl]. }
  apply head_passed in Hhead as [_ Hb]. specialize (Hrec Hb).
  case_bool_decide.
  { apply step_spec_done; [cbn; lia | apply dims_same_intensity; reflexivity]. }
  destruct (Game.nearest_hit items guard ray) as [h |].
  - cbv zeta. destruct (Game.is_mirror (Game.best_item h)).
    { apply step_spec_done; [cbn; lia | apply dims_same_intensity; reflexivity]. }
    destruct (Game.is_polygon (Game.best_item h)).
    + apply (step_spec_advance ray h), color_boundary_spec; [exact Hrec |].
      intros Hg. split; [apply deref_positive, Hg |].
      destruct (Game.entering_at h); apply get_ior_positive;
        [exact Hg | apply AIR_positive].
    + repeat case_match; simplify_eq;
        (apply (step_spec_advance ray h), color_boundary_spec; [exact Hrec |]);
        intros Hg; split; apply get_ior_positive;
        first [exact Hg | apply AIR_positive].
  - apply step_spec_done; [| apply dims_same_intensity].
    + unfold Game.no_hit. repeat case_bool_decide; cbn; lia.
    + unfold Game.no_hit. repeat case_bool_decide; reflexivity.
Qed.

Lemma trace_color_loop_spec (rec : Ray.t -> option Game.result) (guard : R) (k : nat) :
  forall (ray : Ray.t) (out : list Ray.t),
    ((Ray.bounces ray < 10)%Z -> spawn_total rec (Ray.bounces ray)) ->
    exists ray' out',
      Game.trace_color_loop GLASS items rec guard k ray out = Some (ray', out')
      /\ (Ray.bounces ray <= Ray.bounces ray')%Z
      /\ dims GLASS ray ray'.
Proof.
  induction k as [| k IH]; intros ray out Hrec; cbn [Game.trace_color_loop].
  - exists ray, out. split; [reflexivity | split; [lia | apply dims_refl]].
  - destruct (trace_color_body_spec rec guard ray Hrec)
      as (fl & ray1 & new & -> & Hb & Hd).
    cbn [mbind option_bind]. destruct fl.
    + destruct (IH ray1 (out ++ new)) as (ray' & out' & He & Hb' & Hd').
      { intros Hlt. apply (spawn_total_mono rec (Ray.bounces ray)); [lia |].
        apply Hrec. lia. }
      exists ray', out'. split; [exact He | split; [lia |]].
      apply (dims_trans ray ray1 ray'); assumption.
    + exists ray1, (out ++ new). auto.
Qed.

Lemma trace_color_depth_spec (guard : R) (depth : nat) :
  forall ray : Ray.t,
    (headroom ray < depth)%nat ->
    exists ray' out,
      Game.trace_color_depth GLASS items guard depth ray = Some (ray', out)
      /\ (Ray.bounces ray <= Ray.bounces ray')%Z
      /\ dims GLASS ray ray'.
Proof.
  induction depth as [| depth IH]; intros ray Hd; [lia |].
  cbn [Game.trace_color_depth].
  apply trace_color_loop_spec.
  intros Hb r Hr.
  destruct (IH r) as (r' & out & He & _).
  - unfold headroom in *. lia.
  - rewrite He. eexists. reflexivity.
Qed.

(** *** The same for [trace] *)

Lemma spawn_trace_total (rec : Ray.t -> option Game.result) (b : Z) (r : Ray.t) :
  spawn_total rec b -> (b < Ray.bounces r)%Z -> is_Some (Game.spawn_trace rec r).
Proof.
  intros Hrec Hb. destruct (Hrec r Hb) as [[r' out] Hr].
  unfold Game.spawn_trace. rewrite Hr. eexists. reflexivity.
Qed.

Lemma spectral_split_total (rec : Ray.t -> option Game.result)
    (bands : list (string * Color * R)) (ray : Ray.t) (h : Game.Hit) (T : R) :
  spawn_total rec (Ray.bounces ray) ->
  is_Some (Game.spectral_split GLASS rec bands ray h T).
Proof.
  intros Hrec. induction bands as [| [[cname ccol] ior] bands IH];
    cbn [Game.spectral_split]; [eexists; reflexivity |].
  destruct IH as [more ->].
  destruct (Physics.refract _ _ _ _) as [new_dir |].
  - destruct (Hrec (Game.dispersed_ray ray h new_dir ccol cname T)) as [[r out] ->];
      [cbn; lia |].
    eexists. reflexivity.
  - eexists. reflexivity.
Qed.

Lemma trace_polygon_spec (trace_rec color_rec : Ray.t -> option Game.result)
    (ray : Ray.t) (h : Game.Hit) :
  spawn_total trace_rec (Ray.bounces ray) ->
  spawn_total color_rec (Ray.bounces ray) ->
  step_spec GLASS ray (Game.trace_polygon GLASS trace_rec color_rec ray h).
Proof.
  intros Ht Hc. unfold Game.trace_polygon.
  set (n := if Ray.is_white ray then _ else _).
  assert (Hn : positive_indices GLASS -> 0 < fst n /\ 0 < snd n).
  { intros Hg. unfold n.
    destruct (Ray.is_white ray); cbn [fst snd];
      (split; [apply deref_positive, Hg |]); [apply get_ior_positive, Hg |].
    destruct (Game.entering_at h); apply get_ior_positive;
      [exact Hg | apply AIR_positive]. }
  destruct n as [n1 n2]. cbn [fst snd] in Hn.
  set (Rf := Physics.fresnel_reflectance (Ray.direction ray) (Game.best_n h) n1 n2).
  assert (Hsp : is_Some
                  (if bool_decide (Rf > 0.01) && bool_decide (Ray.intensity ray * Rf > 0.01)
                   then Game.spawn_trace trace_rec
                          (Game.reflected_ray ray h (Ray.color ray) (Ray.wavelength ray)
                                              (Ray.is_white ray) Rf)
                   else Some [])).
  { destruct (_ && _); [| eexists; reflexivity].
    apply (spawn_trace_total trace_rec (Ray.bounces ray)); [exact Ht |].
    rewrite reflected_ray_bounces. lia. }
  destruct Hsp as [spawned ->]. cbn [mbind option_bind].
  destruct (bool_decide (1.0 - Rf > 0.01)) eqn:HT; cbn [andb];
    [| apply step_spec_done; [cbn; lia | apply dims_same_intensity; reflexivity]].
  apply bool_decide_eq_true in HT.
  case_bool_decide;
    [| apply step_spec_done; [cbn; lia | apply dims_same_intensity; reflexivity]].
  destruct (Ray.is_white ray && Game.entering_at h).
  - destruct (spectral_split_total color_rec SPECTRUM (Ray.set_active false ray) h
                                   (1.0 - Rf) Hc) as [split ->].
    cbn [mbind option_bind].
    apply step_spec_done; [cbn; lia | apply dims_same_intensity; reflexivity].
  - destruct (Physics.refract _ _ n1 n2) as [new_dir |].
    + apply step_spec_done; [cbn; lia |].
      apply (dims_transmitted _ _ (Ray.direction ray) (Game.best_n h) n1 n2 Hn HT).
      reflexivity.
    + apply step_spec_done; [cbn; lia | apply dims_same_intensity; reflexivity].
Qed.

Lemma trace_lens_spec (trace_rec color_rec : Ray.t -> option Game.result)
    (ray : Ray.t) (h : Game.Hit) :
  spawn_total trace_rec (Ray.bounces ray) ->
  spawn_total color_rec (Ray.bounces ray) ->
  step_spec GLASS ray (Game.trace_lens GLASS trace_rec color_rec ray h).
Proof.
  intros Ht Hc. unfold Game.trace_lens.
  destruct (Ray.is_white ray && Game.entering_at h).
  - set (Rf := Physics.fresnel_reflectance _ _ _ _).
    assert (Hsp : is_Some
                    (if bool_decide (Rf > 0.01)
                     then Game.spawn_trace trace_rec
                            (Game.reflected_ray ray h WHITE "white" true Rf)
                     else Some [])).
    { case_bool_decide; [| eexists; reflexivity].
      apply (spawn_trace_total trace_rec (Ray.bounces ray)); [exact Ht |].
      rewrite reflected_ray_bounces. lia. }
    destruct Hsp as [spawned ->]. cbn [mbind option_bind].
    case_bool_decide.
    + destruct (spectral_split_total color_rec SPECTRUM (Ray.set_active false ray) h
                                     (1.0 - Rf) Hc) as [split ->].
      cbn [mbind option_bind].
      apply step_spec_done; [cbn; lia | apply dims_same_intensity; reflexivity].
    + apply step_spec_done; [lia | apply dims_refl].
  - set (c := if bool_decide (deref GLASS (Ray.material ray) = GLASS)
                 && negb (Game.entering_at h) then _ else _).
    assert (Hcs : (positive_indices GLASS -> 0 < fst (fst c) /\ 0 < snd (fst c))
                  /\ Ray.bounces (snd c) = Ray.bounces ray
                  /\ Ray.intensity (snd c) = Ray.intensity ray).
    { unfold c. repeat case_match; cbn [fst snd];
        (split; [| split; reflexivity]);
        intros Hg; split; apply get_ior_positive;
        first [exact Hg | apply AIR_positive]. }
    destruct c as [[n1 n2] ray1]. cbn [fst snd] in Hcs.
    destruct Hcs as (Hn & Hb1 & Hi1).
    set (Rf := Physics.fresnel_reflectance (Ray.direction ray1) (Game.best_n h) n1 n2).
    assert (Hsp : is_Some
                    (if bool_decide (Rf > 0.01)
                     then Game.spawn_color color_rec
                            (Game.reflected_ray ray1 h (Ray.color ray1)
                                                (Ray.wavelength ray1) false Rf)
                     else Some [])).
    { case_bool_decide; [| eexists; reflexivity].
      apply (spawn_color_total color_rec (Ray.bounces ray)); [exact Hc |].
      rewrite reflected_ray_bounces. lia. }
    destruct Hsp as [spawned ->]. cbn [mbind option_bind].
    case_bool_decide as HT.
    + destruct (Physics.refract _ _ n1 n2) as [new_dir |].
      * apply step_spec_done; [cbn; lia |].
        apply (dims_trans ray ray1); [apply dims_same_intensity; exact Hi1 |].
        apply (dims_transmitted _ _ (Ray.direction ray1) (Game.best_n h) n1 n2 Hn HT).
        reflexivity.
      * apply step_spec_done; [cbn; lia | apply dims_same_intensity; exact Hi1].
    + apply step_spec_done; [cbn; lia | apply dims_same_intensity; exact Hi1].
Qed.

Lemma trace_body_spec (trace_rec color_rec : Ray.t -> option Game.result) (guard : R)
    (ray : Ray.t) :
  ((Ray.bounces ray < 10)%Z ->
   spawn_total trace_rec (Ray.bounces ray) /\ spawn_total color_rec (Ray.bounces ray)) ->
  step_spec GLASS ray (Game.trace_body GLASS items trace_rec color_rec guard ray).
Proof.
  intros Hrec. unfold Game.trace_body.
  destruct (negb (Ray.active ray) || bool_decide (Ray.bounces ray >= 10)%Z) eqn:Hhead.
  { apply step_spec_done; [lia | apply dims_refl]. }
  apply head_passed in Hhead as [_ Hb]. destruct (Hrec Hb) as [Ht Hc].
  case_bool_decide.
  { apply step_spec_done; [cbn; lia | apply dims_same_intensity; reflexivity]. }
  destruct (Game.nearest_hit items guard ray) as [h |].
  - cbv zeta. case_bool_decide.
    { apply step_spec_done; [cbn; lia | apply dims_same_intensity; reflexivity]. }
    destruct (Game.is_mirror (Game.best_item h)).
    { apply step_spec_done; [cbn; lia | apply dims_same_intensity; reflexivity]. }
    destruct (Game.is_polygon (Game.best_item h)).
    + apply (step_spec_advance ray h), trace_polygon_spec; assumption.
    + apply (step_spec_advance ray h), trace_lens_spec; assumption.
  - apply step_spec_done; [| apply dims_same_intensity].
    + unfold Game.no_hit. repeat case_bool_decide; cbn; lia.
    + unfold Game.no_hit. repeat case_bool_decide; reflexivity.
Qed.

Lemma trace_loop_spec (trace_rec color_rec : Ray.t -> option Game.result) (guard : R)
    (k : nat) :
  forall (ray : Ray.t) (out : list Ray.t),
    ((Ray.bounces ray < 10)%Z ->
     spawn_total trace_rec (Ray.bounces ray) /\ spawn_total color_rec (Ray.bounces ray)) ->
    exists ray' out',
      Game.trace_loop GLASS items trace_rec color_rec guard k ray out = Some (ray', out')
      /\ (Ray.bounces ray <= Ray.bounces ray')%Z
      /\ dims GLASS ray ray'.
Proof.
  induction k as [| k IH]; intros ray out Hrec; cbn [Game.trace_loop].
  - exists ray, out. split; [reflexivity | split; [lia | apply dims_refl]].
  - destruct (trace_body_spec trace_rec color_rec guard ray Hrec)
      as (fl & ray1 & new & -> & Hb & Hd).
    cbn [mbind option_bind]. destruct fl.
    + destruct (IH ray1 (out ++ new)) as (ray' & out' & He & Hb' & Hd').
      { intros Hlt. destruct Hrec as [Ht Hc]; [lia |].
        split; apply (spawn_total_mono _ (Ray.bounces ray)); assumption. }
      exists ray', out'. split; [exact He | split; [lia |]].
      apply (dims_trans ray ray1 ray'); assumption.
    + exists ray1, (out ++ new). auto.
Qed.

Lemma trace_depth_spec (guard guard_color : R) (depth : nat) :
  forall ray : Ray.t,
    (headroom ray < depth)%nat ->
    exists ray' out,
      Game.trace_depth GLASS items guard guard_color depth ray = Some (ray', out)
      /\ (Ray.bounces ray <= Ray.bounces ray')%Z
      /\ dims GLASS ray ray'.
Proof.
  induction depth as [| depth IH]; intros ray Hd; [lia |].
  cbn [Game.trace_depth].
  apply trace_loop_spec.
  intros Hb. split; intros r Hr.
  - destruct (IH r) as (r' & out & He & _).
    + unfold headroom in *. lia.
    + rewrite He. eexists. reflexivity.
  - destruct (trace_color_depth_spec guard_color depth r) as (r' & out & He & _).
    + unfold headroom in *. lia.
    + rewrite He. eexists. reflexivity.
Qed.

End StepFacts.

(** ** Unfolding the routines one step *)

Section Unfolding.

Variable GLASS : Material.t.
Variable items : list Item.t.

Lemma trace_color_depth_step (g : R) (depth : nat) (ray : Ray.t) :
  Game.trace_color_depth GLASS items g (S depth) ray
  = Game.trace_color_loop GLASS items (Game.trace_color_depth GLASS items g depth)
                          g (S 9) ray [].
Proof. reflexivity. Qed.

Lemma trace_color_loop_step (rec : Ray.t -> option Game.result) (g : R) (k : nat)
    (ray : Ray.t) (out : list Ray.t) :
  Game.trace_color_loop GLASS items rec g (S k) ray out
  = '(fl, ray, new) ← Game.trace_color_body GLASS items rec g ray;
    match fl with
    | Game.Leave => Some (ray, out ++ new)
    | Game.Next => Game.trace_color_loop GLASS items rec g k ray (out ++ new)
    end.
Proof. reflexivity. Qed.

Lemma trace_depth_step (g gc : R) (depth : nat) (ray : Ray.t) :
  Game.trace_depth GLASS items g gc (S depth) ray
  = Game.trace_loop GLASS items (Game.trace_depth GLASS items g gc depth)
                    (Game.trace_color_depth GLASS items gc depth) g (S 19) ray [].
Proof. reflexivity. Qed.

Lemma trace_loop_step (rec1 rec2 : Ray.t -> option Game.result) (g : R) (k : nat)
    (ray : Ray.t) (out : list Ray.t) :
  Game.trace_loop GLASS items rec1 rec2 g (S k) ray out
  = '(fl, ray, new) ← Game.trace_body GLASS items rec1 rec2 g ray;
    match fl with
    | Game.Leave => Some (ray, out ++ new)
    | Game.Next => Game.trace_loop GLASS items rec1 rec2 g k ray (out ++ new)
    end.
Proof. reflexivity. Qed.

End Unfolding.

(** ** The depth bound does not show in the results *)

Section DepthStability.

Variable GLASS : Material.t.
Variable items : list Item.t.

Lemma agree_above_mono (rec rec' : Ray.t -> option Game.result) (b b' : Z) :
  (b <= b')%Z -> agree_above rec rec' b -> agree_above rec rec' b'.
Proof. intros Hb H r Hr. apply H. lia. Qed.

Lemma color_boundary_ext (rec rec' : Ray.t -> option Game.result) (ray : Ray.t)
    (h : Game.Hit) (entering : bool) (n1 n2 : R) :
  agree_above rec rec' (Ray.bounces ray) ->
  Game.color_boundary GLASS rec ray h entering n1 n2
  = Game.color_boundary GLASS rec' ray h entering n1 n2.
Proof.
  intros H. unfold Game.color_boundary, Game.spawn_color.
  rewrite H by (rewrite reflected_ray_bounces; lia). reflexivity.
Qed.

Lemma trace_color_body_ext (rec rec' : Ray.t -> option Game.result) (g : R)
    (ray : Ray.t) :
  ((Ray.bounces ray < 10)%Z -> agree_above rec rec' (Ray.bounces ray)) ->
  Game.trace_color_body GLASS items rec g ray
  = Game.trace_color_body GLASS items rec' g ray.
Proof.
  intros H. unfold Game.trace_color_body.
  destruct (negb (Ray.active ray) || bool_decide (Ray.bounces ray >= 10)%Z) eqn:Hhead;
    [reflexivity |].
  apply head_passed in Hhead as [_ Hb]. specialize (H Hb).
  case_bool_decide; [reflexivity |].
  destruct (Game.nearest_hit items g ray) as [h |]; [| reflexivity].
  cbv zeta. destruct (Game.is_mirror _); [reflexivity |].
  destruct (Game.is_polygon _); [apply color_boundary_ext; exact H |].
  repeat case_match; apply color_boundary_ext; exact H.
Qed.

Lemma trace_color_loop_ext (rec rec' : Ray.t -> option Game.result) (g : R) (k : nat) :
  forall (ray : Ray.t) (out : list Ray.t),
    ((Ray.bounces ray < 10)%Z ->
     spawn_total rec (Ray.bounces ray) /\ agree_above rec rec' (Ray.bounces ray)) ->
    Game.trace_color_loop GLASS items rec g k ray out
    = Game.trace_color_loop GLASS items rec' g k ray out.
Proof.
  induction k as [| k IH]; intros ray out H; cbn [Game.trace_color_loop];
    [reflexivity |].
  rewrite <- (trace_color_body_ext rec rec' g ray) by (intros Hb; apply H, Hb).
  destruct (trace_color_body_spec GLASS items rec g ray) as (fl & ray1 & new & -> & Hb1 & _);
    [intros Hb; apply H, Hb |].
  cbn [mbind option_bind]. destruct fl; [| reflexivity].
  apply IH. intros Hlt. destruct H as [Ht Ha]; [lia |].
  split; [apply (spawn_total_mono rec (Ray.bounces ray)) |
          apply (agree_above_mono rec rec' (Ray.bounces ray))]; assumption.
Qed.

Lemma trace_color_depth_stable (g : R) (n : nat) :
  forall (ray : Ray.t) (d d' : nat),
    (headroom ray <= n)%nat -> (headroom ray < d)%nat -> (headroom ray < d')%nat ->
    Game.trace_color_depth GLASS items g d ray
    = Game.trace_color_depth GLASS items g d' ray.
Proof.
  induction n as [n IH] using lt_wf_ind. intros ray d d' Hn Hd Hd'.
  destruct d as [| d]; [lia |]. destruct d' as [| d']; [lia |].
  cbn [Game.trace_color_depth]. apply trace_color_loop_ext.
  intros Hb. split; intros r Hr.
  - destruct (trace_color_depth_spec GLASS items g d r) as (r' & out & -> & _);
      [unfold headroom in *; lia | eexists; reflexivity].
  - apply (IH (headroom r)); unfold headroom in *; lia.
Qed.

Lemma spectral_split_ext (rec rec' : Ray.t -> option Game.result)
    (bands : list (string * Color * R)) (ray : Ray.t) (h : Game.Hit) (T : R) :
  agree_above rec rec' (Ray.bounces ray) ->
  Game.spectral_split GLASS rec bands ray h T
  = Game.spectral_split GLASS rec' bands ray h T.
Proof.
  intros H. induction bands as [| [[cname ccol] ior] bands IH];
    cbn [Game.spectral_split]; [reflexivity |].
  rewrite IH. destruct (Physics.refract _ _ _ _) as [new_dir |]; [| reflexivity].
  rewrite H by (cbn; lia). reflexivity.
Qed.

Lemma trace_polygon_ext (rec1 rec1' rec2 rec2' : Ray.t -> option Game.result)
    (ray : Ray.t) (h : Game.Hit) :
  agree_above rec1 rec1' (Ray.bounces ray) ->
  agree_above rec2 rec2' (Ray.bounces ray) ->
  Game.trace_polygon GLASS rec1 rec2 ray h = Game.trace_polygon GLASS rec1' rec2' ray h.
Proof.
  intros H1 H2. unfold Game.trace_polygon, Game.spawn_trace.
  destruct (if Ray.is_white ray then _ else _) as [n1 n2].
  rewrite H1 by (rewrite reflected_ray_bounces; lia).
  rewrite (spectral_split_ext rec2 rec2') by exact H2. reflexivity.
Qed.

Lemma trace_lens_ext (rec1 rec1' rec2 rec2' : Ray.t -> option Game.result)
    (ray : Ray.t) (h : Game.Hit) :
  agree_above rec1 rec1' (Ray.bounces ray) ->
  agree_above rec2 rec2' (Ray.bounces ray) ->
  Game.trace_lens GLASS rec1 rec2 ray h = Game.trace_lens GLASS rec1' rec2' ray h.
Proof.
  intros H1 H2. unfold Game.trace_lens, Game.spawn_trace, Game.spawn_color.
  destruct (Ray.is_white ray && Game.entering_at h).
  - rewrite H1 by (rewrite reflected_ray_bounces; lia).
    rewrite (spectral_split_ext rec2 rec2') by exact H2. reflexivity.
  - set (c := if bool_decide (deref GLASS (Ray.material ray) = GLASS)
                 && negb (Game.entering_at h) then _ else _).
    assert (Hc : Ray.bounces (snd c) = Ray.bounces ray)
      by (unfold c; repeat case_match; reflexivity).
    destruct c as [[n1 n2] ray1]. cbn [snd] in Hc.
    rewrite H2 by (rewrite reflected_ray_bounces; lia). reflexivity.
Qed.

Lemma trace_body_ext (rec1 rec1' rec2 rec2' : Ray.t -> option Game.result) (g : R)
    (ray : Ray.t) :
  ((Ray.bounces ray < 10)%Z ->
   agree_above rec1 rec1' (Ray.bounces ray)
   /\ agree_above rec2 rec2' (Ray.bounces ray)) ->
  Game.trace_body GLASS items rec1 rec2 g ray
  = Game.trace_body GLASS items rec1' rec2' g ray.
Proof.
  intros H. unfold Game.trace_body.
  destruct (negb (Ray.active ray) || bool_decide (Ray.bounces ray >= 10)%Z) eqn:Hhead;
    [reflexivity |].
  apply head_passed in Hhead as [_ Hb]. destruct (H Hb) as [H1 H2].
  case_bool_decide; [reflexivity |].
  destruct (Game.nearest_hit items g ray) as [h |]; [| reflexivity].
  cbv zeta. case_bool_decide; [reflexivity |].
  destruct (Game.is_mirror _); [reflexivity |].
  destruct (Game.is_polygon _);
    [apply trace_polygon_ext | apply trace_lens_ext]; assumption.
Qed.

Lemma trace_loop_ext (rec1 rec1' rec2 rec2' : Ray.t -> option Game.result) (g : R)
    (k : nat) :
  forall (ray : Ray.t) (out : list Ray.t),
    ((Ray.bounces ray < 10)%Z ->
     (spawn_total rec1 (Ray.bounces ray) /\ spawn_total rec2 (Ray.bounces ray))
     /\ agree_above rec1 rec1' (Ray.bounces ray)
     /\ agree_above rec2 rec2' (Ray.bounces ray)) ->
    Game.trace_loop GLASS items rec1 rec2 g k ray out
    = Game.trace_loop GLASS items rec1' rec2' g k ray out.
Proof.
  induction k as [| k IH]; intros ray out H; cbn [Game.trace_loop]; [reflexivity |].
  rewrite <- (trace_body_ext rec1 rec1' rec2 rec2' g ray)
    by (intros Hb; apply H, Hb).
  destruct (trace_body_spec GLASS items rec1 rec2 g ray)
    as (fl & ray1 & new & -> & Hb1 & _); [intros Hb; apply H, Hb |].
  cbn [mbind option_bind]. destruct fl; [| reflexivity].
  apply IH. intros Hlt. destruct H as ((Ht1 & Ht2) & Ha1 & Ha2); [lia |].
  repeat split;
    first [ apply (spawn_total_mono _ (Ray.bounces ray)); assumption
          | apply (agree_above_mono _ _ (Ray.bounces ray)); assumption ].
Qed.

Lemma trace_depth_stable (g gc : R) (n : nat) :
  forall (ray : Ray.t) (d d' : nat),
    (headroom ray <= n)%nat -> (headroom ray < d)%nat -> (headroom ray < d')%nat ->
    Game.trace_depth GLASS items g gc d ray = Game.trace_depth GLASS items g gc d' ray.
Proof.
  induction n as [n IH] using lt_wf_ind. intros ray d d' Hn Hd Hd'.
  destruct d as [| d]; [lia |]. destruct d' as [| d']; [lia |].
  cbn [Game.trace_depth]. apply trace_loop_ext.
  intros Hb. split; [split |]; [| | split]; intros r Hr.
  - destruct (trace_depth_spec GLASS items g gc d r) as (r' & out & -> & _);
      [unfold headroom in *; lia | eexists; reflexivity].
  - destruct (trace_color_depth_spec GLASS items gc d r) as (r' & out & -> & _);
      [unfold headroom in *; lia | eexists; reflexivity].
  - apply (IH (headroom r)); unfold headroom in *; lia.
  - apply (trace_color_depth_stable gc (headroom r)); unfold headroom in *; lia.
Qed.

(** Any depth above the headroom of the ray gives the result of [trace]
    and of [trace_color]: the bound is a device of the definition, not a
    limit the results depend on. *)
Lemma trace_any_depth (ray : Ray.t) (depth : nat) :
  (headroom ray < depth)%nat ->
  Game.trace_depth GLASS items 0.1 1.0 depth ray = Game.trace GLASS items ray
  /\ Game.trace_color_depth GLASS items 1.0 depth ray = Game.trace_color GLASS items ray.
Proof.
  intros Hd. unfold Game.trace, Game.trace_color, Game.depth_for. split.
  - apply (trace_depth_stable 0.1 1.0 (headroom ray)); unfold headroom in *; lia.
  - apply (trace_color_depth_stable 1.0 (headroom ray)); unfold headroom in *; lia.
Qed.

End DepthStability.

(** ** The tracer: termination, intensity, bounce cap *)

Section TracerTheorems.

Variable GLASS : Material.t.
Variable items : list Item.t.

Lemma depth_for_enough (ray : Ray.t) : (headroom ray < Game.depth_for ray)%nat.
Proof. unfold Game.depth_for, headroom. lia. Qed.

(** C9.  Every call of [trace] and of [trace_color] returns, for every
    ray, every scene and every value of [GLASS]: the loops run at most 20
    and 10 times, and the recursion through spawned rays never nests
    deeper than [depth_for ray], because a spawned ray has one bounce more
    than its parent had when it passed the bounce-cap test. *)
Theorem trace_terminates (ray : Ray.t) :
  is_Some (Game.trace GLASS items ray) /\ is_Some (Game.trace_color GLASS items ray).
Proof.
  split.
  - destruct (trace_depth_spec GLASS items 0.1 1.0 _ ray (depth_for_enough ray))
      as (ray' & out & He & _).
    unfold Game.trace. rewrite He. eexists. reflexivity.
  - destruct (trace_color_depth_spec GLASS items 1.0 _ ray (depth_for_enough ray))
      as (ray' & out & He & _).
    unfold Game.trace_color. rewrite He. eexists. reflexivity.
Qed.

(** C6.  Over a whole call the ray's own intensity never increases (and
    stays non-negative): every update multiplies it by [T = 1 - R] with
    [T > 0.01] and [R] a Fresnel reflectance, which lies in [0, 1] for
    positive indices and a normal that opposes the incident direction. *)
Theorem intensity_never_increases (ray : Ray.t) :
  positive_indices GLASS -> 0 <= Ray.intensity ray ->
  (exists ray' out,
      Game.trace GLASS items ray = Some (ray', out)
      /\ 0 <= Ray.intensity ray' <= Ray.intensity ray)
  /\ (exists ray' out,
        Game.trace_color GLASS items ray = Some (ray', out)
        /\ 0 <= Ray.intensity ray' <= Ray.intensity ray)
  /\ (forall incident normal n1 n2,
        0 < n1 -> 0 < n2 -> Vector2.dot normal incident <= 0 ->
        0 <= Physics.fresnel_reflectance incident normal n1 n2 <= 1).
Proof.
  intros Hg Hi. split; [| split].
  - destruct (trace_depth_spec GLASS items 0.1 1.0 _ ray (depth_for_enough ray))
      as (ray' & out & He & _ & Hd).
    exists ray', out. split; [exact He | exact (Hd Hg Hi)].
  - destruct (trace_color_depth_spec GLASS items 1.0 _ ray (depth_for_enough ray))
      as (ray' & out & He & _ & Hd).
    exists ray', out. split; [exact He | exact (Hd Hg Hi)].
  - intros incident normal n1 n2 H1 H2 Hopp. split.
    + apply fresnel_reflectance_nonneg; assumption.
    + apply fresnel_reflectance_le_1; assumption.
Qed.

(** What the tests at the head of both loops do. *)
Lemma head_at_cap (ray : Ray.t) :
  (Ray.bounces ray >= 10)%Z ->
  negb (Ray.active ray) || bool_decide (Ray.bounces ray >= 10)%Z = true.
Proof.
  intros Hb. rewrite (bool_decide_eq_true_2 _ Hb). apply orb_true_r.
Qed.

Lemma head_live (ray : Ray.t) :
  Ray.active ray = true -> (Ray.bounces ray < 10)%Z ->
  negb (Ray.active ray) || bool_decide (Ray.bounces ray >= 10)%Z = false.
Proof.
  intros Ha Hb. rewrite Ha. rewrite bool_decide_eq_false_2 by lia. reflexivity.
Qed.

Lemma trace_at_cap (guard guard_color : R) (depth : nat) (ray : Ray.t) :
  (Ray.bounces ray >= 10)%Z ->
  Game.trace_depth GLASS items guard guard_color (S depth) ray = Some (ray, [])
  /\ Game.trace_color_depth GLASS items guard (S depth) ray = Some (ray, []).
Proof.
  intros Hb. cbn [Game.trace_depth Game.trace_color_depth
                  Game.trace_loop Game.trace_color_loop].
  unfold Game.trace_body, Game.trace_color_body.
  rewrite (head_at_cap ray Hb). split; reflexivity.
Qed.

Lemma trace_past_budget (guard guard_color : R) (depth : nat) (ray : Ray.t) :
  Ray.active ray = true -> (Ray.bounces ray < 10)%Z ->
  Ray.distance_traveled ray >= MAX_RAY_DISTANCE ->
  Game.trace_depth GLASS items guard guard_color (S depth) ray
  = Some (Ray.set_active false ray, [])
  /\ Game.trace_color_depth GLASS items guard (S depth) ray
     = Some (Ray.set_active false ray, []).
Proof.
  intros Ha Hb Hd. cbn [Game.trace_depth Game.trace_color_depth
                        Game.trace_loop Game.trace_color_loop].
  unfold Game.trace_body, Game.trace_color_body.
  rewrite (head_live ray Ha Hb), (bool_decide_eq_true_2 _ Hd). split; reflexivity.
Qed.

End TracerTheorems.




Lemma intensity_never_increases_witness :
  exists ray' out,
    Game.trace GLASS_initial [block] dim_ray = Some (ray', out)
    /\ 0 <= Ray.intensity ray' <= Ray.intensity dim_ray.
Proof.
  apply (intensity_never_increases GLASS_initial [block] dim_ray).
  - exact GLASS_initial_positive.
  - cbn [dim_ray Ray.intensity]. lra.
Defined.

(** ** Evaluating the hit search on axis-parallel scenes *)

Section HitEvaluation.

Import Vector2.

(** A vertical ray segment against a horizontal boundary segment. *)
Lemma intersect_vertical_horizontal (x0 y0 x2 y2 xa xb ym : R) :
  x2 = x0 ->
  0.0001 <= Rabs ((y2 - y0) * (xa - xb)) ->
  0 <= (ym - y0) / (y2 - y0) <= 1 ->
  0 <= (x0 - xa) / (xb - xa) <= 1 ->
  Physics.intersect (mk x0 y0) (mk x2 y2) (mk xa ym) (mk xb ym)
  = Some (mk x0 ym, Rabs (ym - y0)).
Proof.
  intros -> Hd Ht Hu.
  assert (Hy : y2 - y0 <> 0).
  { intros Hz. rewrite Hz, Rmult_0_l, Rabs_R0 in Hd. lra. }
  assert (Hx : xa - xb <> 0).
  { intros Hz. rewrite Hz, Rmult_0_r, Rabs_R0 in Hd. lra. }
  unfold Physics.intersect. cbn [x y].
  replace ((x0 - x0) * (ym - ym) - (y0 - y2) * (xa - xb)) with ((y2 - y0) * (xa - xb))
    by ring.
  decide_with ltac:(lra).
  replace (((x0 - xa) * (ym - ym) - (y0 - ym) * (xa - xb)) / ((y2 - y0) * (xa - xb)))
    with ((ym - y0) / (y2 - y0)) by (field; repeat split; lra).
  replace (- ((x0 - x0) * (y0 - ym) - (y0 - y2) * (x0 - xa)) / ((y2 - y0) * (xa - xb)))
    with ((x0 - xa) / (xb - xa)) by (field; repeat split; lra).
  do 4 decide_with ltac:(lra). cbn [andb].
  f_equal. f_equal.
  - f_equal; field; auto.
  - unfold length, sub. cbn [x y].
    replace ((x0 + (ym - y0) / (y2 - y0) * (x0 - x0) - x0) ^ 2
             + (y0 + (ym - y0) / (y2 - y0) * (y2 - y0) - y0) ^ 2)
      with ((ym - y0)²) by (unfold Rsqr; field; auto).
    apply sqrt_Rsqr_abs.
Qed.

(** A vertical ray segment misses a vertical boundary segment. *)
Lemma intersect_vertical_vertical (x0 y0 x2 y2 xa ya xb yb : R) :
  x2 = x0 -> xb = xa ->
  Physics.intersect (mk x0 y0) (mk x2 y2) (mk xa ya) (mk xb yb) = None.
Proof.
  intros -> ->. unfold Physics.intersect. cbn [x y].
  replace ((x0 - x0) * (ya - yb) - (y0 - y2) * (xa - xa)) with 0 by ring.
  rewrite Rabs_R0. decide_with ltac:(lra). reflexivity.
Qed.

(** The normal of a horizontal segment traversed towards larger [x]. *)
Lemma normal_horizontal (xa xb ym : R) :
  xa < xb -> Physics.normal (mk xa ym) (mk xb ym) = mk 0 1.
Proof.
  intros Hx. unfold Physics.normal. cbn [x y].
  replace ((xb - xa) * (xb - xa) + (ym - ym) * (ym - ym)) with ((xb - xa) * (xb - xa))
    by ring.
  rewrite sqrt_square by lra. decide_with ltac:(lra).
  f_equal; field; lra.
Qed.

(** How far [get_endpoint] reaches. *)
Lemma get_endpoint_reach (ray : Ray.t) :
  0 <= Ray.distance_traveled ray <= 4000 ->
  Ray.get_endpoint ray
  = add (Ray.origin ray) (mul (Ray.direction ray) 2000).
Proof.
  intros Hd. unfold Ray.get_endpoint, MAX_RAY_DISTANCE.
  rewrite Rmax_right by lra. rewrite Rmin_left by lra. reflexivity.
Qed.

Lemma get_endpoint_short (ray : Ray.t) :
  4000 <= Ray.distance_traveled ray <= 6000 ->
  Ray.get_endpoint ray
  = add (Ray.origin ray)
        (mul (Ray.direction ray) (6000 * (1.0 - Ray.distance_traveled ray / 6000))).
Proof.
  intros Hd. unfold Ray.get_endpoint, MAX_RAY_DISTANCE.
  rewrite Rmax_right by lra. rewrite Rmin_right by lra. reflexivity.
Qed.

Lemma reflect_back (a : R) :
  a = 1 \/ a = -1 -> Physics.reflect (mk 0 a) (mk 0 (- a)) = mk 0 (- a).
Proof.
  intros Ha. unfold Physics.reflect.
  rewrite (normalize_unit (mk 0 a)), (normalize_unit (mk 0 (- a)))
    by (apply length_of_unit; destruct Ha; subst; lra).
  unfold sub, mul, dot. cbn [x y].
  replace (mk (0 - 0 * (2 * (0 * 0 + a * - a))) (a - - a * (2 * (0 * 0 + a * - a))))
    with (mk 0 (- a)) by (f_equal; destruct Ha; subst; lra).
  apply normalize_unit, length_of_unit. destruct Ha; subst; lra.
Qed.

Lemma reflect_up_down : Physics.reflect (mk 0 1) (mk 0 (-1)) = mk 0 (-1).
Proof.
  replace (-1) with (- (1)) by lra. apply reflect_back. left. reflexivity.
Qed.

End HitEvaluation.

(** ** A plane mirror across a vertical beam *)

Section MirrorScene.

Import Vector2.

Variable GLASS : Material.t.

Lemma scan_segment_miss (g : R) (ray : Ray.t) (item : Item.t)
    (best : option Game.Hit) (s : t * t) :
  Physics.intersect (Ray.origin ray) (Ray.get_endpoint ray) (fst s) (snd s) = None ->
  Game.scan_segment g ray item best s = best.
Proof. intros H. unfold Game.scan_segment. rewrite H. reflexivity. Qed.

Lemma scan_segment_skip (g : R) (ray : Ray.t) (item : Item.t)
    (best : option Game.Hit) (s : t * t) (pt : t) (dist : R) :
  Physics.intersect (Ray.origin ray) (Ray.get_endpoint ray) (fst s) (snd s)
  = Some (pt, dist) ->
  ~ g < dist \/ Game.closer dist best = false ->
  Game.scan_segment g ray item best s = best.
Proof.
  intros H Hskip. unfold Game.scan_segment. rewrite H. cbn [fst snd].
  destruct Hskip as [Hg | Hc].
  - rewrite (bool_decide_eq_false_2 _ Hg). reflexivity.
  - rewrite Hc, andb_false_r. reflexivity.
Qed.

Lemma scan_segment_hit (g : R) (ray : Ray.t) (item : Item.t)
    (best : option Game.Hit) (s : t * t) (pt : t) (dist : R) :
  Physics.intersect (Ray.origin ray) (Ray.get_endpoint ray) (fst s) (snd s)
  = Some (pt, dist) ->
  g < dist -> Game.closer dist best = true ->
  Game.scan_segment g ray item best s
  = Some (Game.mkHit dist pt
            (if bool_decide (dot (Physics.normal (fst s) (snd s)) (Ray.direction ray) > 0)
             then neg (Physics.normal (fst s) (snd s))
             else Physics.normal (fst s) (snd s))
            item).
Proof.
  intros H Hg Hc. unfold Game.scan_segment. rewrite H. cbn [fst snd].
  rewrite (bool_decide_eq_true_2 _ Hg), Hc. reflexivity.
Qed.

Lemma div_unit_interval (a b : R) : 0 <= a <= b -> 0 < b -> 0 <= a / b <= 1.
Proof.
  intros Ha Hb. split.
  - apply Rmult_le_reg_r with b; [exact Hb |].
    unfold Rdiv. rewrite Rmult_assoc, Rinv_l by lra. lra.
  - apply Rmult_le_reg_r with b; [exact Hb |].
    unfold Rdiv. rewrite Rmult_assoc, Rinv_l by lra. lra.
Qed.

Lemma mirror_segments :
  Item.get_segments mirror = [(mk 0 50, mk 120 50); (mk 120 50, mk 0 50)].
Proof. reflexivity. Qed.

Lemma beam_endpoint (d : R) (b : Z) :
  0 <= d <= 5900 ->
  exists L, 100 <= L <= 2000 /\ Ray.get_endpoint (beam d b) = mk (60 + 0 * L) (0 + 1 * L).
Proof.
  intros Hd. destruct (Rle_dec d 4000) as [Hle | Hgt].
  - exists 2000. split; [lra |]. rewrite get_endpoint_reach by (cbn; lra). reflexivity.
  - exists (6000 * (1.0 - d / 6000)). split; [lra |].
    rewrite get_endpoint_short by (cbn; lra). reflexivity.
Qed.

(** The search finds the mirror 50 ahead of the beam, with the normal
    turned against the beam. *)
Lemma nearest_hit_beam (g d : R) (b : Z) :
  0 <= d <= 5900 -> g < 50 ->
  Game.nearest_hit [mirror] g (beam d b) = Some mirror_hit.
Proof.
  intros Hd Hg. destruct (beam_endpoint d b Hd) as (L & HL & Hend).
  assert (Habs : 0.0001 <= Rabs ((0 + 1 * L - 0) * 120)).
  { rewrite Rabs_right by lra. lra. }
  assert (Hfwd : Physics.intersect (mk 60 0) (mk (60 + 0 * L) (0 + 1 * L))
                                   (mk 0 50) (mk 120 50)
                 = Some (mk 60 50, 50)).
  { rewrite (intersect_vertical_horizontal 60 0 (60 + 0 * L) (0 + 1 * L) 0 120 50).
    - rewrite Rabs_right by lra. do 2 f_equal. lra.
    - lra.
    - replace ((0 + 1 * L - 0) * (0 - 120)) with (- ((0 + 1 * L - 0) * 120)) by ring.
      rewrite Rabs_Ropp. exact Habs.
    - apply div_unit_interval; lra.
    - lra. }
  assert (Hbwd : Physics.intersect (mk 60 0) (mk (60 + 0 * L) (0 + 1 * L))
                                   (mk 120 50) (mk 0 50)
                 = Some (mk 60 50, 50)).
  { rewrite (intersect_vertical_horizontal 60 0 (60 + 0 * L) (0 + 1 * L) 120 0 50).
    - rewrite Rabs_right by lra. do 2 f_equal. lra.
    - lra.
    - replace ((0 + 1 * L - 0) * (120 - 0)) with ((0 + 1 * L - 0) * 120) by ring.
      exact Habs.
    - apply div_unit_interval; lra.
    - lra. }
  unfold Game.nearest_hit. cbn [fold_left]. rewrite mirror_segments. cbn [fold_left].
  rewrite (scan_segment_hit g (beam d b) mirror None _ (mk 60 50) 50);
    [| cbn [fst snd Ray.origin beam]; rewrite Hend; exact Hfwd | exact Hg | reflexivity].
  cbn [fst snd]. rewrite normal_horizontal by lra.
  unfold dot, beam. cbn [x y Ray.direction]. decide_with ltac:(lra).
  rewrite (scan_segment_skip g _ mirror _ _ (mk 60 50) 50);
    [| cbn [fst snd Ray.origin]; fold (beam d b); rewrite Hend; exact Hbwd
     | right; cbn [Game.closer Game.best_dist]; apply bool_decide_eq_false_2; lra].
  unfold mirror_hit, neg. cbn [x y]. do 3 f_equal. lra.
Qed.

Lemma bounced_endpoint (d : R) (b : Z) :
  0 <= d + 50 <= 5950 ->
  exists L, 50 <= L <= 2000
            /\ Ray.get_endpoint (bounced d b) = mk (60 + 0 * L) (50 + -1 * L).
Proof.
  intros Hd. destruct (Rle_dec (d + 50) 4000) as [Hle | Hgt].
  - exists 2000. split; [lra |]. rewrite get_endpoint_reach by (cbn; lra). reflexivity.
  - exists (6000 * (1.0 - (d + 50) / 6000)). split; [lra |].
    rewrite get_endpoint_short by (cbn; lra). reflexivity.
Qed.

(** Heading away from the mirror, the only candidates are at distance 0,
    which no non-negative guard lets through. *)
Lemma nearest_hit_bounced (g d : R) (b : Z) :
  0 <= d + 50 <= 5950 -> 0 <= g ->
  Game.nearest_hit [mirror] g (bounced d b) = None.
Proof.
  intros Hd Hg. destruct (bounced_endpoint d b Hd) as (L & HL & Hend).
  assert (Habs : 0.0001 <= Rabs (L * 120)) by (rewrite Rabs_right by lra; lra).
  assert (Hfwd : Physics.intersect (mk 60 50) (mk (60 + 0 * L) (50 + -1 * L))
                                   (mk 0 50) (mk 120 50)
                 = Some (mk 60 50, 0)).
  { rewrite (intersect_vertical_horizontal 60 50 (60 + 0 * L) (50 + -1 * L) 0 120 50).
    - replace (50 - 50) with 0 by ring. rewrite Rabs_R0. reflexivity.
    - lra.
    - replace ((50 + -1 * L - 50) * (0 - 120)) with (L * 120) by ring. exact Habs.
    - replace (50 - 50) with 0 by ring. unfold Rdiv. rewrite Rmult_0_l. lra.
    - lra. }
  assert (Hbwd : Physics.intersect (mk 60 50) (mk (60 + 0 * L) (50 + -1 * L))
                                   (mk 120 50) (mk 0 50)
                 = Some (mk 60 50, 0)).
  { rewrite (intersect_vertical_horizontal 60 50 (60 + 0 * L) (50 + -1 * L) 120 0 50).
    - replace (50 - 50) with 0 by ring. rewrite Rabs_R0. reflexivity.
    - lra.
    - replace ((50 + -1 * L - 50) * (120 - 0)) with (- (L * 120)) by ring.
      rewrite Rabs_Ropp. exact Habs.
    - replace (50 - 50) with 0 by ring. unfold Rdiv. rewrite Rmult_0_l. lra.
    - lra. }
  unfold Game.nearest_hit. cbn [fold_left]. rewrite mirror_segments. cbn [fold_left].
  rewrite (scan_segment_skip g (bounced d b) mirror None _ (mk 60 50) 0);
    [| cbn [fst snd Ray.origin bounced]; rewrite Hend; exact Hfwd | left; lra].
  rewrite (scan_segment_skip g (bounced d b) mirror None _ (mk 60 50) 0);
    [| cbn [fst snd Ray.origin bounced]; rewrite Hend; exact Hbwd | left; lra].
  reflexivity.
Qed.

Lemma is_mirror_mirror : Game.is_mirror mirror = true.
Proof. reflexivity. Qed.

Lemma beam_bounce (d : R) (b : Z) :
  mirror_bounce (beam d b) mirror_hit = bounced d b.
Proof.
  unfold mirror_bounce, beam, mirror_hit, Game.advance_to_hit, bounced.
  cbn [Ray.set_bounces Ray.set_direction Ray.set_path Ray.set_distance_traveled
       Ray.set_origin Ray.origin Ray.direction Ray.color Ray.wavelength Ray.is_white
       Ray.path Ray.active Ray.bounces Ray.material Ray.intensity
       Ray.distance_traveled Game.best_n Game.best_pt Game.best_dist x y app].
  rewrite reflect_up_down. reflexivity.
Qed.

(** One iteration of [trace_color] on the beam: it reflects. *)
Lemma trace_color_body_beam (rec : Ray.t -> option Game.result) (g d : R) (b : Z) :
  0 <= d <= 5900 -> g < 50 -> (b < 10)%Z ->
  Game.trace_color_body GLASS [mirror] rec g (beam d b) = Some (Game.Next, bounced d b, []).
Proof.
  intros Hd Hg Hb. unfold Game.trace_color_body.
  rewrite head_live by (cbn; auto).
  rewrite bool_decide_eq_false_2 by (unfold MAX_RAY_DISTANCE; cbn; lra).
  rewrite (nearest_hit_beam g d b Hd Hg). cbv zeta.
  change (Game.best_item mirror_hit) with mirror. rewrite is_mirror_mirror.
  do 3 f_equal. exact (beam_bounce d b).
Qed.

(** One iteration of [trace] on the beam: it reflects while the
    attenuation after the hit is above 0.01, and ends the ray otherwise. *)
Lemma trace_body_beam (rec1 rec2 : Ray.t -> option Game.result) (g d : R) (b : Z) :
  0 <= d <= 5900 -> g < 50 -> (b < 10)%Z ->
  Game.trace_body GLASS [mirror] rec1 rec2 g (beam d b)
  = if bool_decide (Game.get_intensity_at_distance (d + 50) <= 0.01)
    then Some (Game.Leave,
               Ray.set_active false (Game.advance_to_hit (beam d b) mirror_hit), [])
    else Some (Game.Next, bounced d b, []).
Proof.
  intros Hd Hg Hb. unfold Game.trace_body.
  rewrite head_live by (cbn; auto).
  rewrite bool_decide_eq_false_2 by (unfold MAX_RAY_DISTANCE; cbn; lra).
  rewrite (nearest_hit_beam g d b Hd Hg). cbv zeta.
  change (Ray.distance_traveled (Game.advance_to_hit (beam d b) mirror_hit))
    with (d + 50).
  case_bool_decide; [reflexivity |].
  change (Game.best_item mirror_hit) with mirror. rewrite is_mirror_mirror.
  do 3 f_equal. exact (beam_bounce d b).
Qed.

Lemma no_hit_inactive (ray : Ray.t) : Ray.active (Game.no_hit ray) = false.
Proof. unfold Game.no_hit. repeat case_bool_decide; reflexivity. Qed.

Lemma no_hit_bounces (ray : Ray.t) : Ray.bounces (Game.no_hit ray) = Ray.bounces ray.
Proof. unfold Game.no_hit. repeat case_bool_decide; reflexivity. Qed.

(** The second iteration of [trace_color]: nothing ahead, the ray leaves. *)
Lemma trace_color_body_bounced (rec : Ray.t -> option Game.result) (g d : R) (b : Z) :
  0 <= d + 50 <= 5950 -> 0 <= g -> (b + 1 < 10)%Z ->
  Game.trace_color_body GLASS [mirror] rec g (bounced d b)
  = Some (Game.Leave, Game.no_hit (bounced d b), []).
Proof.
  intros Hd Hg Hb. unfold Game.trace_color_body.
  rewrite head_live by (cbn; auto).
  rewrite bool_decide_eq_false_2 by (unfold MAX_RAY_DISTANCE; cbn; lra).
  rewrite (nearest_hit_bounced g d b Hd Hg). reflexivity.
Qed.

(** The whole calls on a beam that is 100 short of its travel budget:
    [trace] ends the ray at the mirror, [trace_color] reflects it. *)
Lemma trace_late_beam (g gc : R) (depth : nat) (b : Z) :
  g < 50 -> (b < 10)%Z ->
  Game.trace_depth GLASS [mirror] g gc (S depth) (beam 5900 b)
  = Some (Ray.set_active false (Game.advance_to_hit (beam 5900 b) mirror_hit), []).
Proof.
  intros Hg Hb. cbn [Game.trace_depth Game.trace_loop].
  rewrite trace_body_beam by (auto; lra).
  rewrite bool_decide_eq_true_2; [reflexivity |].
  unfold Game.get_intensity_at_distance, MAX_RAY_DISTANCE.
  rewrite Rmax_right by lra. lra.
Qed.

Lemma trace_color_late_beam (g : R) (depth : nat) (b : Z) :
  0 <= g < 50 -> (b + 1 < 10)%Z ->
  Game.trace_color_depth GLASS [mirror] g (S depth) (beam 5900 b)
  = Some (Game.no_hit (bounced 5900 b), []).
Proof.
  intros Hg Hb. cbn [Game.trace_color_depth Game.trace_color_loop].
  rewrite trace_color_body_beam by (try lra; lia).
  cbn [mbind option_bind app].
  rewrite trace_color_body_bounced by (try lra; lia).
  reflexivity.
Qed.

End MirrorScene.

(** ** Scenes of mirrors: where the two routines agree *)

Section MirrorAgreement.

Variable GLASS : Material.t.
Variable items : list Item.t.

Lemma scan_segment_item (g : R) (ray : Ray.t) (item : Item.t)
    (best : option Game.Hit) (s : Vector2.t * Vector2.t) (h : Game.Hit) :
  Game.scan_segment g ray item best s = Some h ->
  best = Some h \/ Game.best_item h = item.
Proof.
  unfold Game.scan_segment. intros H.
  destruct (Physics.intersect _ _ _ _) as [hit |]; [| auto].
  destruct (_ && _); [| auto].
  right. injection H as <-. reflexivity.
Qed.

Lemma scan_item_item (g : R) (ray : Ray.t) (item : Item.t)
    (segs : list (Vector2.t * Vector2.t)) :
  forall (best : option Game.Hit) (h : Game.Hit),
    fold_left (Game.scan_segment g ray item) segs best = Some h ->
    best = Some h \/ Game.best_item h = item.
Proof.
  induction segs as [| s segs IH]; intros best h H; cbn [fold_left] in H; [auto |].
  destruct (IH _ _ H) as [Hs | Hi]; [| auto].
  exact (scan_segment_item g ray item best s h Hs).
Qed.

Lemma scan_items_item (g : R) (ray : Ray.t) (l : list Item.t) :
  forall (best : option Game.Hit) (h : Game.Hit),
    fold_left
      (fun best item =>
         fold_left (Game.scan_segment g ray item) (Item.get_segments item) best)
      l best = Some h ->
    best = Some h \/ Game.best_item h ∈ l.
Proof.
  induction l as [| item l IH]; intros best h H; cbn [fold_left] in H; [auto |].
  destruct (IH _ _ H) as [Hs | Hi].
  - destruct (scan_item_item g ray item _ best h Hs) as [Hb | <-]; [auto |].
    right. apply list_elem_of_here.
  - right. apply list_elem_of_further, Hi.
Qed.

(** The struck item is one of the scene. *)
Lemma nearest_hit_item (g : R) (ray : Ray.t) (h : Game.Hit) :
  Game.nearest_hit items g ray = Some h -> Game.best_item h ∈ items.
Proof.
  intros H. destruct (scan_items_item g ray items None h H) as [Hn | Hi];
    [discriminate | exact Hi].
Qed.

Hypothesis Hmirrors : mirrors_only items.

Lemma trace_color_body_mirrors (rec : Ray.t -> option Game.result) (g : R)
    (ray : Ray.t) :
  Game.trace_color_body GLASS items rec g ray
  = if negb (Ray.active ray) || bool_decide (Ray.bounces ray >= 10)%Z then
      Some (Game.Leave, ray, [])
    else if bool_decide (Ray.distance_traveled ray >= MAX_RAY_DISTANCE) then
      Some (Game.Leave, Ray.set_active false ray, [])
    else
      match Game.nearest_hit items g ray with
      | Some h => Some (Game.Next, mirror_bounce ray h, [])
      | None => Some (Game.Leave, Game.no_hit ray, [])
      end.
Proof.
  unfold Game.trace_color_body.
  destruct (_ || _); [reflexivity |]. case_bool_decide; [reflexivity |].
  destruct (Game.nearest_hit items g ray) as [h |] eqn:Hh; [| reflexivity].
  cbv zeta. rewrite (Hmirrors _ (nearest_hit_item g ray h Hh)). reflexivity.
Qed.

Lemma trace_body_mirrors (rec1 rec2 : Ray.t -> option Game.result) (g : R)
    (ray : Ray.t) :
  Game.trace_body GLASS items rec1 rec2 g ray
  = if negb (Ray.active ray) || bool_decide (Ray.bounces ray >= 10)%Z then
      Some (Game.Leave, ray, [])
    else if bool_decide (Ray.distance_traveled ray >= MAX_RAY_DISTANCE) then
      Some (Game.Leave, Ray.set_active false ray, [])
    else
      match Game.nearest_hit items g ray with
      | Some h =>
          if bool_decide
               (Game.get_intensity_at_distance
                  (Ray.distance_traveled ray + Game.best_dist h) <= 0.01)
          then Some (Game.Leave, Ray.set_active false (Game.advance_to_hit ray h), [])
          else Some (Game.Next, mirror_bounce ray h, [])
      | None => Some (Game.Next, Game.no_hit ray, [])
      end.
Proof.
  unfold Game.trace_body.
  destruct (_ || _); [reflexivity |]. case_bool_decide; [reflexivity |].
  destruct (Game.nearest_hit items g ray) as [h |] eqn:Hh; [| reflexivity].
  cbv zeta.
  change (Ray.distance_traveled (Game.advance_to_hit ray h))
    with (Ray.distance_traveled ray + Game.best_dist h).
  case_bool_decide; [reflexivity |].
  rewrite (Hmirrors _ (nearest_hit_item g ray h Hh)). reflexivity.
Qed.

(** The loops agree once [trace] has at least one more turn than
    [trace_color], and [trace_color] has enough turns to reach the bounce
    cap. *)
Lemma loops_agree_on_mirrors (rec1 rec2 rec : Ray.t -> option Game.result) (g : R)
    (kc : nat) :
  forall (kt : nat) (ray : Ray.t) (out : list Ray.t),
    (kc < kt)%nat ->
    (10 - Ray.bounces ray <= Z.of_nat kc)%Z ->
    stays_bright items g kc ray ->
    Game.trace_loop GLASS items rec1 rec2 g kt ray out
    = Game.trace_color_loop GLASS items rec g kc ray out.
Proof.
  induction kc as [| kc IH]; intros kt ray out Hk Hb Hbright;
    (destruct kt as [| kt]; [lia |]).
  - cbn [Game.trace_loop Game.trace_color_loop].
    rewrite trace_body_mirrors, head_at_cap by lia.
    cbn [mbind option_bind]. rewrite app_nil_r. reflexivity.
  - cbn [Game.trace_loop Game.trace_color_loop].
    rewrite trace_body_mirrors, trace_color_body_mirrors.
    destruct (_ || _); [reflexivity |]. case_bool_decide; [reflexivity |].
    cbn [stays_bright] in Hbright.
    destruct (Game.nearest_hit items g ray) as [h |].
    + destruct Hbright as [Hgt Hbright].
      rewrite bool_decide_eq_false_2 by lra. cbn [mbind option_bind].
      apply IH; [lia | cbn; lia | exact Hbright].
    + cbn [mbind option_bind]. destruct kt as [| kt]; [lia |].
      cbn [Game.trace_loop]. rewrite trace_body_mirrors, no_hit_inactive.
      cbn [negb orb mbind option_bind]. rewrite app_nil_r. reflexivity.
Qed.

End MirrorAgreement.


Lemma mirror_scene_mirrors_only : mirrors_only [mirror].
Proof.
  intros item Hin. apply list_elem_of_singleton in Hin as ->. reflexivity.
Qed.

Lemma fresh_beam_stays_bright : stays_bright [mirror] 1.0 10 (beam 0 0).
Proof.
  cbn [stays_bright]. rewrite nearest_hit_beam by lra.
  split.
  - unfold Game.get_intensity_at_distance, MAX_RAY_DISTANCE, beam, mirror_hit.
    cbn [Ray.distance_traveled Game.best_dist]. rewrite Rmax_right by lra. lra.
  - rewrite beam_bounce, nearest_hit_bounced by lra. exact I.
Qed.


(** ** A glass block across a dim vertical ray *)

Section BlockScene.

Import Vector2.

Lemma block_segments :
  Item.get_segments block
  = [(mk 550 360, mk 650 360); (mk 650 360, mk 650 440);
     (mk 650 440, mk 550 440); (mk 550 440, mk 550 360)].
Proof. reflexivity. Qed.

Lemma above_block_endpoint (ray : Ray.t) :
  Ray.origin ray = mk 600 300 -> Ray.direction ray = mk 0 1 ->
  0 <= Ray.distance_traveled ray <= 4000 ->
  Ray.get_endpoint ray = mk (600 + 0 * 2000) (300 + 1 * 2000).
Proof.
  intros Ho Hdir Hd. rewrite get_endpoint_reach by exact Hd.
  rewrite Ho, Hdir. reflexivity.
Qed.

(** A ray at (600, 300) heading straight down meets the top face of the
    block first, 60 ahead. *)
Lemma nearest_hit_block (g : R) (ray : Ray.t) :
  Ray.origin ray = mk 600 300 -> Ray.direction ray = mk 0 1 ->
  0 <= Ray.distance_traveled ray <= 4000 ->
  g < 60 -> Game.nearest_hit [block] g ray = Some block_hit.
Proof.
  intros Ho Hdir Hd Hg.
  pose proof (above_block_endpoint ray Ho Hdir Hd) as Hend.
  assert (Htop : Physics.intersect (mk 600 300) (mk (600 + 0 * 2000) (300 + 1 * 2000))
                                   (mk 550 360) (mk 650 360)
                 = Some (mk 600 360, 60)).
  { rewrite (intersect_vertical_horizontal 600 300 _ _ 550 650 360).
    - rewrite Rabs_right by lra. do 2 f_equal. lra.
    - lra.
    - replace ((300 + 1 * 2000 - 300) * (550 - 650)) with (- (200000)) by lra.
      rewrite Rabs_Ropp, Rabs_right by lra. lra.
    - lra.
    - lra. }
  assert (Hbottom : Physics.intersect (mk 600 300) (mk (600 + 0 * 2000) (300 + 1 * 2000))
                                      (mk 650 440) (mk 550 440)
                    = Some (mk 600 440, 140)).
  { rewrite (intersect_vertical_horizontal 600 300 _ _ 650 550 440).
    - rewrite Rabs_right by lra. do 2 f_equal. lra.
    - lra.
    - replace ((300 + 1 * 2000 - 300) * (650 - 550)) with 200000 by lra.
      rewrite Rabs_right by lra. lra.
    - lra.
    - lra. }
  unfold Game.nearest_hit. cbn [fold_left]. rewrite block_segments. cbn [fold_left].
  rewrite (scan_segment_hit g ray block None _ (mk 600 360) 60);
    [| cbn [fst snd]; rewrite Ho, Hend; exact Htop | exact Hg | reflexivity].
  cbn [fst snd]. rewrite normal_horizontal by lra.
  rewrite Hdir. unfold dot. cbn [x y]. decide_with ltac:(lra).
  rewrite (scan_segment_miss g ray block _ (mk 650 360, mk 650 440));
    [| cbn [fst snd]; rewrite Ho, Hend; apply intersect_vertical_vertical; lra].
  rewrite (scan_segment_skip g ray block _ (mk 650 440, mk 550 440) (mk 600 440) 140);
    [| cbn [fst snd]; rewrite Ho, Hend; exact Hbottom
     | right; cbn [Game.closer Game.best_dist]; apply bool_decide_eq_false_2; lra].
  rewrite (scan_segment_miss g ray block _ (mk 550 440, mk 550 360));
    [| cbn [fst snd]; rewrite Ho, Hend; apply intersect_vertical_vertical; lra].
  unfold block_hit, neg. cbn [x y]. do 3 f_equal. lra.
Qed.

Lemma get_ior_red (m : Material.t) : Material.get_ior m "red" = Material.ior_red m.
Proof. unfold Material.get_ior, Material.iors. rewrite lookup_insert_eq. reflexivity. Qed.

Lemma get_ior_white (m : Material.t) :
  Material.get_ior m "white" = (Material.ior_red m + Material.ior_violet m) / 2.
Proof.
  unfold Material.get_ior, Material.iors.
  rewrite !lookup_insert_ne by discriminate. rewrite lookup_insert_eq. reflexivity.
Qed.

(** Reflectance of the top face for a ray coming straight down from the
    thinner medium: Schlick's [r0]. *)
Lemma fresnel_head_on (n1 n2 : R) :
  n1 <= n2 ->
  Physics.fresnel_reflectance (mk 0 1) (mk 0 (-1)) n1 n2 = ((n1 - n2) / (n1 + n2)) ^ 2.
Proof.
  intros Hn. unfold Physics.fresnel_reflectance.
  rewrite !normalize_unit by (apply length_of_unit; lra).
  unfold dot. cbn [x y]. decide_with ltac:(lra).
  replace (1 - - (0 * 0 + -1 * 1)) with 0 by lra. ring.
Qed.

Lemma fresnel_top_face :
  Physics.fresnel_reflectance (mk 0 1) (mk 0 (-1)) 1.000 1.500 = 0.04.
Proof. rewrite fresnel_head_on by lra. lra. Qed.

Lemma refract_top_face (n1 n2 : R) :
  Physics.refract (mk 0 1) (mk 0 (-1)) n1 n2 = Some (mk 0 1).
Proof.
  replace (mk 0 (-1)) with (mul (neg (mk 0 1)) 1)
    by (unfold mul, neg; cbn [x y]; f_equal; lra).
  apply refract_straight; [apply length_of_unit |]; lra.
Qed.

Lemma entering_block : Game.entering_at block_hit = true.
Proof.
  unfold Game.entering_at, block_hit, block, dot, sub.
  cbn [Game.best_n Game.best_item Game.best_pt Item.pos x y].
  decide_with ltac:(lra). reflexivity.
Qed.

Lemma ray_eq (a b : Ray.t) :
  Ray.origin a = Ray.origin b -> Ray.direction a = Ray.direction b ->
  Ray.color a = Ray.color b -> Ray.wavelength a = Ray.wavelength b ->
  Ray.is_white a = Ray.is_white b -> Ray.path a = Ray.path b ->
  Ray.active a = Ray.active b -> Ray.bounces a = Ray.bounces b ->
  Ray.material a = Ray.material b -> Ray.intensity a = Ray.intensity b ->
  Ray.distance_traveled a = Ray.distance_traveled b ->
  a = b.
Proof. destruct a, b. cbn. intros. subst. reflexivity. Qed.

Lemma dim_ray_reflected :
  Game.reflected_ray (Game.advance_to_hit dim_ray block_hit) block_hit RED "red" false 0.04
  = dim_sibling.
Proof.
  unfold Game.reflected_ray, Game.advance_to_hit, dim_ray, block_hit, Ray.init.
  cbn [Ray.set_bounces Ray.set_direction Ray.set_path Ray.set_distance_traveled
       Ray.set_origin Ray.origin Ray.direction Ray.color Ray.wavelength Ray.is_white
       Ray.path Ray.active Ray.bounces Ray.material Ray.intensity
       Ray.distance_traveled Game.best_n Game.best_pt Game.best_dist x y].
  rewrite reflect_up_down.
  rewrite normalize_unit by (apply length_of_unit; lra).
  apply ray_eq; cbn; try reflexivity; lra.
Qed.

Lemma next_material_from_air (GLASS : Material.t) (ray : Ray.t) :
  Ray.material ray = AIR_ref -> Game.next_material GLASS ray true = GLASS_ref.
Proof.
  intros H. unfold Game.next_material. rewrite H. cbn [deref].
  rewrite bool_decide_eq_true_2 by reflexivity. reflexivity.
Qed.

Lemma is_polygon_block : Game.is_mirror block = false /\ Game.is_polygon block = true.
Proof. split; reflexivity. Qed.

(** One iteration of [trace_color] on [dim_ray], whatever the recursive
    call returns: the reflected sibling is spawned with intensity
    0.2 * 0.04 = 0.008, below the floor 0.01. *)
Lemma trace_color_body_dim_ray_spawns (rec : Ray.t -> option Game.result) :
  Game.trace_color_body GLASS_initial [block] rec 1.0 dim_ray
  = spawned ← Game.spawn_color rec dim_sibling;
    Some (Game.Next, dim_refracted, spawned).
Proof.
  unfold Game.trace_color_body.
  rewrite head_live by (cbn; auto; lia).
  rewrite bool_decide_eq_false_2 by (unfold MAX_RAY_DISTANCE; cbn; lra).
  rewrite (nearest_hit_block _ dim_ray) by (first [reflexivity | cbn; lra]). cbv zeta.
  change (Game.best_item block_hit) with block.
  destruct is_polygon_block as [-> ->].
  rewrite entering_block.
  unfold Game.color_boundary.
  change (Ray.material (Game.advance_to_hit dim_ray block_hit)) with AIR_ref.
  change (Ray.wavelength (Game.advance_to_hit dim_ray block_hit)) with "red".
  rewrite !get_ior_red. cbn [deref AIR GLASS_initial Material.ior_red].
  change (Ray.direction (Game.advance_to_hit dim_ray block_hit)) with (mk 0 1).
  change (Game.best_n block_hit) with (mk 0 (-1)).
  rewrite fresnel_top_face, refract_top_face.
  decide_with ltac:(lra). decide_with ltac:(lra).
  change (Ray.color (Game.advance_to_hit dim_ray block_hit)) with RED.
  rewrite dim_ray_reflected.
  destruct (Game.spawn_color rec dim_sibling) as [spawned |]; [| reflexivity].
  cbn [mbind option_bind].
  do 3 f_equal.
  apply ray_eq; cbn; try reflexivity; try lra.
  apply next_material_from_air. reflexivity.
Qed.

Lemma trace_color_body_dim_ray :
  Game.trace_color_body GLASS_initial [block] observe 1.0 dim_ray
  = Some (Game.Next, dim_refracted, [dim_sibling]).
Proof. rewrite trace_color_body_dim_ray_spawns. reflexivity. Qed.

(** What a loop returns extends what it was given. *)
Lemma trace_color_loop_prefix (GLASS : Material.t) (items : list Item.t)
    (rec : Ray.t -> option Game.result) (g : R) (k : nat) :
  forall (ray : Ray.t) (out : list Ray.t) (ray' : Ray.t) (out' : list Ray.t),
    Game.trace_color_loop GLASS items rec g k ray out = Some (ray', out') ->
    exists more, out' = out ++ more.
Proof.
  induction k as [| k IH]; intros ray out ray' out' H.
  - injection H as _ <-. exists []. rewrite app_nil_r. reflexivity.
  - rewrite trace_color_loop_step in H.
    destruct (Game.trace_color_body GLASS items rec g ray) as [[[fl ray1] new] |];
      [| discriminate].
    cbn [mbind option_bind] in H. destruct fl.
    + destruct (IH _ _ _ _ H) as [more ->].
      exists (new ++ more). rewrite app_assoc. reflexivity.
    + injection H as _ <-. exists new. reflexivity.
Qed.

(** The whole call of [trace_color] on [dim_ray]: the first ray it appends
    to [self.rays] is the traced sibling, of intensity at most 0.008. *)
Lemma trace_color_dim_ray :
  exists ray' sibling rest,
    Game.trace_color GLASS_initial [block] dim_ray = Some (ray', sibling :: rest)
    /\ Ray.intensity sibling <= 0.2 * 0.04.
Proof.
  unfold Game.trace_color. change (Game.depth_for dim_ray) with (S 9).
  rewrite trace_color_depth_step, trace_color_loop_step.
  rewrite trace_color_body_dim_ray_spawns. unfold Game.spawn_color.
  destruct (trace_color_depth_spec GLASS_initial [block] 1.0 9 dim_sibling)
    as (sibling & outs & -> & _ & Hd); [unfold headroom; cbn; lia |].
  cbn [mbind option_bind].
  destruct (trace_color_loop_spec GLASS_initial [block]
              (Game.trace_color_depth GLASS_initial [block] 1.0 9) 1.0 9 dim_refracted
              ([] ++ sibling :: outs))
    as (ray' & out' & He & _).
  - intros _ r Hr.
    destruct (trace_color_depth_spec GLASS_initial [block] 1.0 9 r)
      as (r' & o & -> & _); [unfold headroom; cbn in Hr; lia | eexists; reflexivity].
  - rewrite He. apply trace_color_loop_prefix in He as [more ->].
    exists ray', sibling, (outs ++ more). split; [reflexivity |].
    apply Hd; [exact GLASS_initial_positive | cbn; lra].
Qed.

(** The same iteration in [trace]: its polygon branch also tests
    [ray.intensity * R > 0.01] and spawns nothing. *)
Lemma trace_body_dim_ray :
  Game.trace_body GLASS_initial [block] observe observe 0.1 dim_ray
  = Some (Game.Next, dim_refracted, []).
Proof.
  unfold Game.trace_body.
  rewrite head_live by (cbn; auto; lia).
  rewrite bool_decide_eq_false_2 by (unfold MAX_RAY_DISTANCE; cbn; lra).
  rewrite (nearest_hit_block _ dim_ray) by (first [reflexivity | cbn; lra]). cbv zeta.
  rewrite bool_decide_eq_false_2.
  2:{ unfold Game.get_intensity_at_distance, MAX_RAY_DISTANCE. cbn.
      rewrite Rmax_right by lra. lra. }
  change (Game.best_item block_hit) with block.
  destruct is_polygon_block as [-> ->].
  unfold Game.trace_polygon.
  rewrite entering_block.
  change (Ray.is_white (Game.advance_to_hit dim_ray block_hit)) with false.
  change (Ray.material (Game.advance_to_hit dim_ray block_hit)) with AIR_ref.
  change (Ray.wavelength (Game.advance_to_hit dim_ray block_hit)) with "red".
  rewrite !get_ior_red. cbn [deref AIR GLASS_initial Material.ior_red].
  change (Ray.direction (Game.advance_to_hit dim_ray block_hit)) with (mk 0 1).
  change (Game.best_n block_hit) with (mk 0 (-1)).
  rewrite fresnel_top_face, refract_top_face.
  change (Ray.intensity (Game.advance_to_hit dim_ray block_hit)) with 0.2.
  decide_with ltac:(lra). decide_with ltac:(lra).
  decide_with ltac:(lra). decide_with ltac:(lra).
  cbn [andb mbind option_bind].
  do 3 f_equal.
  apply ray_eq; cbn; try reflexivity; try lra.
  apply next_material_from_air. reflexivity.
Qed.

(** One iteration of [trace] on the white ray: it spawns the reflected
    sibling, splits into the spectrum and ends the white ray. *)
Lemma trace_body_white_ray (rec1 rec2 : Ray.t -> option Game.result) (g : R) :
  g < 60 -> spawn_total rec1 0 -> spawn_total rec2 0 ->
  exists out,
    Game.trace_body GLASS_initial [block] rec1 rec2 g white_ray
    = Some (Game.Leave,
            Ray.set_active false (Game.advance_to_hit white_ray block_hit), out).
Proof.
  intros Hg H1 H2. unfold Game.trace_body.
  rewrite head_live by (cbn; auto; lia).
  rewrite bool_decide_eq_false_2 by (unfold MAX_RAY_DISTANCE; cbn; lra).
  rewrite (nearest_hit_block g white_ray) by (first [reflexivity | cbn; lra]).
  cbv zeta.
  rewrite bool_decide_eq_false_2.
  2:{ unfold Game.get_intensity_at_distance, MAX_RAY_DISTANCE. cbn.
      rewrite Rmax_right by lra. lra. }
  change (Game.best_item block_hit) with block.
  destruct is_polygon_block as [-> ->].
  unfold Game.trace_polygon.
  rewrite entering_block.
  change (Ray.is_white (Game.advance_to_hit white_ray block_hit)) with true.
  change (Ray.material (Game.advance_to_hit white_ray block_hit)) with AIR_ref.
  rewrite !get_ior_white.
  cbn [deref AIR GLASS_initial Material.ior_red Material.ior_violet].
  change (Ray.direction (Game.advance_to_hit white_ray block_hit)) with (mk 0 1).
  change (Game.best_n block_hit) with (mk 0 (-1)).
  rewrite fresnel_head_on by lra.
  change (Ray.intensity (Game.advance_to_hit white_ray block_hit)) with 1.0.
  decide_with ltac:(lra). decide_with ltac:(lra).
  cbn [andb].
  match goal with
  | |- context [Game.spawn_trace rec1 ?r] =>
      destruct (spawn_trace_total rec1 0 r H1) as [spawned ->]; [cbn; lia |]
  end.
  cbn [mbind option_bind].
  decide_with ltac:(lra). decide_with ltac:(lra).
  cbn [andb].
  match goal with
  | |- context [Game.spectral_split GLASS_initial rec2 SPECTRUM ?r ?h ?T] =>
      destruct (spectral_split_total GLASS_initial rec2 SPECTRUM r h T H2) as [split ->]
  end.
  cbn [mbind option_bind]. eexists. reflexivity.
Qed.

(** The same iteration in [trace_color]: the ray is refracted in place,
    with the indices of the band "white", and goes on. *)
Lemma trace_color_body_white_ray (rec : Ray.t -> option Game.result) (g : R) :
  g < 60 -> spawn_total rec 0 ->
  exists ray' spawned,
    Game.trace_color_body GLASS_initial [block] rec g white_ray
    = Some (Game.Next, ray', spawned)
    /\ Ray.bounces ray' = 1%Z.
Proof.
  intros Hg H. unfold Game.trace_color_body.
  rewrite head_live by (cbn; auto; lia).
  rewrite bool_decide_eq_false_2 by (unfold MAX_RAY_DISTANCE; cbn; lra).
  rewrite (nearest_hit_block g white_ray) by (first [reflexivity | cbn; lra]).
  cbv zeta.
  change (Game.best_item block_hit) with block.
  destruct is_polygon_block as [-> ->].
  rewrite entering_block.
  unfold Game.color_boundary.
  change (Ray.material (Game.advance_to_hit white_ray block_hit)) with AIR_ref.
  change (Ray.wavelength (Game.advance_to_hit white_ray block_hit)) with "white".
  rewrite !get_ior_white.
  cbn [deref AIR GLASS_initial Material.ior_red Material.ior_violet].
  change (Ray.direction (Game.advance_to_hit white_ray block_hit)) with (mk 0 1).
  change (Game.best_n block_hit) with (mk 0 (-1)).
  rewrite fresnel_head_on by lra. rewrite refract_top_face.
  decide_with ltac:(lra).
  match goal with
  | |- context [Game.spawn_color rec ?r] =>
      destruct (spawn_color_total rec 0 r H) as [spawned ->]; [cbn; lia |]
  end.
  cbn [mbind option_bind].
  decide_with ltac:(lra).
  eexists _, spawned. split; reflexivity.
Qed.

Lemma trace_white_ray (g gc : R) (depth : nat) :
  g < 60 -> (10 <= depth)%nat ->
  exists out,
    Game.trace_depth GLASS_initial [block] g gc (S depth) white_ray
    = Some (Ray.set_active false (Game.advance_to_hit white_ray block_hit), out).
Proof.
  intros Hg Hd. rewrite trace_depth_step, trace_loop_step.
  destruct (trace_body_white_ray (Game.trace_depth GLASS_initial [block] g gc depth)
              (Game.trace_color_depth GLASS_initial [block] gc depth) g Hg)
    as [out ->].
  - intros r Hr.
    destruct (trace_depth_spec GLASS_initial [block] g gc depth r) as (r' & o & -> & _);
      [unfold headroom; lia | eexists; reflexivity].
  - intros r Hr.
    destruct (trace_color_depth_spec GLASS_initial [block] gc depth r)
      as (r' & o & -> & _); [unfold headroom; lia | eexists; reflexivity].
  - cbn [mbind option_bind app]. eexists. reflexivity.
Qed.

Lemma trace_color_white_ray (g : R) (depth : nat) :
  g < 60 -> (10 <= depth)%nat ->
  exists ray' out,
    Game.trace_color_depth GLASS_initial [block] g (S depth) white_ray
    = Some (ray', out)
    /\ (1 <= Ray.bounces ray')%Z.
Proof.
  intros Hg Hd. rewrite trace_color_depth_step, trace_color_loop_step.
  assert (Hrec : spawn_total (Game.trace_color_depth GLASS_initial [block] g depth) 0).
  { intros r Hr.
    destruct (trace_color_depth_spec GLASS_initial [block] g depth r)
      as (r' & o & -> & _); [unfold headroom; lia | eexists; reflexivity]. }
  destruct (trace_color_body_white_ray _ g Hg Hrec) as (ray1 & spawned & -> & Hb1).
  cbn [mbind option_bind].
  destruct (trace_color_loop_spec GLASS_initial [block]
              (Game.trace_color_depth GLASS_initial [block] g depth) g 9 ray1
              ([] ++ spawned))
    as (ray' & out' & -> & Hb & _).
  - intros _. apply (spawn_total_mono _ 0); [lia | exact Hrec].
  - exists ray', out'. split; [reflexivity | lia].
Qed.

End BlockScene.



(** C4 on the code.  [dim_ray] meets the top face of the block at normal
    incidence, where [R] = 0.04 and [intensity * R] = 0.008 does not exceed
    0.01.  An iteration of [trace_color] spawns the reflected sibling all
    the same, since it tests [R > 0.01] alone, and the whole call returns
    it first among the appended rays; the polygon branch of [trace] tests
    [intensity * R > 0.01] too and spawns nothing. *)
Theorem sibling_spawned_below_floor :
  Ray.intensity dim_ray
  * Physics.fresnel_reflectance (Ray.direction dim_ray) (Game.best_n block_hit)
                                1.000 1.500 <= 0.01
  /\ Game.trace_color_body GLASS_initial [block] observe 1.0 dim_ray
     = Some (Game.Next, dim_refracted, [dim_sibling])
  /\ (exists ray' sibling rest,
        Game.trace_color GLASS_initial [block] dim_ray = Some (ray', sibling :: rest)
        /\ Ray.intensity sibling <= 0.2 * 0.04)
  /\ Game.trace_body GLASS_initial [block] observe observe 0.1 dim_ray
     = Some (Game.Next, dim_refracted, []).
Proof.
  split; [| split; [| split]].
  - change (Ray.direction dim_ray) with (Vector2.mk 0 1).
    change (Game.best_n block_hit) with (Vector2.mk 0 (-1)).
    rewrite fresnel_top_face. cbn [Ray.intensity dim_ray]. lra.
  - exact trace_color_body_dim_ray.
  - exact trace_color_dim_ray.
  - exact trace_body_dim_ray.
Qed.

(** * Further properties of the geometry kernel *)

Section KernelLaws.

Import Vector2.

Lemma length_positive_normalize (v : t) : length v > 0 -> length (normalize v) = 1.
Proof.
  intros Hv. destruct (normalize_length v) as [H0 | H1]; [| exact H1].
  exfalso. unfold normalize in H0. rewrite (bool_decide_eq_true_2 _ Hv) in H0.
  assert (Hs : length (mk (x v / length v) (y v / length v)) = 1).
  { apply length_of_unit. pose proof (length_squared v) as Hsq.
    replace ((x v / length v) ^ 2 + (y v / length v) ^ 2)
      with ((x v ^ 2 + y v ^ 2) / (length v * length v)) by (field; lra).
    rewrite <- Hsq. field. lra. }
  lra.
Qed.

Lemma normalize_length_le_1 (v : t) : length (normalize v) <= 1.
Proof. destruct (normalize_length v) as [-> | ->]; lra. Qed.

Lemma length_sub_self (v : t) : length (sub v v) = 0.
Proof.
  unfold length, sub. cbn [x y].
  replace ((x v - x v) ^ 2 + (y v - y v) ^ 2) with 0 by ring. apply sqrt_0.
Qed.

(** The reflected vector of unit vectors, before the final [normalize]. *)
Lemma mirror_image_unit (i m : t) :
  length i = 1 -> length m = 1 ->
  length (sub i (mul m (2 * dot i m))) = 1.
Proof.
  intros Hi Hm. apply length_unit in Hi, Hm.
  apply length_of_unit. unfold dot, mul. cbn [x y].
  set (a := x i) in *. set (b := y i) in *. set (c := x m) in *. set (d := y m) in *.
  replace ((a - c * (2 * (a * c + b * d))) ^ 2 + (b - d * (2 * (a * c + b * d))) ^ 2)
    with ((a ^ 2 + b ^ 2) - 4 * (a * c + b * d) ^ 2
          + 4 * (a * c + b * d) ^ 2 * (c ^ 2 + d ^ 2)) by ring.
  rewrite Hi, Hm. ring.
Qed.

Lemma reflect_of_units (i m : t) :
  length i = 1 -> length m = 1 ->
  Physics.reflect i m = sub i (mul m (2 * dot i m)).
Proof.
  intros Hi Hm. unfold Physics.reflect.
  rewrite (normalize_unit i Hi), (normalize_unit m Hm).
  apply normalize_unit, mirror_image_unit; assumption.
Qed.

Lemma reflect_value (inc n : t) :
  length inc > 0 -> length n > 0 ->
  Physics.reflect inc n
  = sub (normalize inc) (mul (normalize n) (2 * dot (normalize inc) (normalize n))).
Proof.
  intros Hi Hn. unfold Physics.reflect.
  apply normalize_unit, mirror_image_unit; apply length_positive_normalize; assumption.
Qed.

(** X1.  The law of reflection.  For non-zero [inc] and [n], with [i]
    and [m] their normalised forms, [reflect] returns a unit vector whose
    component along the normal is that of [i] reversed and whose tangential
    component is that of [i]; reflecting the result again gives [i] back. *)
Theorem reflect_law (inc n : t) :
  length inc > 0 -> length n > 0 ->
  length (Physics.reflect inc n) = 1
  /\ dot (Physics.reflect inc n) (normalize n) = - dot (normalize inc) (normalize n)
  /\ cross (Physics.reflect inc n) (normalize n) = cross (normalize inc) (normalize n)
  /\ Physics.reflect (Physics.reflect inc n) n = normalize inc.
Proof.
  intros Hi Hn.
  pose proof (length_positive_normalize inc Hi) as Hiu.
  pose proof (length_positive_normalize n Hn) as Hmu.
  rewrite (reflect_value inc n Hi Hn).
  set (i := normalize inc) in *. set (m := normalize n) in *.
  pose proof (mirror_image_unit i m Hiu Hmu) as Hru.
  pose proof (length_unit m Hmu) as Hm2.
  assert (Hdot : dot (sub i (mul m (2 * dot i m))) m = - dot i m).
  { unfold dot, sub, mul. cbn [x y].
    replace ((x i - x m * (2 * (x i * x m + y i * y m))) * x m
             + (y i - y m * (2 * (x i * x m + y i * y m))) * y m)
      with ((x i * x m + y i * y m) * (1 - 2 * (x m ^ 2 + y m ^ 2))) by ring.
    rewrite Hm2. ring. }
  split; [exact Hru |]. split; [exact Hdot |]. split.
  - unfold cross, sub, mul, dot. cbn [x y]. ring.
  - assert (Hr0 : length (sub i (mul m (2 * dot i m))) > 0) by lra.
    rewrite (reflect_value _ n Hr0 Hn). fold m.
    rewrite (normalize_unit _ Hru), Hdot.
    destruct i as [a b], m as [c d]. unfold sub, mul, dot. cbn [x y]. f_equal; ring.
Qed.

Lemma reflect_law_witness :
  length (Physics.reflect (mk 3 (-4)) (mk 0 2)) = 1
  /\ dot (Physics.reflect (mk 3 (-4)) (mk 0 2)) (normalize (mk 0 2))
     = - dot (normalize (mk 3 (-4))) (normalize (mk 0 2))
  /\ cross (Physics.reflect (mk 3 (-4)) (mk 0 2)) (normalize (mk 0 2))
     = cross (normalize (mk 3 (-4))) (normalize (mk 0 2))
  /\ Physics.reflect (Physics.reflect (mk 3 (-4)) (mk 0 2)) (mk 0 2)
     = normalize (mk 3 (-4)).
Proof.
  apply reflect_law.
  - unfold length. cbn [x y]. apply Rlt_gt, sqrt_lt_R0. lra.
  - unfold length. cbn [x y]. apply Rlt_gt, sqrt_lt_R0. lra.
Defined.

Lemma dot_comm (u v : t) : dot u v = dot v u.
Proof. unfold dot. ring. Qed.

Lemma dot_neg_r (u v : t) : dot u (neg v) = - dot u v.
Proof. unfold dot, neg. cbn [x y]. ring. Qed.

(** The refracted vector before the final [normalize] is a unit vector. *)
Lemma snell_vector_unit (i m : t) (a : R) :
  length i = 1 -> length m = 1 ->
  a ^ 2 * (1 - (- dot m i) ^ 2) <= 1 ->
  length (add (mul i a)
              (mul m (a * - dot m i - sqrt (1 - a ^ 2 * (1 - (- dot m i) ^ 2))))) = 1.
Proof.
  intros Hi Hm Hs. apply length_unit in Hi, Hm.
  set (c := - dot m i) in *.
  set (t := sqrt (1 - a ^ 2 * (1 - c ^ 2))).
  assert (Ht : t * t = 1 - a ^ 2 * (1 - c ^ 2)) by (apply sqrt_sqrt; lra).
  assert (Hc : x i * x m + y i * y m = - c) by (unfold c, dot; ring).
  apply length_of_unit. unfold add, mul. cbn [x y].
  replace ((x i * a + x m * (a * c - t)) ^ 2 + (y i * a + y m * (a * c - t)) ^ 2)
    with (a ^ 2 * (x i ^ 2 + y i ^ 2)
          + 2 * a * (a * c - t) * (x i * x m + y i * y m)
          + (a * c - t) ^ 2 * (x m ^ 2 + y m ^ 2)) by ring.
  rewrite Hi, Hm, Hc.
  replace (a ^ 2 * 1 + 2 * a * (a * c - t) * - c + (a * c - t) ^ 2 * 1)
    with (a ^ 2 * (1 - c ^ 2) + t * t) by ring.
  rewrite Ht. ring.
Qed.

(** The normal as [refract] turns it against the incident direction. *)
Lemma turned_normal (i m : t) :
  length m = 1 ->
  let m' := if bool_decide (dot m i > 0) then neg m else m in
  length m' = 1 /\ dot m' i <= 0 /\ (m' = m \/ m' = neg m).
Proof.
  intros Hm. cbv zeta. case_bool_decide as Hd.
  - rewrite length_neg, dot_neg_l. repeat split; [exact Hm | lra | auto].
  - repeat split; [exact Hm | lra | auto].
Qed.

(** X2.  Snell's law.  When [refract] returns a direction [v] for
    non-zero [inc] and [n] and a non-zero [n2], then [v] is a unit vector,
    the tangential components obey n2 sin(theta_t) = n1 sin(theta_i), and
    [v] crosses the surface in the sense of the incident direction; a
    direction is returned only when (n1/n2)^2 (1 - cos^2 theta_i) <= 1. *)
Theorem refract_snell (inc n : t) (n1 n2 : R) (v : t) :
  length inc > 0 -> length n > 0 -> n2 <> 0 ->
  Physics.refract inc n n1 n2 = Some v ->
  length v = 1
  /\ n2 * cross v (normalize n) = n1 * cross (normalize inc) (normalize n)
  /\ 0 <= dot v (normalize n) * dot (normalize inc) (normalize n)
  /\ (n1 / n2) ^ 2 * (1 - dot (normalize inc) (normalize n) ^ 2) <= 1.
Proof.
  intros Hi Hn Hn2 Hv.
  pose proof (length_positive_normalize inc Hi) as Hiu.
  pose proof (length_positive_normalize n Hn) as Hmu.
  unfold Physics.refract in Hv.
  set (i := normalize inc) in *. set (m := normalize n) in *.
  destruct (turned_normal i m Hmu) as (Hm'u & Hopp & Hcase).
  set (m' := if bool_decide (dot m i > 0) then neg m else m) in *.
  case_bool_decide as Hs; [discriminate |].
  assert (Hs' : (n1 / n2) ^ 2 * (1 - (- dot m' i) ^ 2) <= 1) by lra.
  pose proof (snell_vector_unit i m' (n1 / n2) Hiu Hm'u Hs') as Hwu.
  rewrite (normalize_unit _ Hwu) in Hv. apply (inj Some) in Hv. subst v.
  set (t := sqrt (1 - (n1 / n2) ^ 2 * (1 - (- dot m' i) ^ 2))) in *.
  assert (Ht : 0 <= t) by apply sqrt_pos.
  pose proof (length_unit m Hmu) as Hm2.
  assert (Hdm : dot (add (mul i (n1 / n2)) (mul m' (n1 / n2 * - dot m' i - t))) m'
                = - t).
  { pose proof (length_unit m' Hm'u) as Hm'2.
    unfold dot, add, mul. cbn [x y].
    replace ((x i * (n1 / n2)
              + x m' * (n1 / n2 * - (x m' * x i + y m' * y i) - t)) * x m'
             + (y i * (n1 / n2)
                + y m' * (n1 / n2 * - (x m' * x i + y m' * y i) - t)) * y m')
      with ((n1 / n2) * (x m' * x i + y m' * y i) * (1 - (x m' ^ 2 + y m' ^ 2))
            - t * (x m' ^ 2 + y m' ^ 2)) by ring.
    rewrite Hm'2. ring. }
  clearbody t m'.
  set (w := add (mul i (n1 / n2)) (mul m' (n1 / n2 * - dot m' i - t))) in *.
  assert (Hcross : cross w m = n1 / n2 * cross i m).
  { unfold w. destruct Hcase as [-> | ->]; unfold cross, add, mul, neg; cbn [x y]; ring. }
  split; [exact Hwu |]. split; [| split].
  - rewrite Hcross. field. exact Hn2.
  - rewrite (dot_comm i m).
    destruct Hcase as [Heq | Heq]; rewrite Heq in Hdm, Hopp.
    + rewrite Hdm. nra.
    + rewrite dot_neg_r in Hdm. rewrite dot_neg_l in Hopp. nra.
  - rewrite (dot_comm i m).
    destruct Hcase as [Heq | Heq]; rewrite Heq in Hs'.
    + replace ((- dot m i) ^ 2) with (dot m i ^ 2) in Hs' by ring. exact Hs'.
    + rewrite dot_neg_l in Hs'.
      replace ((- - dot m i) ^ 2) with (dot m i ^ 2) in Hs' by ring. exact Hs'.
Qed.

Lemma refract_snell_witness :
  length (mk 0 1) = 1
  /\ 1.5 * cross (mk 0 1) (normalize (mk 0 (-1)))
     = 1.0 * cross (normalize (mk 0 1)) (normalize (mk 0 (-1)))
  /\ 0 <= dot (mk 0 1) (normalize (mk 0 (-1)))
          * dot (normalize (mk 0 1)) (normalize (mk 0 (-1)))
  /\ (1.0 / 1.5) ^ 2 * (1 - dot (normalize (mk 0 1)) (normalize (mk 0 (-1))) ^ 2) <= 1.
Proof.
  apply (refract_snell (mk 0 1) (mk 0 (-1)) 1.0 1.5 (mk 0 1)).
  - rewrite length_of_unit by lra. lra.
  - rewrite length_of_unit by lra. lra.
  - lra.
  - apply refract_top_face.
Defined.

(** X3.  [normal] returns a unit vector perpendicular to the segment,
    turned a quarter turn from its direction; swapping the end points
    reverses it; a degenerate segment gets the fixed vector (0, 1). *)
Theorem normal_perpendicular (p1 p2 : t) :
  (length (sub p2 p1) > 0 ->
   length (Physics.normal p1 p2) = 1
   /\ dot (Physics.normal p1 p2) (sub p2 p1) = 0
   /\ cross (sub p2 p1) (Physics.normal p1 p2) = length (sub p2 p1)
   /\ Physics.normal p2 p1 = neg (Physics.normal p1 p2))
  /\ (length (sub p2 p1) = 0 -> Physics.normal p1 p2 = mk 0 1).
Proof.
  assert (Hl : forall a b : t,
             sqrt ((x b - x a) * (x b - x a) + (y b - y a) * (y b - y a))
             = length (sub b a)).
  { intros a b. unfold length, sub. cbn [x y]. f_equal. ring. }
  assert (Hsym : length (sub p1 p2) = length (sub p2 p1)).
  { unfold length, sub. cbn [x y]. f_equal. ring. }
  split.
  - intros Hpos. unfold Physics.normal. rewrite !Hl, Hsym.
    rewrite (bool_decide_eq_true_2 _ Hpos).
    pose proof (length_squared (sub p2 p1)) as Hsq.
    set (l := length (sub p2 p1)) in *.
    unfold sub in Hsq. cbn [x y] in Hsq.
    repeat split.
    + apply length_of_unit.
      replace ((- (y p2 - y p1) / l) ^ 2 + ((x p2 - x p1) / l) ^ 2)
        with (((x p2 - x p1) ^ 2 + (y p2 - y p1) ^ 2) / (l * l)) by (field; lra).
      rewrite <- Hsq. field. lra.
    + unfold dot, sub. cbn [x y]. field. lra.
    + unfold cross, sub. cbn [x y].
      replace ((x p2 - x p1) * ((x p2 - x p1) / l) - (y p2 - y p1) * (- (y p2 - y p1) / l))
        with (((x p2 - x p1) ^ 2 + (y p2 - y p1) ^ 2) / l) by (field; lra).
      rewrite <- Hsq. field. lra.
    + unfold neg. cbn [x y]. f_equal; field; lra.
  - intros Hz. unfold Physics.normal. rewrite Hl, Hz.
    rewrite bool_decide_eq_false_2 by lra. reflexivity.
Qed.

Lemma normal_perpendicular_witness :
  length (Physics.normal (mk 0 50) (mk 120 50)) = 1
  /\ Physics.normal (mk 7 7) (mk 7 7) = mk 0 1.
Proof.
  split.
  - apply (proj1 (normal_perpendicular (mk 0 50) (mk 120 50))).
    unfold length, sub. cbn [x y]. apply Rlt_gt, sqrt_lt_R0. lra.
  - apply (proj2 (normal_perpendicular (mk 7 7) (mk 7 7))). apply length_sub_self.
Defined.

(** What [intersect] returns, when it returns. *)
Lemma intersect_some (p1 p2 p3 p4 pt : t) (dist : R) :
  Physics.intersect p1 p2 p3 p4 = Some (pt, dist) ->
  exists tt u,
    0 <= tt <= 1 /\ 0 <= u <= 1
    /\ pt = along p1 p2 tt /\ pt = along p3 p4 u
    /\ dist = tt * length (sub p2 p1).
Proof.
  unfold Physics.intersect.
  set (d := (x p1 - x p2) * (y p3 - y p4) - (y p1 - y p2) * (x p3 - x p4)).
  set (tt := ((x p1 - x p3) * (y p3 - y p4) - (y p1 - y p3) * (x p3 - x p4)) / d).
  set (u := - ((x p1 - x p2) * (y p1 - y p3) - (y p1 - y p2) * (x p1 - x p3)) / d).
  intros H. case_bool_decide as Hd; [discriminate |].
  assert (Hd0 : d <> 0).
  { intros Hz. rewrite Hz, Rabs_R0 in Hd. lra. }
  destruct (bool_decide (0 <= tt)) eqn:H1; [| discriminate].
  destruct (bool_decide (tt <= 1)) eqn:H2; [| discriminate].
  destruct (bool_decide (0 <= u)) eqn:H3; [| discriminate].
  destruct (bool_decide (u <= 1)) eqn:H4; [| discriminate].
  apply bool_decide_eq_true in H1, H2, H3, H4.
  cbn [andb] in H. apply (inj Some) in H. apply pair_equal_spec in H as [Hpt Hdist].
  exists tt, u. repeat split; try assumption.
  - rewrite <- Hpt. unfold along, add, mul, sub. cbn [x y]. f_equal; ring.
  - rewrite <- Hpt. unfold along, add, mul, sub. cbn [x y].
    f_equal; unfold tt, u, d; field; exact Hd0.
  - rewrite <- Hdist.
    replace (sub (mk (x p1 + tt * (x p2 - x p1)) (y p1 + tt * (y p2 - y p1))) p1)
      with (mul (sub p2 p1) tt)
      by (unfold mul, sub; cbn [x y]; f_equal; ring).
    apply length_mul. exact H1.
Qed.

(** X4.  A point returned by [intersect] lies on both segments, and the
    returned distance is its distance from [p1], at most the length of the
    first segment; parallel segments never intersect. *)
Theorem intersect_sound (p1 p2 p3 p4 : t) :
  (forall pt dist,
      Physics.intersect p1 p2 p3 p4 = Some (pt, dist) ->
      (exists tt, 0 <= tt <= 1 /\ pt = along p1 p2 tt)
      /\ (exists u, 0 <= u <= 1 /\ pt = along p3 p4 u)
      /\ dist = length (sub pt p1)
      /\ 0 <= dist <= length (sub p2 p1))
  /\ (cross (sub p2 p1) (sub p4 p3) = 0 -> Physics.intersect p1 p2 p3 p4 = None).
Proof.
  split.
  - intros pt dist H.
    destruct (intersect_some _ _ _ _ _ _ H) as (tt & u & Ht & Hu & Hp1 & Hp2 & Hdist).
    split; [exists tt; auto |]. split; [exists u; auto |].
    pose proof (length_nonneg (sub p2 p1)) as Hl. split.
    + rewrite Hdist, Hp1.
      replace (sub (along p1 p2 tt) p1) with (mul (sub p2 p1) tt)
        by (unfold along, add, mul, sub; cbn [x y]; f_equal; ring).
      symmetry. apply length_mul. lra.
    + rewrite Hdist. split; nra.
  - intros Hpar. unfold Physics.intersect.
    replace ((x p1 - x p2) * (y p3 - y p4) - (y p1 - y p2) * (x p3 - x p4))
      with (cross (sub p2 p1) (sub p4 p3))
      by (unfold cross, sub; cbn [x y]; ring).
    rewrite Hpar, Rabs_R0. rewrite bool_decide_eq_true_2 by lra. reflexivity.
Qed.

Lemma intersect_sound_witness :
  Rabs (1 - 0) = length (sub (mk 0 1) (mk 0 0))
  /\ Physics.intersect (mk 0 0) (mk 2 0) (mk 0 1) (mk 2 1) = None.
Proof.
  split.
  - apply (proj1 (intersect_sound (mk 0 0) (mk 0 2) (mk (-1) 1) (mk 1 1))
             (mk 0 1) (Rabs (1 - 0))).
    apply intersect_vertical_horizontal.
    + reflexivity.
    + replace ((2 - 0) * (-1 - 1)) with (- (4)) by lra.
      rewrite Rabs_Ropp, Rabs_right; lra.
    + lra.
    + lra.
  - apply (proj2 (intersect_sound (mk 0 0) (mk 2 0) (mk 0 1) (mk 2 1))).
    unfold cross, sub. cbn [x y]. ring.
Defined.

End KernelLaws.


(** * The search for the nearest hit *)

Section HitSearch.

Import Vector2.

Variable items : list Item.t.

Lemma scan_segment_sound (g : R) (ray : Ray.t) (item : Item.t)
    (best : option Game.Hit) (s : t * t) (h : Game.Hit) :
  s ∈ Item.get_segments item ->
  Game.scan_segment g ray item best s = Some h ->
  best = Some h \/ (Game.best_item h = item /\ hit_on g ray h).
Proof.
  intros Hs. unfold Game.scan_segment.
  destruct (Physics.intersect _ _ _ _) as [[pt d] |] eqn:Hi; [| auto].
  cbn [fst snd].
  destruct (bool_decide (g < d)) eqn:Hg; cbn [andb]; [| auto].
  destruct (Game.closer d best); [| auto].
  intros H. apply (inj Some) in H. subst h. right. split; [reflexivity |].
  exists s. cbn [Game.best_item Game.best_pt Game.best_dist Game.best_n].
  split.
  - split; [exact Hs |]. split; [exact Hi |]. apply bool_decide_eq_true in Hg. exact Hg.
  - clear Hg. unfold faces. case_bool_decide as Hn.
    + split; [auto |]. rewrite dot_neg_l. lra.
    + split; [auto |]. lra.
Qed.

Lemma scan_item_sound (g : R) (ray : Ray.t) (item : Item.t) (segs : list (t * t)) :
  (forall s, s ∈ segs -> s ∈ Item.get_segments item) ->
  forall (best : option Game.Hit) (h : Game.Hit),
    fold_left (Game.scan_segment g ray item) segs best = Some h ->
    best = Some h \/ (Game.best_item h = item /\ hit_on g ray h).
Proof.
  induction segs as [| s segs IH]; intros Hin best h H; cbn [fold_left] in H; [auto |].
  destruct (IH (fun s' Hs' => Hin s' (list_elem_of_further _ _ _ Hs')) _ _ H) as [Hb | Hh];
    [| auto].
  exact (scan_segment_sound g ray item best s h (Hin s (list_elem_of_here _ _)) Hb).
Qed.

Lemma scan_items_sound (g : R) (ray : Ray.t) (l : list Item.t) :
  forall (best : option Game.Hit) (h : Game.Hit),
    fold_left
      (fun best item =>
         fold_left (Game.scan_segment g ray item) (Item.get_segments item) best)
      l best = Some h ->
    best = Some h \/ (Game.best_item h ∈ l /\ hit_on g ray h).
Proof.
  induction l as [| item l IH]; intros best h H; cbn [fold_left] in H; [auto |].
  destruct (IH _ _ H) as [Hb | [Hl Hh]].
  - destruct (scan_item_sound g ray item _ (fun _ Hs => Hs) best h Hb) as [Hb' | [Hi Hh]];
      [auto |].
    right. split; [| exact Hh]. rewrite Hi. apply list_elem_of_here.
  - right. split; [| exact Hh]. apply list_elem_of_further, Hl.
Qed.

(** X5.  A hit returned by the search is a real one: its item is in the
    scene, the ray's reach crosses one of the item's segments at the
    recorded point and distance, beyond the guard, and the recorded normal
    is a normal of that segment that does not point along the ray. *)
Theorem nearest_hit_sound (g : R) (ray : Ray.t) (h : Game.Hit) :
  Game.nearest_hit items g ray = Some h ->
  Game.best_item h ∈ items /\ hit_on g ray h.
Proof.
  intros H. destruct (scan_items_sound g ray items None h H) as [Hn | Hh].
  - discriminate.
  - exact Hh.
Qed.

Lemma scan_segment_keeps (g : R) (ray : Ray.t) (item : Item.t)
    (best : option Game.Hit) (s : t * t) (d : R) :
  found_within d best -> found_within d (Game.scan_segment g ray item best s).
Proof.
  intros (b & -> & Hb). unfold Game.scan_segment.
  destruct (Physics.intersect _ _ _ _) as [[pt d'] |]; [| exists b; auto].
  cbn [fst snd Game.closer].
  destruct (bool_decide (g < d')); cbn [andb]; [| exists b; auto].
  case_bool_decide as Hc; [| exists b; auto].
  eexists. split; [reflexivity |]. cbn [Game.best_dist]. lra.
Qed.

Lemma scan_segment_catches (g : R) (ray : Ray.t) (item : Item.t)
    (best : option Game.Hit) (s : t * t) (pt : t) (d : R) :
  Physics.intersect (Ray.origin ray) (Ray.get_endpoint ray) (fst s) (snd s)
  = Some (pt, d) ->
  g < d ->
  found_within d (Game.scan_segment g ray item best s).
Proof.
  intros Hi Hg. unfold Game.scan_segment. rewrite Hi. cbn [fst snd].
  rewrite (bool_decide_eq_true_2 _ Hg). cbn [andb].
  destruct best as [b |]; cbn [Game.closer].
  - case_bool_decide as Hc.
    + eexists. split; [reflexivity |]. cbn [Game.best_dist]. lra.
    + exists b. split; [reflexivity |]. lra.
  - eexists. split; [reflexivity |]. cbn [Game.best_dist]. lra.
Qed.

Lemma scan_item_keeps (g : R) (ray : Ray.t) (item : Item.t) (segs : list (t * t)) (d : R) :
  forall best,
    found_within d best ->
    found_within d (fold_left (Game.scan_segment g ray item) segs best).
Proof.
  induction segs as [| s segs IH]; intros best Hb; cbn [fold_left]; [exact Hb |].
  apply IH, scan_segment_keeps, Hb.
Qed.

Lemma scan_item_catches (g : R) (ray : Ray.t) (item : Item.t) (segs : list (t * t))
    (s : t * t) (pt : t) (d : R) :
  s ∈ segs ->
  Physics.intersect (Ray.origin ray) (Ray.get_endpoint ray) (fst s) (snd s)
  = Some (pt, d) ->
  g < d ->
  forall best, found_within d (fold_left (Game.scan_segment g ray item) segs best).
Proof.
  intros Hs Hi Hg. induction segs as [| s' segs IH]; intros best.
  - apply elem_of_nil in Hs. destruct Hs.
  - cbn [fold_left]. apply elem_of_cons in Hs as [<- | Hs].
    + apply scan_item_keeps, (scan_segment_catches g ray item best s pt d Hi Hg).
    + apply (IH Hs).
Qed.

Lemma scan_items_keeps (g : R) (ray : Ray.t) (l : list Item.t) (d : R) :
  forall best,
    found_within d best ->
    found_within d
      (fold_left
         (fun best item =>
            fold_left (Game.scan_segment g ray item) (Item.get_segments item) best)
         l best).
Proof.
  induction l as [| item l IH]; intros best Hb; cbn [fold_left]; [exact Hb |].
  apply IH, scan_item_keeps, Hb.
Qed.

Lemma scan_items_catches (g : R) (ray : Ray.t) (l : list Item.t) (item : Item.t)
    (s : t * t) (pt : t) (d : R) :
  item ∈ l -> crosses g ray item s pt d ->
  forall best,
    found_within d
      (fold_left
         (fun best item =>
            fold_left (Game.scan_segment g ray item) (Item.get_segments item) best)
         l best).
Proof.
  intros Hl (Hs & Hi & Hg). induction l as [| item' l IH]; intros best.
  - apply elem_of_nil in Hl. destruct Hl.
  - cbn [fold_left]. apply elem_of_cons in Hl as [<- | Hl].
    + apply scan_items_keeps, (scan_item_catches g ray item _ s pt d Hs Hi Hg).
    + apply (IH Hl).
Qed.


Lemma reach_length (ray : Ray.t) :
  exists m,
    0 <= m <= 2000
    /\ (Ray.distance_traveled ray <= MAX_RAY_DISTANCE ->
        m <= MAX_RAY_DISTANCE - Ray.distance_traveled ray)
    /\ Ray.get_endpoint ray = add (Ray.origin ray) (mul (Ray.direction ray) m).
Proof.
  unfold Ray.get_endpoint, MAX_RAY_DISTANCE.
  set (m := Rmin 2000 (6000 * Rmax 0 (1.0 - Ray.distance_traveled ray / 6000))).
  exists m. split; [| split; [| reflexivity]].
  - unfold m. split.
    + apply Rmin_glb; [lra |].
      pose proof (Rmax_l 0 (1.0 - Ray.distance_traveled ray / 6000)). lra.
    + apply Rmin_l.
  - intros Hd. unfold m. rewrite Rmax_right by lra.
    eapply Rle_trans; [apply Rmin_r |]. lra.
Qed.

(** X7.  A hit lies within the ray's reach: for a direction of length at
    most 1 it is at most 2000 away and does not take the ray beyond
    [MAX_RAY_DISTANCE]; for a unit direction the hit point is the origin
    moved by the hit distance along the direction. *)
Theorem hit_within_reach (g : R) (ray : Ray.t) (h : Game.Hit) :
  Game.nearest_hit items g ray = Some h ->
  length (Ray.direction ray) <= 1 ->
  0 <= Game.best_dist h <= 2000
  /\ (Ray.distance_traveled ray <= MAX_RAY_DISTANCE ->
      Ray.distance_traveled ray + Game.best_dist h <= MAX_RAY_DISTANCE)
  /\ (length (Ray.direction ray) = 1 ->
      Game.best_pt h
      = add (Ray.origin ray) (mul (Ray.direction ray) (Game.best_dist h))).
Proof.
  intros H Hdir.
  destruct (scan_items_sound g ray items None h H) as [Hn | [_ (s & (_ & Hi & _) & _)]];
    [discriminate |].
  destruct (intersect_some _ _ _ _ _ _ Hi) as (tt & u & Ht & _ & Hpt & _ & Hd).
  destruct (reach_length ray) as (m & Hm & Hbudget & Hend).
  pose proof (length_nonneg (Ray.direction ray)) as Hl.
  assert (Hreach : length (sub (Ray.get_endpoint ray) (Ray.origin ray))
                   = length (Ray.direction ray) * m).
  { rewrite Hend.
    replace (sub (add (Ray.origin ray) (mul (Ray.direction ray) m)) (Ray.origin ray))
      with (mul (Ray.direction ray) m)
      by (unfold add, mul, sub; cbn [x y]; f_equal; ring).
    rewrite length_mul by lra. ring. }
  rewrite Hreach in Hd.
  assert (Hlm : 0 <= length (Ray.direction ray) * m <= m) by nra.
  assert (Hle : 0 <= Game.best_dist h <= m) by (rewrite Hd; nra).
  split; [lra |]. split.
  - intros Hb. specialize (Hbudget Hb). lra.
  - intros Hu. rewrite Hpt, Hd, Hu, Hend. unfold along, add, mul, sub. cbn [x y].
    f_equal; ring.
Qed.

Lemma nearest_hit_budget (g : R) (ray : Ray.t) (h : Game.Hit) :
  Game.nearest_hit items g ray = Some h ->
  length (Ray.direction ray) <= 1 ->
  Ray.distance_traveled ray <= MAX_RAY_DISTANCE ->
  Ray.distance_traveled ray + Game.best_dist h <= MAX_RAY_DISTANCE.
Proof.
  intros H Hdir Hb.
  destruct (scan_items_sound g ray items None h H) as [Hn | [_ (s & (_ & Hi & _) & _)]];
    [discriminate |].
  destruct (intersect_some _ _ _ _ _ _ Hi) as (tt & u & Ht & _ & _ & _ & Hd).
  destruct (reach_length ray) as (m & Hm & Hbudget & Hend).
  pose proof (length_nonneg (Ray.direction ray)) as Hl.
  rewrite Hend in Hd.
  replace (sub (add (Ray.origin ray) (mul (Ray.direction ray) m)) (Ray.origin ray))
    with (mul (Ray.direction ray) m) in Hd
    by (unfold add, mul, sub; cbn [x y]; f_equal; ring).
  rewrite length_mul in Hd by lra.
  assert (Hlm : 0 <= m * length (Ray.direction ray) <= m) by nra.
  specialize (Hbudget Hb). rewrite Hd. nra.
Qed.

Lemma nearest_hit_dist_nonneg (g : R) (ray : Ray.t) (h : Game.Hit) :
  Game.nearest_hit items g ray = Some h -> 0 <= Game.best_dist h.
Proof.
  intros H.
  destruct (scan_items_sound g ray items None h H) as [Hn | [_ (s & (_ & Hi & _) & _)]];
    [discriminate |].
  destruct (intersect_some _ _ _ _ _ _ Hi) as (tt & u & Ht & _ & _ & _ & Hd).
  pose proof (length_nonneg (sub (Ray.get_endpoint ray) (Ray.origin ray))).
  rewrite Hd. nra.
Qed.

End HitSearch.

(** The beam of the mirror scene crosses the mirror 50 ahead. *)
Lemma beam_crosses_mirror :
  crosses 0.1 (beam 0 0) mirror (Vector2.mk 0 50, Vector2.mk 120 50) (Vector2.mk 60 50) 50.
Proof.
  split; [rewrite mirror_segments; apply list_elem_of_here |]. split; [| lra].
  cbn [fst snd]. rewrite get_endpoint_reach by (cbn; lra).
  unfold beam, Vector2.add, Vector2.mul.
  cbn [Ray.origin Ray.direction Vector2.x Vector2.y].
  rewrite (intersect_vertical_horizontal 60 0 (60 + 0 * 2000) (0 + 1 * 2000) 0 120 50).
  - rewrite Rabs_right by lra. do 2 f_equal. lra.
  - lra.
  - replace ((0 + 1 * 2000 - 0) * (0 - 120)) with (- (240000)) by lra.
    rewrite Rabs_Ropp, Rabs_right; lra.
  - lra.
  - lra.
Qed.

Lemma nearest_hit_sound_witness :
  Game.best_item mirror_hit ∈ [mirror] /\ hit_on 0.1 (beam 0 0) mirror_hit.
Proof.
  apply (nearest_hit_sound [mirror] 0.1 (beam 0 0) mirror_hit).
  apply nearest_hit_beam; lra.
Defined.


Lemma hit_within_reach_witness :
  0 <= Game.best_dist mirror_hit <= 2000
  /\ (Ray.distance_traveled (beam 0 0) <= MAX_RAY_DISTANCE ->
      Ray.distance_traveled (beam 0 0) + Game.best_dist mirror_hit <= MAX_RAY_DISTANCE)
  /\ (Vector2.length (Ray.direction (beam 0 0)) = 1 ->
      Game.best_pt mirror_hit
      = Vector2.add (Ray.origin (beam 0 0))
                    (Vector2.mul (Ray.direction (beam 0 0)) (Game.best_dist mirror_hit))).
Proof.
  apply (hit_within_reach [mirror] 0.1 (beam 0 0) mirror_hit).
  - apply nearest_hit_beam; lra.
  - cbn [beam Ray.direction]. rewrite length_of_unit by lra. lra.
Defined.

(** * What a whole call of the tracer keeps *)

Section TracerInvariants.

Import Vector2.

Variable GLASS : Material.t.
Variable items : list Item.t.

Ltac ray_fields :=
  unfold Game.reflected_ray, Game.dispersed_ray, Game.advance_to_hit, Ray.init,
    Ray.set_origin, Ray.set_direction, Ray.set_path, Ray.set_active, Ray.set_bounces,
    Ray.set_material, Ray.set_intensity, Ray.set_distance_traveled;
  cbn [Ray.origin Ray.direction Ray.color Ray.wavelength Ray.is_white Ray.path
       Ray.active Ray.bounces Ray.material Ray.intensity Ray.distance_traveled].

Lemma same_band_refl (r : Ray.t) : same_band r r.
Proof. split; reflexivity. Qed.

Lemma same_band_trans (r a b : Ray.t) : same_band r a -> same_band a b -> same_band r b.
Proof. intros [H1 H2] [H3 H4]. split; congruence. Qed.

Lemma palette_same_band (r a b : Ray.t) : palette r a -> same_band a b -> palette r b.
Proof.
  intros [Ha | [[Hw Hc] | [ior Hs]]] [Hbc Hbw].
  - left. exact (same_band_trans r a b Ha (conj Hbc Hbw)).
  - right. left. split; congruence.
  - right. right. exists ior. rewrite Hbc, Hbw. exact Hs.
Qed.

Lemma same_band_palette (r a b : Ray.t) : same_band r a -> palette a b -> palette r b.
Proof.
  intros Ha [Hb | [Hw | Hs]].
  - left. exact (same_band_trans r a b Ha Hb).
  - right. left. exact Hw.
  - right. right. exact Hs.
Qed.

Lemma palette_trans (r a b : Ray.t) : palette r a -> palette a b -> palette r b.
Proof.
  intros Ha [Hb | [Hw | Hs]].
  - exact (palette_same_band r a b Ha Hb).
  - right. left. exact Hw.
  - right. right. exact Hs.
Qed.

Lemma follows_refl (r : Ray.t) : follows 0 r r.
Proof.
  split; [apply same_band_refl |]. split; [reflexivity |].
  split; [exists []; split; [symmetry; apply app_nil_r | reflexivity] |].
  split; [lia |]. split; [lra | auto].
Qed.

Lemma follows_weaken (k k' : nat) (r r' : Ray.t) :
  (k <= k')%nat -> follows k r r' -> follows k' r r'.
Proof.
  intros Hk (Hb & Hw & (ext & Hp & Hl) & Hrest).
  split; [exact Hb |]. split; [exact Hw |]. split; [| exact Hrest].
  exists ext. split; [exact Hp | lia].
Qed.

Lemma follows_trans (a b : nat) (r1 r2 r3 : Ray.t) :
  follows a r1 r2 -> follows b r2 r3 -> follows (a + b) r1 r3.
Proof.
  intros (Hb1 & Hw1 & (e1 & Hp1 & Hl1) & Hn1 & Hd1 & Ht1)
         (Hb2 & Hw2 & (e2 & Hp2 & Hl2) & Hn2 & Hd2 & Ht2).
  split; [exact (same_band_trans _ _ _ Hb1 Hb2) |]. split; [congruence |].
  split.
  { exists (e1 ++ e2). split.
    - rewrite Hp2, Hp1. symmetry. apply app_assoc.
    - rewrite length_app. lia. }
  split; [lia |]. split; [lra | auto].
Qed.

Lemma reflect_length (inc n : t) : length (Physics.reflect inc n) <= 1.
Proof. unfold Physics.reflect. apply normalize_length_le_1. Qed.

Lemma refract_length (inc n : t) (n1 n2 : R) (v : t) :
  Physics.refract inc n n1 n2 = Some v -> length v <= 1.
Proof.
  unfold Physics.refract. intros H.
  destruct (bool_decide (_ > 1)); [discriminate |].
  apply (inj Some) in H. subst v. apply normalize_length_le_1.
Qed.

Lemma turned_tidy (r r' : Ray.t) : room r -> turned r r' -> tidy r'.
Proof.
  intros (Hb & Hd & Ht) (_ & _ & _ & Hdist & Hbs & Hdir).
  split; [lia |]. split; [destruct Hdir as [-> | Hl]; assumption |].
  rewrite Hdist. unfold MAX_RAY_DISTANCE in *. split; [lra | intros _; lra].
Qed.

Lemma reflected_offspring (pal : Ray.t -> Ray.t -> Prop) (r : Ray.t) (h : Game.Hit)
    (c : Color) (w : string) (white : bool) (Rf : R) :
  pal r (Game.reflected_ray r h c w white Rf) ->
  offspring pal room r (Game.reflected_ray r h c w white Rf).
Proof.
  intros Hp. split; [ray_fields; lia |]. split; [exact Hp |].
  intros (Hb & Hd & Ht). unfold tidy. ray_fields.
  split; [lia |]. split; [apply normalize_length_le_1 |].
  unfold MAX_RAY_DISTANCE in *. split; [lra | intros _; lra].
Qed.

Lemma dispersed_offspring (r : Ray.t) (h : Game.Hit) (new_dir : t) (ccol : Color)
    (cname : string) (T ior : R) :
  (cname, ccol, ior) ∈ SPECTRUM ->
  offspring palette room r (Game.dispersed_ray r h new_dir ccol cname T).
Proof.
  intros Hs. split; [ray_fields; lia |]. split.
  { right. right. exists ior. exact Hs. }
  intros (Hb & Hd & Ht). unfold tidy. ray_fields.
  split; [lia |]. split; [apply normalize_length_le_1 |].
  unfold MAX_RAY_DISTANCE in *. split; [lra | intros _; lra].
Qed.

(** A spawned ray, traced by [rec], and the rays that call added. *)
Lemma spawned_offspring (pal pal' : Ray.t -> Ray.t -> Prop) (pre : Ray.t -> Prop)
    (k : nat) (rec : Ray.t -> option Game.result) (r c0 c : Ray.t) (out : list Ray.t) :
  (forall a b, pal r a -> same_band a b -> pal r b) ->
  (forall a b, pal r a -> pal' a b -> pal r b) ->
  contract k pal' rec ->
  offspring pal pre r c0 ->
  rec c0 = Some (c, out) ->
  offspring pal pre r c /\ Forall (offspring pal pre r) out.
Proof.
  intros Hsame Hcomp Hrec (Hb0 & Hp0 & Ht0) Hc.
  destruct (Hrec c0 c out Hc) as ((Hband & _ & _ & Hbs & _ & Ht) & Hout).
  split.
  - split; [lia |]. split; [exact (Hsame c0 c Hp0 Hband) | auto].
  - eapply Forall_impl; [exact Hout |].
    intros d (Hbd & Hpd & Htd). split; [lia |]. split; [exact (Hcomp c0 d Hp0 Hpd) | auto].
Qed.

Lemma spawn_color_offspring (pal : Ray.t -> Ray.t -> Prop) (pre : Ray.t -> Prop)
    (k : nat) (rec : Ray.t -> option Game.result) (r c0 : Ray.t) (l : list Ray.t) :
  (forall a b, pal r a -> same_band a b -> pal r b) ->
  contract k same_band rec ->
  offspring pal pre r c0 ->
  Game.spawn_color rec c0 = Some l ->
  Forall (offspring pal pre r) l.
Proof.
  intros Hsame Hrec H0 H. unfold Game.spawn_color in H.
  destruct (rec c0) as [[c out] |] eqn:Hc; [| discriminate].
  cbn [mbind option_bind] in H. apply (inj Some) in H. subst l.
  destruct (spawned_offspring pal same_band pre k rec r c0 c out Hsame Hsame Hrec H0 Hc).
  apply Forall_cons; split; assumption.
Qed.

Lemma spawn_trace_offspring (pre : Ray.t -> Prop)
    (k : nat) (rec : Ray.t -> option Game.result) (r c0 : Ray.t) (l : list Ray.t) :
  contract k palette rec ->
  offspring palette pre r c0 ->
  Game.spawn_trace rec c0 = Some l ->
  Forall (offspring palette pre r) l.
Proof.
  intros Hrec H0 H. unfold Game.spawn_trace in H.
  destruct (rec c0) as [[c out] |] eqn:Hc; [| discriminate].
  cbn [mbind option_bind] in H. apply (inj Some) in H. subst l.
  destruct (spawned_offspring palette palette pre k rec r c0 c out
              (palette_same_band r) (palette_trans r) Hrec H0 Hc).
  apply Forall_cons; split; assumption.
Qed.

(** *** trace_color *)

Lemma color_boundary_keeps (rec : Ray.t -> option Game.result) (r : Ray.t)
    (h : Game.Hit) (entering : bool) (n1 n2 : R)
    (fl : Game.flow) (r' : Ray.t) (new : list Ray.t) :
  contract 10 same_band rec ->
  Game.color_boundary GLASS rec r h entering n1 n2 = Some (fl, r', new) ->
  turned r r' /\ Forall (offspring same_band room r) new.
Proof.
  intros Hrec. unfold Game.color_boundary.
  set (Rf := Physics.fresnel_reflectance (Ray.direction r) (Game.best_n h) n1 n2).
  destruct (if bool_decide (Rf > 0.01) then _ else _) as [spawned |] eqn:Hsp;
    [| discriminate].
  cbn [mbind option_bind].
  assert (Hnew : Forall (offspring same_band room r) spawned).
  { destruct (bool_decide (Rf > 0.01)).
    - eapply (spawn_color_offspring same_band room 10 rec r);
        [exact (same_band_trans r) | exact Hrec | | exact Hsp].
      apply reflected_offspring. split; reflexivity.
    - apply (inj Some) in Hsp. subst spawned. apply Forall_nil. constructor. }
  intros H.
  assert (Hstop : turned r (Ray.set_active false r)).
  { repeat split; ray_fields; first [reflexivity | lia | auto]. }
  destruct (bool_decide (1.0 - Rf > 0.01)).
  - destruct (Physics.refract _ _ n1 n2) as [new_dir |] eqn:Hr.
    + apply (inj Some) in H. injection H as <- <- <-. split; [| exact Hnew].
      repeat split; ray_fields; first [reflexivity | lia | idtac].
      right. exact (refract_length _ _ _ _ _ Hr).
    + apply (inj Some) in H. injection H as <- <- <-. split; assumption.
  - apply (inj Some) in H. injection H as <- <- <-. split; assumption.
Qed.

(** From the state after a hit back to the state before it. *)
Lemma after_hit (pal : Ray.t -> Ray.t -> Prop) (g : R) (ray : Ray.t) (h : Game.Hit)
    (ray' : Ray.t) (new : list Ray.t) :
  (forall c, pal (Game.advance_to_hit ray h) c -> pal ray c) ->
  (Ray.bounces ray < 10)%Z ->
  ~ Ray.distance_traveled ray >= MAX_RAY_DISTANCE ->
  Game.nearest_hit items g ray = Some h ->
  turned (Game.advance_to_hit ray h) ray' ->
  Forall (offspring pal room (Game.advance_to_hit ray h)) new ->
  follows 1 ray ray' /\ Forall (offspring pal tidy ray) new.
Proof.
  intros Hpal Hb Hd Hh Hturn Hnew.
  pose proof (nearest_hit_dist_nonneg items g ray h Hh) as Hpos.
  assert (Hroom : tidy ray -> room (Game.advance_to_hit ray h)).
  { intros (_ & Hdir & _). split; [exact Hb |]. split; [exact Hdir |].
    ray_fields. apply (nearest_hit_budget items g ray h Hh Hdir). lra. }
  split.
  - pose proof Hturn as Hturn'.
    destruct Hturn as (Hband & Hw & Hp & Hdist & Hbs & Hdir).
    split; [exact Hband |]. split; [exact Hw |]. split.
    { eexists. split; [rewrite Hp; reflexivity | cbn; lia]. }
    split; [exact (proj1 Hbs) |]. split.
    { rewrite Hdist. ray_fields. lra. }
    intros Ht. exact (turned_tidy (Game.advance_to_hit ray h) ray' (Hroom Ht) Hturn').
  - eapply Forall_impl; [exact Hnew |].
    intros c (Hbc & Hpc & Htc). split; [exact Hbc |]. split; [exact (Hpal c Hpc) |].
    intros Ht. exact (Htc (Hroom Ht)).
Qed.

Lemma no_hit_follows (ray : Ray.t) :
  ~ Ray.distance_traveled ray >= MAX_RAY_DISTANCE -> follows 1 ray (Game.no_hit ray).
Proof.
  intros Hd. unfold follows, same_band, tidy, Game.no_hit. ray_fields.
  unfold MAX_RAY_DISTANCE in *.
  repeat case_bool_decide; ray_fields;
    (split; [split; reflexivity |]; split; [reflexivity |]; split;
     [first [eexists; split; [reflexivity | cbn; lia]
            | exists []; split; [symmetry; apply app_nil_r | cbn; lia]] |];
     split; [lia |]; split; [lra |];
     intros (Hb & Hdir & _); split; [exact Hb |]; split; [exact Hdir |];
     split; [lra | discriminate]).
Qed.

Lemma stop_follows (ray : Ray.t) : follows 0 ray (Ray.set_active false ray).
Proof.
  split; [split; reflexivity |]. split; [reflexivity |].
  split; [exists []; split; [symmetry; apply app_nil_r | reflexivity] |].
  split; [ray_fields; lia |]. split; [ray_fields; lra |].
  intros (Hb & Hdir & Hd & _). split; [exact Hb |]. split; [exact Hdir |].
  split; [exact Hd | discriminate].
Qed.

Lemma mirror_turned (r : Ray.t) (b : Z) (v : t) :
  (Ray.bounces r <= b <= Ray.bounces r + 1)%Z -> length v <= 1 ->
  turned r (Ray.set_bounces b (Ray.set_direction v r)).
Proof.
  intros Hb Hv. repeat split; ray_fields; first [reflexivity | lia | idtac].
  right. exact Hv.
Qed.

Lemma trace_color_body_keeps (rec : Ray.t -> option Game.result) (guard : R)
    (ray : Ray.t) (fl : Game.flow) (ray' : Ray.t) (new : list Ray.t) :
  contract 10 same_band rec ->
  Game.trace_color_body GLASS items rec guard ray = Some (fl, ray', new) ->
  follows 1 ray ray' /\ Forall (offspring same_band tidy ray) new.
Proof.
  intros Hrec. unfold Game.trace_color_body.
  destruct (negb (Ray.active ray) || bool_decide (Ray.bounces ray >= 10)%Z) eqn:Hhead.
  { intros H. apply (inj Some) in H. injection H as <- <- <-.
    split; [apply (follows_weaken 0); [lia | apply follows_refl] | constructor]. }
  apply head_passed in Hhead as [_ Hb].
  case_bool_decide as Hd.
  { intros H. apply (inj Some) in H. injection H as <- <- <-.
    split; [apply (follows_weaken 0); [lia | apply stop_follows] | constructor]. }
  destruct (Game.nearest_hit items guard ray) as [h |] eqn:Hh.
  - cbv zeta. destruct (Game.is_mirror (Game.best_item h)).
    { intros H. apply (inj Some) in H. injection H as <- <- <-.
      apply (after_hit same_band guard ray h); try assumption.
      - intros c Hc. exact Hc.
      - apply mirror_turned; [ray_fields; lia | apply reflect_length].
      - constructor. }
    destruct (Game.is_polygon (Game.best_item h)).
    + intros H. apply color_boundary_keeps in H as [Hturn Hnew]; [| exact Hrec].
      apply (after_hit same_band guard ray h); try assumption.
      intros c Hc. exact Hc.
    + destruct (if bool_decide (deref GLASS (Ray.material (Game.advance_to_hit ray h))
                                = GLASS) && negb (Game.entering_at h)
                then _ else _) as [n1 n2].
      intros H. apply color_boundary_keeps in H as [Hturn Hnew]; [| exact Hrec].
      apply (after_hit same_band guard ray h); try assumption.
      intros c Hc. exact Hc.
  - intros H. apply (inj Some) in H. injection H as <- <- <-.
    split; [apply no_hit_follows, Hd | constructor].
Qed.

Lemma offspring_later (pal : Ray.t -> Ray.t -> Prop) (k : nat) (r r1 c : Ray.t) :
  (forall a, same_band r a -> forall b, pal a b -> pal r b) ->
  follows k r r1 -> offspring pal tidy r1 c -> offspring pal tidy r c.
Proof.
  intros Hpal (Hband & _ & _ & Hb & _ & Ht) (Hbc & Hpc & Htc).
  split; [lia |]. split; [exact (Hpal r1 Hband c Hpc) | auto].
Qed.

Lemma trace_color_loop_keeps (rec : Ray.t -> option Game.result) (guard : R) (k : nat) :
  contract 10 same_band rec ->
  forall (ray : Ray.t) (out : list Ray.t) (ray' : Ray.t) (out' : list Ray.t),
    Game.trace_color_loop GLASS items rec guard k ray out = Some (ray', out') ->
    follows k ray ray'
    /\ exists new, out' = out ++ new /\ Forall (offspring same_band tidy ray) new.
Proof.
  intros Hrec. induction k as [| k IH]; intros ray out ray' out' H.
  - cbn [Game.trace_color_loop] in H. apply (inj Some) in H. injection H as <- <-.
    split; [apply follows_refl |]. exists []. split; [symmetry; apply app_nil_r | constructor].
  - rewrite trace_color_loop_step in H.
    destruct (Game.trace_color_body GLASS items rec guard ray) as [[[fl ray1] new] |] eqn:Hbody;
      [| discriminate].
    cbn [mbind option_bind] in H.
    destruct (trace_color_body_keeps rec guard ray fl ray1 new Hrec Hbody) as [Hf Hnew].
    destruct fl.
    + destruct (IH ray1 (out ++ new) ray' out' H) as (Hf' & new' & -> & Hnew').
      split; [exact (follows_trans 1 k ray ray1 ray' Hf Hf') |].
      exists (new ++ new'). split; [symmetry; apply app_assoc |].
      apply Forall_app. split; [exact Hnew |].
      eapply Forall_impl; [exact Hnew' |]. intros c Hc.
      apply (offspring_later same_band 1 ray ray1 c); [| exact Hf | exact Hc].
      intros a Ha b Hb. exact (same_band_trans ray a b Ha Hb).
    + apply (inj Some) in H. injection H as <- <-.
      split; [apply (follows_weaken 1); [lia | exact Hf] |].
      exists new. split; [reflexivity | exact Hnew].
Qed.

Lemma trace_color_depth_keeps (guard : R) (depth : nat) :
  contract 10 same_band (Game.trace_color_depth GLASS items guard depth).
Proof.
  induction depth as [| depth IH]; intros r r' out H; [discriminate |].
  rewrite trace_color_depth_step in H.
  destruct (trace_color_loop_keeps _ guard 10 IH r [] r' out H) as (Hf & new & -> & Hnew).
  split; [exact Hf | exact Hnew].
Qed.

(** *** trace *)

Lemma spectral_split_keeps (rec : Ray.t -> option Game.result)
    (bands : list (string * Color * R)) (r : Ray.t) (h : Game.Hit) (T : R) :
  contract 10 same_band rec ->
  (forall b, b ∈ bands -> b ∈ SPECTRUM) ->
  forall l,
    Game.spectral_split GLASS rec bands r h T = Some l ->
    Forall (offspring palette room r) l.
Proof.
  intros Hrec. induction bands as [| [[cname ccol] ior] bands IH]; intros Hin l H.
  - cbn [Game.spectral_split] in H. apply (inj Some) in H. subst l. constructor.
  - cbn [Game.spectral_split] in H.
    assert (Hhere : (cname, ccol, ior) ∈ SPECTRUM) by apply Hin, list_elem_of_here.
    assert (Hrest : forall b, b ∈ bands -> b ∈ SPECTRUM).
    { intros b Hb. apply Hin, list_elem_of_further, Hb. }
    destruct (Physics.refract _ _ _ _) as [new_dir |].
    + destruct (rec (Game.dispersed_ray r h new_dir ccol cname T)) as [[c out] |] eqn:Hc;
        [| discriminate].
      cbn [mbind option_bind] in H.
      destruct (Game.spectral_split GLASS rec bands r h T) as [more |]; [| discriminate].
      cbn [mbind option_bind] in H. apply (inj Some) in H. subst l.
      destruct (spawned_offspring palette same_band room 10 rec r _ c out
                  (palette_same_band r) (palette_same_band r) Hrec
                  (dispersed_offspring r h new_dir ccol cname T ior Hhere) Hc)
        as [Hown Hout].
      apply Forall_app. split; [| exact (IH Hrest more eq_refl)].
      apply Forall_app. split; [exact Hout |]. apply Forall_cons. split; [exact Hown | constructor].
    + cbn [mbind option_bind] in H.
      destruct (Game.spectral_split GLASS rec bands r h T) as [more |]; [| discriminate].
      cbn [mbind option_bind] in H. apply (inj Some) in H. subst l.
      exact (IH Hrest more eq_refl).
Qed.

Lemma stop_turned (r : Ray.t) : turned r (Ray.set_active false r).
Proof. repeat split; ray_fields; first [reflexivity | lia | auto]. Qed.

Lemma turned_refl (r : Ray.t) : turned r r.
Proof. repeat split; first [reflexivity | lia | auto]. Qed.

Lemma trace_polygon_keeps (trace_rec color_rec : Ray.t -> option Game.result)
    (r : Ray.t) (h : Game.Hit) (fl : Game.flow) (r' : Ray.t) (new : list Ray.t) :
  contract 20 palette trace_rec ->
  contract 10 same_band color_rec ->
  Game.trace_polygon GLASS trace_rec color_rec r h = Some (fl, r', new) ->
  turned r r' /\ Forall (offspring palette room r) new.
Proof.
  intros Ht Hc. unfold Game.trace_polygon.
  set (n := if Ray.is_white r then _ else _). destruct n as [n1 n2].
  set (Rf := Physics.fresnel_reflectance (Ray.direction r) (Game.best_n h) n1 n2).
  destruct (if bool_decide (Rf > 0.01) && bool_decide (Ray.intensity r * Rf > 0.01)
            then _ else _) as [spawned |] eqn:Hsp; [| discriminate].
  cbn [mbind option_bind].
  assert (Hnew : Forall (offspring palette room r) spawned).
  { destruct (_ && _).
    - eapply (spawn_trace_offspring room 20 trace_rec r); [exact Ht | | exact Hsp].
      apply reflected_offspring. left. split; reflexivity.
    - apply (inj Some) in Hsp. subst spawned. constructor. }
  intros H.
  destruct (bool_decide (1.0 - Rf > 0.01) && bool_decide (Ray.intensity r * (1.0 - Rf) > 0.01)).
  - destruct (Ray.is_white r && Game.entering_at h).
    + destruct (Game.spectral_split GLASS color_rec SPECTRUM (Ray.set_active false r) h
                  (1.0 - Rf)) as [split |] eqn:Hsplit; [| discriminate].
      cbn [mbind option_bind] in H. apply (inj Some) in H. injection H as <- <- <-.
      split; [apply stop_turned |]. apply Forall_app. split; [exact Hnew |].
      exact (spectral_split_keeps color_rec SPECTRUM (Ray.set_active false r) h _ Hc
               (fun _ Hb => Hb) split Hsplit).
    + destruct (Physics.refract _ _ n1 n2) as [new_dir |] eqn:Hr.
      * apply (inj Some) in H. injection H as <- <- <-. split; [| exact Hnew].
        repeat split; ray_fields; first [reflexivity | lia | idtac].
        right. exact (refract_length _ _ _ _ _ Hr).
      * apply (inj Some) in H. injection H as <- <- <-.
        split; [apply stop_turned | exact Hnew].
  - apply (inj Some) in H. injection H as <- <- <-.
    split; [apply stop_turned | exact Hnew].
Qed.

Lemma trace_lens_keeps (trace_rec color_rec : Ray.t -> option Game.result)
    (r : Ray.t) (h : Game.Hit) (fl : Game.flow) (r' : Ray.t) (new : list Ray.t) :
  contract 20 palette trace_rec ->
  contract 10 same_band color_rec ->
  Game.trace_lens GLASS trace_rec color_rec r h = Some (fl, r', new) ->
  turned r r' /\ Forall (offspring palette room r) new.
Proof.
  intros Ht Hc. unfold Game.trace_lens.
  destruct (Ray.is_white r && Game.entering_at h).
  - set (Rf := Physics.fresnel_reflectance _ _ _ _).
    destruct (if bool_decide (Rf > 0.01) then _ else _) as [spawned |] eqn:Hsp;
      [| discriminate].
    cbn [mbind option_bind].
    assert (Hnew : Forall (offspring palette room r) spawned).
    { destruct (bool_decide (Rf > 0.01)).
      - eapply (spawn_trace_offspring room 20 trace_rec r); [exact Ht | | exact Hsp].
        apply reflected_offspring. right. left. split; reflexivity.
      - apply (inj Some) in Hsp. subst spawned. constructor. }
    intros H. destruct (bool_decide (1.0 - Rf > 0.01)).
    + destruct (Game.spectral_split GLASS color_rec SPECTRUM (Ray.set_active false r) h
                  (1.0 - Rf)) as [split |] eqn:Hsplit; [| discriminate].
      cbn [mbind option_bind] in H. apply (inj Some) in H. injection H as <- <- <-.
      split; [apply stop_turned |]. apply Forall_app. split; [exact Hnew |].
      exact (spectral_split_keeps color_rec SPECTRUM (Ray.set_active false r) h _ Hc
               (fun _ Hb => Hb) split Hsplit).
    + apply (inj Some) in H. injection H as <- <- <-.
      split; [apply turned_refl | exact Hnew].
  - set (c := if bool_decide (deref GLASS (Ray.material r) = GLASS)
                 && negb (Game.entering_at h) then _ else _).
    assert (Hcs : exists m, snd c = Ray.set_material m r).
    { unfold c. destruct (bool_decide _ && negb _); [| destruct (Game.entering_at h)];
        cbn [snd]; [| eexists; reflexivity | eexists; reflexivity].
      exists (Ray.material r). destruct r. reflexivity. }
    destruct c as [[n1 n2] r1]. cbn [snd] in Hcs. destruct Hcs as [m ->].
    set (Rf := Physics.fresnel_reflectance _ (Game.best_n h) n1 n2).
    destruct (if bool_decide (Rf > 0.01) then _ else _) as [spawned |] eqn:Hsp;
      [| discriminate].
    cbn [mbind option_bind].
    assert (Hnew : Forall (offspring palette room r) spawned).
    { destruct (bool_decide (Rf > 0.01)).
      - eapply (spawn_color_offspring palette room 10 color_rec r);
          [exact (palette_same_band r) | exact Hc | | exact Hsp].
        apply (reflected_offspring palette (Ray.set_material m r)).
        left. split; reflexivity.
      - apply (inj Some) in Hsp. subst spawned. constructor. }
    intros H. destruct (bool_decide (1.0 - Rf > 0.01)).
    + destruct (Physics.refract _ _ n1 n2) as [new_dir |] eqn:Hr.
      * apply (inj Some) in H. injection H as <- <- <-. split; [| exact Hnew].
        repeat split; ray_fields; first [reflexivity | lia | idtac].
        right. exact (refract_length _ _ _ _ _ Hr).
      * apply (inj Some) in H. injection H as <- <- <-. split; [| exact Hnew].
        repeat split; ray_fields; first [reflexivity | lia | auto].
    + apply (inj Some) in H. injection H as <- <- <-. split; [| exact Hnew].
      repeat split; ray_fields; first [reflexivity | lia | auto].
Qed.

Lemma trace_body_keeps (trace_rec color_rec : Ray.t -> option Game.result) (guard : R)
    (ray : Ray.t) (fl : Game.flow) (ray' : Ray.t) (new : list Ray.t) :
  contract 20 palette trace_rec ->
  contract 10 same_band color_rec ->
  Game.trace_body GLASS items trace_rec color_rec guard ray = Some (fl, ray', new) ->
  follows 1 ray ray' /\ Forall (offspring palette tidy ray) new.
Proof.
  intros Ht Hc. unfold Game.trace_body.
  destruct (negb (Ray.active ray) || bool_decide (Ray.bounces ray >= 10)%Z) eqn:Hhead.
  { intros H. apply (inj Some) in H. injection H as <- <- <-.
    split; [apply (follows_weaken 0); [lia | apply follows_refl] | constructor]. }
  apply head_passed in Hhead as [_ Hb].
  case_bool_decide as Hd.
  { intros H. apply (inj Some) in H. injection H as <- <- <-.
    split; [apply (follows_weaken 0); [lia | apply stop_follows] | constructor]. }
  destruct (Game.nearest_hit items guard ray) as [h |] eqn:Hh.
  - cbv zeta. case_bool_decide as Hdim.
    { intros H. apply (inj Some) in H. injection H as <- <- <-.
      apply (after_hit palette guard ray h); try assumption.
      - intros c Hpc. exact Hpc.
      - apply stop_turned.
      - constructor. }
    destruct (Game.is_mirror (Game.best_item h)).
    { intros H. apply (inj Some) in H. injection H as <- <- <-.
      apply (after_hit palette guard ray h); try assumption.
      - intros c Hpc. exact Hpc.
      - apply mirror_turned; [ray_fields; lia | apply reflect_length].
      - constructor. }
    destruct (Game.is_polygon (Game.best_item h)).
    + intros H. apply trace_polygon_keeps in H as [Hturn Hnew]; [| exact Ht | exact Hc].
      apply (after_hit palette guard ray h); try assumption.
      intros c Hpc. exact Hpc.
    + intros H. apply trace_lens_keeps in H as [Hturn Hnew]; [| exact Ht | exact Hc].
      apply (after_hit palette guard ray h); try assumption.
      intros c Hpc. exact Hpc.
  - intros H. apply (inj Some) in H. injection H as <- <- <-.
    split; [apply no_hit_follows, Hd | constructor].
Qed.

Lemma trace_loop_keeps (trace_rec color_rec : Ray.t -> option Game.result) (guard : R)
    (k : nat) :
  contract 20 palette trace_rec ->
  contract 10 same_band color_rec ->
  forall (ray : Ray.t) (out : list Ray.t) (ray' : Ray.t) (out' : list Ray.t),
    Game.trace_loop GLASS items trace_rec color_rec guard k ray out = Some (ray', out') ->
    follows k ray ray'
    /\ exists new, out' = out ++ new /\ Forall (offspring palette tidy ray) new.
Proof.
  intros Ht Hc. induction k as [| k IH]; intros ray out ray' out' H.
  - cbn [Game.trace_loop] in H. apply (inj Some) in H. injection H as <- <-.
    split; [apply follows_refl |]. exists []. split; [symmetry; apply app_nil_r | constructor].
  - rewrite trace_loop_step in H.
    destruct (Game.trace_body GLASS items trace_rec color_rec guard ray)
      as [[[fl ray1] new] |] eqn:Hbody; [| discriminate].
    cbn [mbind option_bind] in H.
    destruct (trace_body_keeps trace_rec color_rec guard ray fl ray1 new Ht Hc Hbody)
      as [Hf Hnew].
    destruct fl.
    + destruct (IH ray1 (out ++ new) ray' out' H) as (Hf' & new' & -> & Hnew').
      split; [exact (follows_trans 1 k ray ray1 ray' Hf Hf') |].
      exists (new ++ new'). split; [symmetry; apply app_assoc |].
      apply Forall_app. split; [exact Hnew |].
      eapply Forall_impl; [exact Hnew' |]. intros c Hoc.
      apply (offspring_later palette 1 ray ray1 c); [| exact Hf | exact Hoc].
      intros a Ha b Hb. exact (same_band_palette ray a b Ha Hb).
    + apply (inj Some) in H. injection H as <- <-.
      split; [apply (follows_weaken 1); [lia | exact Hf] |].
      exists new. split; [reflexivity | exact Hnew].
Qed.

Lemma trace_depth_keeps (guard guard_color : R) (depth : nat) :
  contract 20 palette (Game.trace_depth GLASS items guard guard_color depth).
Proof.
  induction depth as [| depth IH]; intros r r' out H; [discriminate |].
  rewrite trace_depth_step in H.
  destruct (trace_loop_keeps _ _ guard 20 IH (trace_color_depth_keeps guard_color depth)
              r [] r' out H) as (Hf & new & -> & Hnew).
  split; [exact Hf | exact Hnew].
Qed.

(** The routines return on every ray. *)
Lemma trace_returns (ray : Ray.t) : is_Some (Game.trace GLASS items ray).
Proof.
  destruct (trace_depth_spec GLASS items 0.1 1.0 (Game.depth_for ray) ray)
    as (ray' & out & He & _).
  - unfold headroom, Game.depth_for. lia.
  - unfold Game.trace. rewrite He. eexists. reflexivity.
Qed.

Lemma trace_color_returns (ray : Ray.t) : is_Some (Game.trace_color GLASS items ray).
Proof.
  destruct (trace_color_depth_spec GLASS items 1.0 (Game.depth_for ray) ray)
    as (ray' & out & He & _).
  - unfold headroom, Game.depth_for. lia.
  - unfold Game.trace_color. rewrite He. eexists. reflexivity.
Qed.

Lemma within_limits (rec : Ray.t -> option Game.result) (k : nat)
    (pal : Ray.t -> Ray.t -> Prop) (ray : Ray.t) :
  contract k pal rec -> is_Some (rec ray) -> tidy ray ->
  exists ray' out,
    rec ray = Some (ray', out)
    /\ tidy ray'
    /\ Forall (fun c => tidy c /\ (Ray.bounces ray < Ray.bounces c)%Z) out.
Proof.
  intros Hrec [[ray' out] He] Htidy. exists ray', out. split; [exact He |].
  destruct (Hrec ray ray' out He) as ((_ & _ & _ & _ & _ & Ht) & Hout).
  split; [exact (Ht Htidy) |].
  eapply Forall_impl; [exact Hout |]. intros c (Hb & _ & Hc). auto.
Qed.




End TracerInvariants.


(** * The outline of an item *)

Section Outline.

Lemma nth_map_seq {A : Type} (f : nat -> A) (n i : nat) (d : A) :
  (i < n)%nat -> nth i (map f (seq 0 n)) d = f i.
Proof.
  intros Hi. rewrite (nth_indep _ d (f 0%nat)) by (rewrite length_map, length_seq; exact Hi).
  rewrite map_nth, seq_nth by exact Hi. reflexivity.
Qed.

(** X11.  The segments of an item form a closed chain through its shape
    points: the segments start at the shape points in order, each ends
    where the next one starts, and the last one ends at the first point. *)
Theorem get_segments_chain (item : Item.t) :
  map fst (Item.get_segments item) = Item.shape item
  /\ map snd (Item.get_segments item)
     = match Item.shape item with
       | [] => []
       | p :: rest => rest ++ [p]
       end.
Proof.
  unfold Item.get_segments. rewrite !map_map. cbn [fst snd].
  set (d := Vector2.mk 0 0). split.
  - apply (nth_ext _ _ d d).
    + rewrite length_map, length_seq. reflexivity.
    + intros i Hi. rewrite length_map, length_seq in Hi.
      rewrite nth_map_seq by exact Hi. reflexivity.
  - destruct (Item.shape item) as [| p rest]; [reflexivity |].
    apply (nth_ext _ _ d d).
    + rewrite length_map, length_seq, length_app. cbn [List.length]. lia.
    + intros i Hi. rewrite length_map, length_seq in Hi.
      rewrite nth_map_seq by exact Hi. cbn [List.length] in *.
      destruct (decide (i = List.length rest)) as [-> | Hne].
      * replace (List.length rest + 1)%nat with (S (List.length rest)) by lia.
        rewrite Nat.Div0.mod_same. rewrite app_nth2 by lia.
        rewrite Nat.sub_diag. reflexivity.
      * rewrite Nat.mod_small by lia. rewrite app_nth1 by lia.
        replace (i + 1)%nat with (S i) by lia. reflexivity.
Qed.

End Outline.

(** * Sensors *)

Section SensorLaws.

Import Vector2.

(** The clamped projection is the point of the leg nearest to [q]. *)
Lemma closest_point_nearest (q p1 l : t) (tt : R) :
  0 < dot l l -> 0 <= tt <= 1 ->
  length (sub q (add p1 (mul l (Rmax 0 (Rmin 1 (dot (sub q p1) l / dot l l))))))
  <= length (sub q (add p1 (mul l tt))).
Proof.
  intros HL Ht.
  set (L := dot l l) in *. set (D := dot (sub q p1) l).
  assert (HD : D / L * L = D) by (field; lra).
  set (s := D / L) in *.
  assert (Hdiff : forall a b : R,
             ((x q - (x p1 + x l * b)) ^ 2 + (y q - (y p1 + y l * b)) ^ 2)
             - ((x q - (x p1 + x l * a)) ^ 2 + (y q - (y p1 + y l * a)) ^ 2)
             = (b - a) * ((b + a) * L - 2 * D)).
  { intros a b. unfold L, D, dot, sub. cbn [x y]. ring. }
  unfold length, sub, add, mul. cbn [x y]. apply sqrt_le_1_alt.
  set (t0 := Rmax 0 (Rmin 1 s)).
  specialize (Hdiff t0 tt).
  assert (Hprod : 0 <= (tt - t0) * ((tt + t0) * L - 2 * D)).
  { rewrite <- HD. unfold t0, Rmax, Rmin.
    destruct (Rle_dec 1 s) as [H1 | H1].
    - destruct (Rle_dec 0 1); [| lra].
      replace ((tt - 1) * ((tt + 1) * L - 2 * (s * L)))
        with ((1 - tt) * L * ((1 - tt) + 2 * (s - 1))) by ring.
      apply Rmult_le_pos; [apply Rmult_le_pos; lra | lra].
    - destruct (Rle_dec 0 s) as [H0 | H0].
      + replace ((tt - s) * ((tt + s) * L - 2 * (s * L))) with ((tt - s) ^ 2 * L) by ring.
        apply Rmult_le_pos; [apply pow2_ge_0 | lra].
      + replace ((tt - 0) * ((tt + 0) * L - 2 * (s * L)))
          with (tt * L * (tt + 2 * (- s))) by ring.
        apply Rmult_le_pos; [apply Rmult_le_pos; lra | lra]. }
  lra.
Qed.

Lemma check_segments_exact (self : Sensor.t) (path : list (R * R)) :
  Sensor.check_segments self path = true
  <-> exists a b, (a, b) ∈ legs path /\ in_range self a b.
Proof.
  induction path as [| a rest IH].
  { split; [discriminate | intros (a & b & Hin & _); apply elem_of_nil in Hin; destruct Hin]. }
  destruct rest as [| b rest].
  { split; [discriminate | intros (a' & b & Hin & _); apply elem_of_nil in Hin; destruct Hin]. }
  rewrite check_segments_step. cbv zeta. change (legs (a :: b :: rest))
    with ((a, b) :: legs (b :: rest)).
  set (p1 := mk (fst a) (snd a)). set (p2 := mk (fst b) (snd b)).
  case_bool_decide as Hshort.
  - rewrite IH. split.
    + intros (a' & b' & Hin & Hr). exists a', b'. split; [apply list_elem_of_further, Hin | exact Hr].
    + intros (a' & b' & Hin & Hr). apply elem_of_cons in Hin as [Heq | Hin].
      * injection Heq as -> ->. destruct Hr as [Hlong _]. fold p1 p2 in Hlong. lra.
      * exists a', b'. auto.
  - case_bool_decide as Hnear.
    + split; [intros _ | reflexivity].
      exists a, b. split; [apply list_elem_of_here |].
      split; [fold p1 p2; lra |]. fold p1 p2.
      exists (Rmax 0 (Rmin 1 (dot (sub (Sensor.pos self) p1) (sub p2 p1)
                              / dot (sub p2 p1) (sub p2 p1)))).
      split; [| exact Hnear].
      split; [apply Rmax_l |]. apply Rmax_lub; [lra | apply Rmin_l].
    + rewrite IH. split.
      * intros (a' & b' & Hin & Hr). exists a', b'.
        split; [apply list_elem_of_further, Hin | exact Hr].
      * intros (a' & b' & Hin & Hr). apply elem_of_cons in Hin as [Heq | Hin].
        -- injection Heq as -> ->. destruct Hr as [Hlong (tt & Ht & Hclose)].
           fold p1 p2 in Hlong, Hclose. exfalso. apply Hnear.
           eapply Rle_lt_trans; [| exact Hclose].
           apply closest_point_nearest; [lra | exact Ht].
        -- exists a', b'. auto.
Qed.

(** X12.  The hit test is exact: [check_hit] answers [True] exactly when
    the ray's stored intensity is at least 0.2 and some leg of its path, at
    least 0.01 long, has a point closer than the radius to the sensor. *)
Theorem check_hit_exact (self : Sensor.t) (ray : Ray.t) :
  Sensor.check_hit self ray = true
  <-> Ray.intensity ray >= 0.2
      /\ exists a b, (a, b) ∈ legs (Ray.path ray) /\ in_range self a b.
Proof.
  unfold Sensor.check_hit. rewrite <- check_segments_exact.
  destruct (bool_decide (List.length (Ray.path ray) < 2)%nat) eqn:Hlen; cbn [orb].
  - apply bool_decide_eq_true in Hlen. split; [discriminate |].
    intros [_ H]. destruct (Ray.path ray) as [| a [| b rest]]; cbn in *;
      first [discriminate | lia].
  - clear Hlen. case_bool_decide as Hi.
    + split; [discriminate | intros [Hge _]; lra].
    + split; [intros H; split; [lra | exact H] | intros [_ H]; exact H].
Qed.

Lemma update_same_target (self : Sensor.t) (rays : list Ray.t) :
  same_target self (fst (Sensor.update self rays)).
Proof.
  unfold Sensor.update. cbn [fst].
  match goal with
  | |- same_target _ (fold_left _ rays ?s0) =>
      destruct (update_loop self rays s0) as (Hs & _); [repeat split | exact Hs]
  end.
Qed.

Lemma update_was_active (self : Sensor.t) (rays : list Ray.t) :
  Sensor.was_active (fst (Sensor.update self rays)) = Sensor.active self.
Proof.
  unfold Sensor.update. cbn [fst].
  match goal with
  | |- Sensor.was_active (fold_left _ rays ?s0) = _ =>
      destruct (update_loop self rays s0) as (_ & Hw & _); [repeat split | exact Hw]
  end.
Qed.

Lemma existsb_pointwise {A : Type} (f g : A -> bool) (l : list A) :
  (forall a, f a = g a) -> existsb f l = existsb g l.
Proof.
  intros Hfg. induction l as [| a l IH]; [reflexivity |].
  cbn [existsb]. rewrite Hfg, IH. reflexivity.
Qed.


(** The colours of [SPECTRUM], none of them white. *)
Lemma spectrum_colors (n : string) (c : Color) (ior : R) :
  (n, c, ior) ∈ SPECTRUM ->
  c = RED \/ c = ORANGE \/ c = YELLOW \/ c = GREEN \/ c = BLUE \/ c = VIOLET.
Proof.
  unfold SPECTRUM. intros H.
  repeat (apply elem_of_cons in H as [H | H];
          [injection H as _ -> _; auto 10 |]).
  apply elem_of_nil in H. destruct H.
Qed.

(** X14.  A white sensor matches exactly the white rays and a coloured
    sensor never matches a white ray; a sensor built for a colour of
    [SPECTRUM] with a tolerance from 0 to 79 matches a non-white ray with a
    colour of [SPECTRUM] exactly when the two colours are the same. *)
Theorem color_match_bands (px py : R) (c : Color) (tol : Z) (ray : Ray.t) :
  (c = WHITE -> Sensor.color_match (Sensor.init px py c tol) ray = Ray.is_white ray)
  /\ (c <> WHITE -> Ray.is_white ray = true ->
      Sensor.color_match (Sensor.init px py c tol) ray = false)
  /\ (forall n ior n' ior',
        (n, c, ior) ∈ SPECTRUM -> (n', Ray.color ray, ior') ∈ SPECTRUM ->
        Ray.is_white ray = false -> (0 <= tol < 80)%Z ->
        (Sensor.color_match (Sensor.init px py c tol) ray = true <-> Ray.color ray = c)).
Proof.
  unfold Sensor.color_match, Sensor.init, Sensor.channel_ok.
  cbn [Sensor.is_white Sensor.color Sensor.tol].
  split; [| split].
  - intros ->. rewrite bool_decide_eq_true_2 by reflexivity. reflexivity.
  - intros Hc ->. rewrite (bool_decide_eq_false_2 _ Hc). reflexivity.
  - intros n ior n' ior' Hs Hr -> Htol.
    assert (Hc : c <> WHITE).
    { destruct (spectrum_colors _ _ _ Hs) as [-> | [-> | [-> | [-> | [-> | ->]]]]];
        discriminate. }
    rewrite (bool_decide_eq_false_2 _ Hc).
    destruct (spectrum_colors _ _ _ Hs) as [-> | [-> | [-> | [-> | [-> | ->]]]]];
      destruct (spectrum_colors _ _ _ Hr) as [-> | [-> | [-> | [-> | [-> | ->]]]]];
      cbv beta iota delta [RED ORANGE YELLOW GREEN BLUE VIOLET];
      rewrite !andb_true_iff, !bool_decide_eq_true;
      (split; [intros [[H1 H2] H3]; first [reflexivity | exfalso; lia]
              | intros He; first [discriminate He | repeat split; lia]]).
Qed.

End SensorLaws.

(** * Turning and moving *)

Section RigidMotion.

Import Vector2.

Lemma sin_cos_sq (a : R) : sin a * sin a + cos a * cos a = 1.
Proof. pose proof (sin2_cos2 a) as H. unfold Rsqr in H. exact H. Qed.

Lemma rotate_dot (a b : t) (al : R) : dot (rotate a al) (rotate b al) = dot a b.
Proof.
  unfold dot, rotate. cbn [x y].
  replace ((x a * cos al - y a * sin al) * (x b * cos al - y b * sin al)
           + (x a * sin al + y a * cos al) * (x b * sin al + y b * cos al))
    with ((x a * x b + y a * y b) * (sin al * sin al + cos al * cos al)) by ring.
  rewrite sin_cos_sq. ring.
Qed.

Lemma rotate_length (a : t) (al : R) : length (rotate a al) = length a.
Proof.
  unfold length. f_equal.
  pose proof (rotate_dot a a al) as H. unfold dot in H.
  replace (x (rotate a al) ^ 2 + y (rotate a al) ^ 2)
    with (x (rotate a al) * x (rotate a al) + y (rotate a al) * y (rotate a al)) by ring.
  rewrite H. ring.
Qed.

Lemma rotate_sub (a b : t) (al : R) : rotate (sub a b) al = sub (rotate a al) (rotate b al).
Proof. unfold rotate, sub. cbn [x y]. f_equal; ring. Qed.

Lemma rotate_rotate (a : t) (al be : R) : rotate (rotate a al) be = rotate a (al + be).
Proof.
  unfold rotate. cbn [x y]. rewrite cos_plus, sin_plus. f_equal; ring.
Qed.

Lemma rotate_0 (a : t) : rotate a 0 = a.
Proof.
  unfold rotate. rewrite cos_0, sin_0. destruct a as [ax ay]. cbn [x y]. f_equal; ring.
Qed.

(** X15.  [rotate] is a rotation: it keeps lengths, dot products and
    distances, rotations compose by adding the angles, the angle 0 changes
    nothing and the opposite angle undoes a rotation; [perp] is the
    normalised vector turned by a quarter turn. *)
Theorem rotate_rigid (a b : t) (al be : R) :
  length (rotate a al) = length a
  /\ dot (rotate a al) (rotate b al) = dot a b
  /\ length (sub (rotate a al) (rotate b al)) = length (sub a b)
  /\ rotate (rotate a al) be = rotate a (al + be)
  /\ rotate a 0 = a
  /\ rotate (rotate a al) (- al) = a
  /\ perp a = rotate (normalize a) (PI / 2).
Proof.
  split; [apply rotate_length |]. split; [apply rotate_dot |].
  split; [rewrite <- rotate_sub; apply rotate_length |].
  split; [apply rotate_rotate |]. split; [apply rotate_0 |].
  split.
  - rewrite rotate_rotate. replace (al + - al) with 0 by ring. apply rotate_0.
  - unfold perp, normalize, rotate. rewrite cos_PI2, sin_PI2.
    assert (Hl : length (mk (- y a) (x a)) = length a).
    { unfold length. cbn [x y]. f_equal. ring. }
    rewrite Hl. case_bool_decide; cbn [x y]; f_equal; unfold Rdiv; ring.
Qed.

Lemma radians_0 : radians 0 = 0.
Proof. unfold radians. ring. Qed.

Lemma pts_count (type : ItemType) (w h : R) :
  List.length (ItemObject.pts type w h)
  = match type with
    | TRIANGLE => 3
    | RECTANGLE => 4
    | CURVED_MIRROR => 15
    | PLANE_MIRROR => 2
    | CONCAVE_LENS | CONVEX_LENS => 12
    end%nat.
Proof. destruct type; reflexivity. Qed.

Lemma lookup_map {A B : Type} (f : A -> B) (l : list A) (i : nat) :
  map f l !! i = f <$> (l !! i).
Proof.
  revert i. induction l as [| a l IH]; intros [| i]; cbn; auto.
Qed.

(** X16.  [update_shape] places the outline by a rigid motion: the shape
    has one point for each point of the outline [pts] (3, 4, 15, 2, 12 or
    12 by type), every shape point is as far from the item's position as
    its outline point is from the origin, and the distance between two
    shape points is the distance between their outline points, whatever the
    rotation and the position; nothing but the shape changes. *)
Theorem update_shape_rigid (self : ItemObject.t) :
  let self' := ItemObject.update_shape self in
  let base := ItemObject.pts (ItemObject.type self) (ItemObject.width self)
                             (ItemObject.height self) in
  List.length (ItemObject.shape self') = List.length base
  /\ List.length base
     = match ItemObject.type self with
       | TRIANGLE => 3
       | RECTANGLE => 4
       | CURVED_MIRROR => 15
       | PLANE_MIRROR => 2
       | CONCAVE_LENS | CONVEX_LENS => 12
       end%nat
  /\ (forall i p p0,
        ItemObject.shape self' !! i = Some p -> base !! i = Some p0 ->
        length (sub p (ItemObject.pos self)) = length p0)
  /\ (forall i j p q p0 q0,
        ItemObject.shape self' !! i = Some p -> ItemObject.shape self' !! j = Some q ->
        base !! i = Some p0 -> base !! j = Some q0 ->
        length (sub p q) = length (sub p0 q0))
  /\ ItemObject.view self' = Item.mk (ItemObject.type self) (ItemObject.pos self)
                                     (ItemObject.shape self')
  /\ ItemObject.width self' = ItemObject.width self
  /\ ItemObject.height self' = ItemObject.height self
  /\ ItemObject.rotation self' = ItemObject.rotation self.
Proof.
  cbv zeta. unfold ItemObject.update_shape.
  cbn [ItemObject.shape ItemObject.width ItemObject.height ItemObject.rotation].
  set (base := ItemObject.pts _ _ _). set (rad := radians _).
  split; [apply length_map |]. split; [apply pts_count |].
  split; [| split; [| repeat split]].
  - intros i p p0 Hp Hp0. rewrite lookup_map, Hp0 in Hp. cbn in Hp.
    apply (inj Some) in Hp. subst p.
    replace (sub (add (rotate p0 rad) (ItemObject.pos self)) (ItemObject.pos self))
      with (rotate p0 rad) by (unfold add, sub, rotate; cbn [x y]; f_equal; ring).
    apply rotate_length.
  - intros i j p q p0 q0 Hp Hq Hp0 Hq0.
    rewrite lookup_map, Hp0 in Hp. rewrite lookup_map, Hq0 in Hq. cbn in Hp, Hq.
    apply (inj Some) in Hp, Hq. subst p q.
    replace (sub (add (rotate p0 rad) (ItemObject.pos self))
                 (add (rotate q0 rad) (ItemObject.pos self)))
      with (rotate (sub p0 q0) rad)
      by (rewrite rotate_sub; unfold add, sub, rotate; cbn [x y]; f_equal; ring).
    apply rotate_length.
Qed.

Lemma clamp_idempotent (m u v : R) :
  Rmax m (Rmin u (Rmax m (Rmin u v))) = Rmax m (Rmin u v).
Proof.
  unfold Rmax, Rmin. repeat (destruct (Rle_dec _ _)); lra.
Qed.

Lemma clamp_inside (m u v : R) : m <= v <= u -> Rmax m (Rmin u v) = v.
Proof. intros Hv. unfold Rmax, Rmin. repeat (destruct (Rle_dec _ _)); lra. Qed.

Lemma clamp_bounds (m u v : R) : m <= u -> m <= Rmax m (Rmin u v) <= u.
Proof. intros Hu. unfold Rmax, Rmin. repeat (destruct (Rle_dec _ _)); lra. Qed.

(** X17.  [Item.constrain] moves an item without turning or deforming
    it: the new shape is the freshly computed old shape shifted by the
    change of position; on a screen at least 100 wide and high the
    position ends at least 50 inside every edge, a position already there
    is kept, and constraining twice is the same as once. *)
Theorem constrain_shifts (self : ItemObject.t) (sw sh : Z) :
  let self' := ItemObject.constrain self sw sh in
  ItemObject.shape self'
  = map (fun p => add p (sub (ItemObject.pos self') (ItemObject.pos self)))
        (ItemObject.shape (ItemObject.update_shape self))
  /\ ((100 <= sw)%Z -> (100 <= sh)%Z ->
      50 <= x (ItemObject.pos self') <= IZR sw - 50
      /\ 50 <= y (ItemObject.pos self') <= IZR sh - 50)
  /\ (50 <= x (ItemObject.pos self) <= IZR sw - 50 ->
      50 <= y (ItemObject.pos self) <= IZR sh - 50 ->
      ItemObject.pos self' = ItemObject.pos self)
  /\ ItemObject.constrain self' sw sh = self'.
Proof.
  cbv zeta. unfold ItemObject.constrain, ItemObject.update_shape.
  cbn [ItemObject.shape ItemObject.pos ItemObject.type ItemObject.width
       ItemObject.height ItemObject.rotation x y].
  split; [| split; [| split]].
  - rewrite map_map. apply map_ext. intros p.
    unfold add, sub. cbn [x y]. f_equal; ring.
  - intros Hw Hh. apply IZR_le in Hw, Hh.
    split; apply clamp_bounds; lra.
  - intros Hx Hy. rewrite !clamp_inside by assumption.
    destruct (ItemObject.pos self). reflexivity.
  - rewrite !clamp_idempotent. reflexivity.
Qed.

Lemma constrain_shifts_witness :
  ItemObject.pos (ItemObject.constrain (ItemObject.init RECTANGLE 600 400 100 80 0)
                                       1280 720)
  = ItemObject.pos (ItemObject.init RECTANGLE 600 400 100 80 0).
Proof.
  apply (proj1 (proj2 (proj2 (constrain_shifts
                                (ItemObject.init RECTANGLE 600 400 100 80 0)
                                1280 720))));
    cbn [ItemObject.init ItemObject.update_shape ItemObject.pos x y]; lra.
Defined.

Lemma rotate_radians_0 (p : t) : rotate p (radians 0) = p.
Proof. rewrite radians_0. apply rotate_0. Qed.

(** X18.  At rotation 0 a rectangle is the axis-parallel box of its width
    and height around its position, listed from the top-left corner
    clockwise on the screen, and a plane mirror is the horizontal segment
    of its width through its position; the mirror and the glass block of
    the scenes above are the items that [Item(PLANE_MIRROR, 60, 50, 120,
    20)] and [Item(RECTANGLE, 600, 400, 100, 80)] construct. *)
Theorem shapes_at_rest (px py w h : R) :
  ItemObject.shape (ItemObject.init RECTANGLE px py w h 0)
  = [mk (px - w / 2) (py - h / 2); mk (px + w / 2) (py - h / 2);
     mk (px + w / 2) (py + h / 2); mk (px - w / 2) (py + h / 2)]
  /\ ItemObject.shape (ItemObject.init PLANE_MIRROR px py w h 0)
     = [mk (px - w / 2) py; mk (px + w / 2) py]
  /\ ItemObject.view (ItemObject.init PLANE_MIRROR 60 50 120 20 0) = mirror
  /\ ItemObject.view (ItemObject.init RECTANGLE 600 400 100 80 0) = block.
Proof.
  unfold ItemObject.view, ItemObject.init, ItemObject.update_shape, mirror, block.
  cbn [ItemObject.shape ItemObject.pos ItemObject.type ItemObject.width
       ItemObject.height ItemObject.rotation ItemObject.pts map].
  rewrite !rotate_radians_0. unfold add. cbn [x y].
  repeat split;
    repeat match goal with
           | |- _ :: _ = _ :: _ => f_equal
           | |- mk _ _ = mk _ _ => f_equal; lra
           | |- Item.mk _ _ _ = Item.mk _ _ _ => f_equal
           end.
Qed.

End RigidMotion.

(** * The light box and the rays of a frame *)

Section LightBoxLaws.

Import Vector2.

Lemma radians_neg (a : R) : radians (- a) = - radians a.
Proof. unfold radians. ring. Qed.

Lemma get_dir_unit (box : LightBox.t) : length (LightBox.get_dir box) = 1.
Proof.
  unfold LightBox.get_dir. apply length_of_unit. cbn [x y].
  pose proof (sin_cos_sq (radians (LightBox.angle box))). lra.
Qed.

Lemma get_perp_unit (box : LightBox.t) : length (LightBox.get_perp box) = 1.
Proof.
  unfold LightBox.get_perp. apply length_of_unit. cbn [x y].
  pose proof (sin_cos_sq (radians (LightBox.angle box))). lra.
Qed.

Lemma emit_direction (box : LightBox.t) (i : Z) :
  Ray.direction (Game.emit box i) = LightBox.get_dir box.
Proof.
  unfold Game.emit, Ray.init. cbn [Ray.direction].
  apply normalize_unit, get_dir_unit.
Qed.

(** X19.  The light box emits along an orthonormal frame: [get_dir] and
    [get_perp] are unit vectors at right angles, [get_dir] is the x axis
    turned by the box angle and [get_perp] is [get_dir] turned a quarter
    turn further; the rays of a frame start at [pos + get_perp * 12 i],
    all with the direction [get_dir], so they leave parallel, side by
    side, 12 apart for consecutive [i]. *)
Theorem lightbox_frame (box : LightBox.t) (i j : Z) :
  length (LightBox.get_dir box) = 1
  /\ length (LightBox.get_perp box) = 1
  /\ dot (LightBox.get_dir box) (LightBox.get_perp box) = 0
  /\ LightBox.get_dir box = rotate (mk 1 0) (radians (LightBox.angle box))
  /\ LightBox.get_perp box = rotate (LightBox.get_dir box) (PI / 2)
  /\ Ray.direction (Game.emit box i) = LightBox.get_dir box
  /\ sub (Ray.origin (Game.emit box j)) (Ray.origin (Game.emit box i))
     = mul (LightBox.get_perp box) (IZR (j - i) * 12)
  /\ dot (sub (Ray.origin (Game.emit box j)) (Ray.origin (Game.emit box i)))
         (LightBox.get_dir box) = 0
  /\ length (sub (Ray.origin (Game.emit box (i + 1))) (Ray.origin (Game.emit box i)))
     = 12.
Proof.
  assert (Hsub : forall a b : Z,
             sub (Ray.origin (Game.emit box b)) (Ray.origin (Game.emit box a))
             = mul (LightBox.get_perp box) (IZR (b - a) * 12)).
  { intros a b. unfold Game.emit, Ray.init. cbn [Ray.origin].
    unfold sub, add, mul. cbn [x y]. rewrite !mult_IZR, minus_IZR. f_equal; ring. }
  split; [apply get_dir_unit |]. split; [apply get_perp_unit |].
  split; [unfold dot, LightBox.get_dir, LightBox.get_perp; cbn [x y]; ring |].
  split; [unfold LightBox.get_dir, rotate; cbn [x y]; f_equal; ring |].
  split.
  { unfold LightBox.get_dir, LightBox.get_perp, rotate. cbn [x y].
    rewrite cos_PI2, sin_PI2. f_equal; ring. }
  split; [apply emit_direction |]. split; [apply Hsub |]. split.
  - rewrite Hsub. unfold dot, mul, LightBox.get_dir, LightBox.get_perp. cbn [x y]. ring.
  - rewrite Hsub. replace (i + 1 - i)%Z with 1%Z by lia.
    rewrite length_mul by lra. rewrite get_perp_unit. ring.
Qed.

Lemma Rabs_sq_lt (a b : R) : Rabs a < b -> a * a < b * b.
Proof.
  intros H. assert (Hb : 0 < b) by (pose proof (Rabs_pos a); lra).
  apply Rabs_def2 in H. nra.
Qed.

(** X20.  [LightBox.contains] tests the box in its own frame: the point
    at local coordinates [(lx, ly)], turned by the box angle and moved to
    the box position, is inside exactly when the box is not fully locked
    and [|lx| < w/2] and [|ly| < h/2]; a point that is inside is closer to
    the centre than half the diagonal (50 for the box of [__init__]); the
    rotation handle [get_corner] is never inside, and [corner_contains]
    accepts it unless the rotation is locked. *)
Theorem lightbox_contains_local (box : LightBox.t) (lx ly : R) (pt : t) :
  LightBox.contains box
    (add (rotate (mk lx ly) (radians (LightBox.angle box))) (LightBox.pos box))
  = negb (LightBox.lock_pos box && LightBox.lock_rot box)
    && bool_decide (Rabs lx < LightBox.w box / 2)
    && bool_decide (Rabs ly < LightBox.h box / 2)
  /\ (LightBox.contains box pt = true ->
      length (sub pt (LightBox.pos box))
      < length (mk (LightBox.w box / 2) (LightBox.h box / 2)))
  /\ (LightBox.w box = 80 -> LightBox.h box = 60 ->
      length (mk (LightBox.w box / 2) (LightBox.h box / 2)) = 50)
  /\ LightBox.contains box (LightBox.get_corner box) = false
  /\ LightBox.corner_contains box (LightBox.get_corner box)
     = negb (LightBox.lock_rot box).
Proof.
  assert (Hlocal : forall a b : R,
             LightBox.contains box
               (add (rotate (mk a b) (radians (LightBox.angle box))) (LightBox.pos box))
             = negb (LightBox.lock_pos box && LightBox.lock_rot box)
               && bool_decide (Rabs a < LightBox.w box / 2)
               && bool_decide (Rabs b < LightBox.h box / 2)).
  { intros a b. unfold LightBox.contains.
    destruct (LightBox.lock_pos box && LightBox.lock_rot box); [reflexivity |].
    cbn [negb andb]. rewrite radians_neg, cos_neg, sin_neg.
    set (r := radians (LightBox.angle box)).
    pose proof (sin_cos_sq r) as Hr.
    unfold sub, add, rotate. cbn [x y].
    replace ((a * cos r - b * sin r + x (LightBox.pos box) - x (LightBox.pos box)) * cos r
             - (a * sin r + b * cos r + y (LightBox.pos box) - y (LightBox.pos box))
               * - sin r)
      with (a * (sin r * sin r + cos r * cos r)) by ring.
    replace ((a * cos r - b * sin r + x (LightBox.pos box) - x (LightBox.pos box)) * - sin r
             + (a * sin r + b * cos r + y (LightBox.pos box) - y (LightBox.pos box))
               * cos r)
      with (b * (sin r * sin r + cos r * cos r)) by ring.
    rewrite Hr, !Rmult_1_r. reflexivity. }
  split; [apply Hlocal |]. split; [| split; [| split]].
  - unfold LightBox.contains.
    destruct (LightBox.lock_pos box && LightBox.lock_rot box); [discriminate |].
    cbv zeta. set (local := sub pt (LightBox.pos box)).
    set (r := radians (- LightBox.angle box)).
    intros H. apply andb_prop in H as [Hx Hy].
    apply bool_decide_eq_true in Hx, Hy.
    rewrite <- (rotate_length local r).
    unfold length, rotate. cbn [x y].
    apply sqrt_lt_1_alt. split.
    + apply sum_squares_nonneg.
    + apply Rabs_sq_lt in Hx, Hy. nra.
  - intros -> ->. unfold length. cbn [x y].
    replace ((80 / 2) ^ 2 + (60 / 2) ^ 2) with (50 * 50) by lra.
    apply sqrt_square. lra.
  - unfold LightBox.get_corner. rewrite Hlocal.
    rewrite (bool_decide_eq_false_2 (Rabs (- LightBox.w box / 2) < _)).
    + rewrite andb_false_r. reflexivity.
    + intros H. apply Rabs_def2 in H. lra.
  - unfold LightBox.corner_contains. destruct (LightBox.lock_rot box); [reflexivity |].
    rewrite length_sub_self. apply bool_decide_eq_true_2. lra.
Qed.

End LightBoxLaws.

Section FrameLaws.

Import Vector2.

Variable GLASS : Material.t.
Variable items : list Item.t.

Lemma emit_tidy (box : LightBox.t) (i : Z) : tidy (Game.emit box i).
Proof.
  unfold tidy. rewrite emit_direction, get_dir_unit.
  unfold Game.emit, Ray.init, MAX_RAY_DISTANCE.
  cbn [Ray.bounces Ray.distance_traveled Ray.active].
  split; [lia |]. split; [lra |]. split; [lra | intros _; lra].
Qed.

Lemma emit_palette (box : LightBox.t) (i : Z) (c : Ray.t) :
  palette (Game.emit box i) c -> white_or_band c.
Proof.
  intros [[Hc Hw] | [Hwhite | Hband]].
  - left. split; assumption.
  - left. exact Hwhite.
  - right. exact Hband.
Qed.

Lemma emit_white_or_band (box : LightBox.t) (i : Z) (r : Ray.t) :
  same_band (Game.emit box i) r -> white_or_band r.
Proof. intros [Hc Hw]. left. split; assumption. Qed.

Lemma cast_keeps (box : LightBox.t) (indices : list Z) :
  forall rays,
    Forall (fun c => tidy c /\ white_or_band c) rays ->
    exists rays',
      Game.cast GLASS items box indices rays = Some rays'
      /\ Forall (fun c => tidy c /\ white_or_band c) rays'
      /\ (List.length rays + List.length indices <= List.length rays')%nat.
Proof.
  induction indices as [| i indices IH]; intros rays Hrays.
  - exists rays. cbn. split; [reflexivity |]. split; [exact Hrays | lia].
  - cbn [Game.cast].
    destruct (trace_returns GLASS items (Game.emit box i)) as [[r out] He].
    rewrite He. cbn [mbind option_bind].
    destruct (trace_depth_keeps GLASS items 0.1 1.0 _ _ r out He)
      as ((Hband & _ & _ & _ & _ & Ht) & Hout).
    destruct (IH (rays ++ out ++ [r])) as (rays' & Hc & Hall & Hlen).
    + apply Forall_app. split; [exact Hrays |]. apply Forall_app. split.
      * eapply Forall_impl; [exact Hout |]. intros c (_ & Hp & Hc).
        split; [exact (Hc (emit_tidy box i)) | exact (emit_palette box i c Hp)].
      * apply Forall_cons. split; [| constructor].
        split; [exact (Ht (emit_tidy box i)) | exact (emit_white_or_band box i r Hband)].
    + exists rays'. split; [exact Hc |]. split; [exact Hall |].
      rewrite !length_app in Hlen. cbn [List.length] in *. lia.
Qed.

Lemma update_sensors_fold (rays : list Ray.t) (sensors : list Sensor.t) :
  forall (updated : list Sensor.t) (just all : bool),
    fold_left
      (fun '(updated, just_activated, all_active) s =>
         let '(s, rose) := Sensor.update s rays in
         (updated ++ [s],
          if rose then true else just_activated,
          if negb (Sensor.active s) then false else all_active))
      sensors (updated, just, all)
    = (updated ++ map (fun s => fst (Sensor.update s rays)) sensors,
       just || existsb (fun s => snd (Sensor.update s rays)) sensors,
       all && forallb (fun s => Sensor.active (fst (Sensor.update s rays))) sensors).
Proof.
  induction sensors as [| s sensors IH]; intros updated just all.
  - cbn. rewrite app_nil_r, orb_false_r, andb_true_r. reflexivity.
  - cbn [fold_left map existsb forallb].
    destruct (Sensor.update s rays) as [s' rose] eqn:Hs. cbn [fst snd].
    rewrite IH. rewrite <- app_assoc. cbn [app].
    destruct rose, (Sensor.active s'), just, all; reflexivity.
Qed.


End FrameLaws.

(** * Scoring *)

Section ScoringLaws.

Lemma Int_part_div (a b : Z) : (0 < b)%Z -> Int_part (IZR a / IZR b) = (a / b)%Z.
Proof.
  intros Hb. symmetry. apply Int_part_spec.
  assert (Hb' : 0 < IZR b) by (apply IZR_lt in Hb; exact Hb).
  pose proof (Z.mul_div_le a b Hb) as Hle.
  pose proof (Z.mul_succ_div_gt a b Hb) as Hgt.
  apply IZR_le in Hle. apply IZR_lt in Hgt.
  rewrite mult_IZR in Hle. rewrite mult_IZR, succ_IZR in Hgt.
  set (q := IZR (a / b)) in *.
  assert (Hq : IZR a / IZR b * IZR b = IZR a) by (field; lra).
  set (r := IZR a / IZR b) in *. split; nra.
Qed.

Lemma penalty_of_time (ticks start_time : Z) :
  (start_time <= ticks)%Z ->
  int (IZR (ticks - start_time) / 1000 * IZR TIME_PENALTY)
  = ((ticks - start_time) * 30 / 1000)%Z.
Proof.
  intros Ht. unfold int, TIME_PENALTY.
  assert (H0 : 0 <= IZR (ticks - start_time)) by (apply IZR_le; lia).
  rewrite bool_decide_eq_true_2 by lra.
  replace (IZR (ticks - start_time) / 1000 * 30)
    with (IZR ((ticks - start_time) * 30) / IZR 1000)
    by (rewrite mult_IZR; field).
  apply Int_part_div. lia.
Qed.



Lemma stars_threshold (score base k : Z) (f : R) :
  IZR base * f = IZR k ->
  bool_decide (IZR score >= IZR base * f) = bool_decide (k <= score)%Z.
Proof.
  intros ->. apply bool_decide_ext. split.
  - intros H. apply le_IZR. lra.
  - intros H. apply IZR_le in H. lra.
Qed.

Lemma get_stars_table (level_num score : Z) :
  Game.get_stars level_num score
  = if bool_decide (9000 - 450 * level_num <= score)%Z then 3%Z
    else if bool_decide (7500 - 375 * level_num <= score)%Z then 2%Z
    else if bool_decide (5000 - 250 * level_num <= score)%Z then 1%Z
    else 0%Z.
Proof.
  unfold Game.get_stars, MAX_SCORE. cbv zeta.
  rewrite (stars_threshold score _ (9000 - 450 * level_num) 0.9)
    by (rewrite !minus_IZR, !mult_IZR; lra).
  rewrite (stars_threshold score _ (7500 - 375 * level_num) 0.75)
    by (rewrite !minus_IZR, !mult_IZR; lra).
  rewrite (stars_threshold score _ (5000 - 250 * level_num) 0.5)
    by (rewrite !minus_IZR, !mult_IZR; lra).
  reflexivity.
Qed.

(** X23.  The star table in whole numbers: for level [n], [get_stars]
    gives 3 stars from [9000 - 450 n] points, 2 from [7500 - 375 n], 1
    from [5000 - 250 n] and 0 below; the result lies between 0 and 3 and
    does not go down when the score goes up; on the levels 1 to 10 the
    full score earns three stars and the score 0 none. *)
Theorem get_stars_thresholds (level_num score score' : Z) :
  Game.get_stars level_num score
  = (if bool_decide (9000 - 450 * level_num <= score)%Z then 3
     else if bool_decide (7500 - 375 * level_num <= score)%Z then 2
     else if bool_decide (5000 - 250 * level_num <= score)%Z then 1
     else 0)%Z
  /\ (0 <= Game.get_stars level_num score <= 3)%Z
  /\ ((score <= score')%Z ->
      (Game.get_stars level_num score <= Game.get_stars level_num score')%Z)
  /\ ((1 <= level_num <= 10)%Z ->
      Game.get_stars level_num MAX_SCORE = 3%Z /\ Game.get_stars level_num 0 = 0%Z).
Proof.
  split; [apply get_stars_table |]. rewrite !get_stars_table.
  split; [repeat case_bool_decide; lia |]. split.
  - intros Hs. repeat case_bool_decide; lia.
  - intros Hn. unfold MAX_SCORE. split; repeat case_bool_decide; lia.
Qed.

Lemma get_stars_thresholds_witness :
  Game.get_stars 4 MAX_SCORE = 3%Z /\ Game.get_stars 4 0 = 0%Z.
Proof.
  apply (proj2 (proj2 (proj2 (get_stars_thresholds 4 0 0)))). lia.
Defined.

End ScoringLaws.

(** * The shop *)

Section ShopLaws.

Lemma award_completed (self : Shop.t) (level stars' : Z) :
  Shop.completed (fst (Shop.award self level stars')) !! level
  = Some match Shop.completed self !! level with
         | Some prev => Z.max prev stars'
         | None => stars'
         end
  /\ (forall l, l <> level ->
        Shop.completed (fst (Shop.award self level stars')) !! l
        = Shop.completed self !! l).
Proof.
  unfold Shop.award. destruct (Shop.completed self !! level) as [prev |] eqn:Hprev.
  - destruct (bool_decide (stars' > prev)%Z) eqn:Hgt.
    + apply bool_decide_eq_true in Hgt. cbn [fst Shop.completed].
      split; [rewrite lookup_insert_eq; f_equal; lia |].
      intros l Hl. apply lookup_insert_ne. congruence.
    + apply bool_decide_eq_false in Hgt.
      destruct (_ && _); cbn [fst Shop.completed];
        (split; [rewrite Hprev; f_equal; lia | reflexivity]).
  - cbn [fst Shop.completed]. split; [apply lookup_insert_eq |].
    intros l Hl. apply lookup_insert_ne. congruence.
Qed.

(** X24.  [award] keeps the best result of a level: afterwards the
    record of the level is the larger of the old record and the new stars
    (the new stars on a first completion), the records of the other
    levels, the unlocked items and the refraction settings are as before,
    the returned total is the new star count, a message comes exactly with
    a non-zero bonus, and, for an award of 0 to 3 stars, the star count
    grows by the new stars on a first completion, by the gain of the
    record on an improvement, by 1 on a repeated perfect result, and not
    at all otherwise. *)
Theorem award_record (self : Shop.t) (level stars' : Z) :
  let self' := fst (Shop.award self level stars') in
  let '(total, bonus, message) := snd (Shop.award self level stars') in
  let record := match Shop.completed self !! level with
                | Some prev => Z.max prev stars'
                | None => stars'
                end in
  Shop.completed self' !! level = Some record
  /\ (forall l, l <> level -> Shop.completed self' !! l = Shop.completed self !! l)
  /\ Shop.unlocked self' = Shop.unlocked self
  /\ Shop.custom_refraction_unlocked self' = Shop.custom_refraction_unlocked self
  /\ Shop.custom_ior self' = Shop.custom_ior self
  /\ total = Shop.stars self'
  /\ (message = None <-> bonus = 0%Z)
  /\ ((0 <= stars' <= 3)%Z ->
      Shop.stars self'
      = (Shop.stars self
         + match Shop.completed self !! level with
           | None => stars'
           | Some prev =>
               if bool_decide (stars' = 3 /\ prev = 3)%Z then 1 else record - prev
           end)%Z).
Proof.
  pose proof (award_completed self level stars') as [Hrec Hother].
  revert Hrec Hother. unfold Shop.award.
  destruct (Shop.completed self !! level) as [prev |] eqn:Hprev.
  - destruct (bool_decide (stars' > prev)%Z) eqn:Hgt.
    + apply bool_decide_eq_true in Hgt.
      cbn [fst snd Shop.completed Shop.unlocked
           Shop.custom_refraction_unlocked Shop.custom_ior Shop.stars].
      intros Hrec Hother. split; [exact Hrec |]. split; [exact Hother |].
      repeat (split; [reflexivity |]).
      split; [split; [discriminate | lia] |].
      intros _. rewrite bool_decide_eq_false_2 by lia. lia.
    + apply bool_decide_eq_false in Hgt.
      destruct (bool_decide (stars' = 3%Z) && bool_decide (prev = 3%Z)) eqn:Hperfect.
      * apply andb_prop in Hperfect as [H1 H2].
        apply bool_decide_eq_true in H1, H2. subst stars' prev.
        cbn [fst snd Shop.completed Shop.unlocked
             Shop.custom_refraction_unlocked Shop.custom_ior Shop.stars].
        intros Hrec Hother. split; [exact Hrec |]. split; [exact Hother |].
        repeat (split; [reflexivity |]).
        split; [split; discriminate |].
        intros _. rewrite bool_decide_eq_true_2 by (split; reflexivity). reflexivity.
      * cbn [fst snd]. intros Hrec Hother. split; [exact Hrec |]. split; [exact Hother |].
        repeat (split; [reflexivity |]).
        split; [split; reflexivity |].
        intros _. apply andb_false_iff in Hperfect.
        rewrite bool_decide_eq_false_2.
        -- lia.
        -- intros [-> ->]. destruct Hperfect as [H | H];
             apply bool_decide_eq_false in H; lia.
  - cbn [fst snd Shop.completed Shop.unlocked
         Shop.custom_refraction_unlocked Shop.custom_ior Shop.stars].
    intros Hrec Hother. split; [exact Hrec |]. split; [exact Hother |].
    repeat (split; [reflexivity |]).
    split; [split; reflexivity |].
    intros _. reflexivity.
Qed.

Lemma award_record_witness :
  Shop.stars (fst (Shop.award Shop.init 1 2))
  = (Shop.stars Shop.init
     + match Shop.completed Shop.init !! 1%Z with
       | None => 2
       | Some prev =>
           if bool_decide (2 = 3 /\ prev = 3)%Z then 1
           else match Shop.completed Shop.init !! 1%Z with
                | Some prev => Z.max prev 2
                | None => 2
                end - prev
       end)%Z.
Proof.
  pose proof (award_record Shop.init 1 2) as H. cbv zeta in H.
  destruct (snd (Shop.award Shop.init 1 2)) as [[total bonus] message].
  apply H. lia.
Defined.

Lemma unlock_facts (self : Shop.t) (item : ItemType) :
  ((0 <= Shop.stars self)%Z -> (0 <= Shop.stars (fst (Shop.unlock self item)))%Z)
  /\ (forall t, Shop.unlocked self t = true ->
        Shop.unlocked (fst (Shop.unlock self item)) t = true)
  /\ Shop.completed (fst (Shop.unlock self item)) = Shop.completed self
  /\ Shop.custom_ior (fst (Shop.unlock self item)) = Shop.custom_ior self.
Proof.
  unfold Shop.unlock. destruct (Shop.unlocked self item); [cbn [fst]; auto |].
  case_bool_decide as Hc; cbn [fst Shop.stars Shop.unlocked Shop.completed Shop.custom_ior];
    [| auto].
  split; [intros H0; destruct item; cbn [Shop.COSTS] in *; lia |].
  split; [| auto]. intros t Ht. unfold Shop.set_unlocked. case_bool_decide; auto.
Qed.

(** X25.  [unlock] sells an item once: it answers [True] exactly when the
    item is unlocked afterwards; it takes the cost of the item when the
    item was locked and the stars suffice, and nothing otherwise; no other
    item changes and no item is ever locked again; a star count that is
    not negative stays so; and a second call changes nothing and gives the
    same answer. *)
Theorem unlock_once (self : Shop.t) (item : ItemType) :
  let self' := fst (Shop.unlock self item) in
  let answer := snd (Shop.unlock self item) in
  answer = Shop.unlocked self' item
  /\ Shop.stars self'
     = (if negb (Shop.unlocked self item) && answer
        then Shop.stars self - Shop.COSTS item else Shop.stars self)%Z
  /\ (forall t, t <> item -> Shop.unlocked self' t = Shop.unlocked self t)
  /\ (forall t, Shop.unlocked self t = true -> Shop.unlocked self' t = true)
  /\ ((0 <= Shop.stars self)%Z -> (0 <= Shop.stars self')%Z)
  /\ Shop.completed self' = Shop.completed self
  /\ Shop.unlock self' item = (self', answer).
Proof.
  cbv zeta. unfold Shop.unlock.
  destruct (Shop.unlocked self item) eqn:Hu.
  - cbn [fst snd negb andb]. rewrite Hu. repeat split; auto.
  - destruct (bool_decide (Shop.stars self >= Shop.COSTS item)%Z) eqn:Hc.
    + apply bool_decide_eq_true in Hc.
      cbn [fst snd negb andb Shop.unlocked Shop.stars Shop.completed].
      assert (Hset : Shop.set_unlocked item true (Shop.unlocked self) item = true).
      { unfold Shop.set_unlocked. rewrite bool_decide_eq_true_2 by reflexivity.
        reflexivity. }
      rewrite Hset. repeat split; auto.
      * intros t Ht. unfold Shop.set_unlocked.
        rewrite bool_decide_eq_false_2 by exact Ht. reflexivity.
      * intros t Ht. unfold Shop.set_unlocked. case_bool_decide; auto.
      * intros H0. destruct item; cbn [Shop.COSTS] in *; lia.
    + cbn [fst snd negb andb]. rewrite Hu, Hc. repeat split; auto.
Qed.

Lemma unlock_once_witness :
  (0 <= Shop.stars (fst (Shop.unlock (fst (Shop.award Shop.init 1 3)) TRIANGLE)))%Z.
Proof.
  apply (proj1 (proj2 (proj2 (proj2 (proj2
           (unlock_once (fst (Shop.award Shop.init 1 3)) TRIANGLE)))))).
  vm_compute. discriminate.
Defined.

Lemma set_base_ior_dispersive (g : Material.t) (base : R) :
  1.1 <= base <= 2.0 -> dispersive (Material.set_base_ior g base).
Proof. intros Hb. exists base. split; [exact Hb | reflexivity]. Qed.

Lemma GLASS_initial_dispersive : dispersive GLASS_initial.
Proof.
  exists 1.5. split; [lra |].
  unfold GLASS_initial, Material.set_base_ior. cbn. f_equal; lra.
Qed.

Lemma dispersive_positive (g : Material.t) : dispersive g -> positive_indices g.
Proof.
  intros (base & Hb & ->). unfold positive_indices, Material.set_base_ior. cbn.
  repeat split; lra.
Qed.

Lemma shop_step_ok (st : Shop.t * Material.t) (op : shop_op) :
  fair_op op -> shop_ok st -> shop_ok (shop_step st op).
Proof.
  destruct st as [shop glass].
  intros Hfair (Hstars & Hmirror & Hrec & Hior & Hglass). cbn [fst snd] in *.
  destruct op as [level stars' | item | | value |]; cbn [shop_step fst snd fair_op] in *.
  - unfold shop_ok. cbn [fst snd]. unfold Shop.award.
    destruct (Shop.completed shop !! level) as [prev |] eqn:Hprev.
    + pose proof (map_Forall_lookup_1 _ _ _ _ Hrec Hprev) as Hp. cbn beta in Hp.
      destruct (bool_decide (stars' > prev)%Z) eqn:Hgt.
      * apply bool_decide_eq_true in Hgt.
        cbn [fst Shop.stars Shop.unlocked Shop.completed Shop.custom_ior].
        split; [lia |]. split; [exact Hmirror |].
        split; [apply map_Forall_insert_2; [lia | exact Hrec] |]. auto.
      * destruct (_ && _); cbn [fst Shop.stars Shop.unlocked Shop.completed
                                  Shop.custom_ior];
          (split; [lia |]); auto.
    + cbn [fst Shop.stars Shop.unlocked Shop.completed Shop.custom_ior].
      split; [lia |]. split; [exact Hmirror |].
      split; [apply map_Forall_insert_2; [lia | exact Hrec] |]. auto.
  - destruct (unlock_facts shop item) as (Hs & Hk & Hc & Hi).
    unfold shop_ok. cbn [fst snd]. rewrite Hc, Hi.
    split; [exact (Hs Hstars) |]. split; [exact (Hk _ Hmirror) |]. auto.
  - unfold shop_ok, Shop.unlock_custom_refraction, Shop.CUSTOM_REFRACTION_COST.
    cbn [fst snd].
    destruct (Shop.custom_refraction_unlocked shop); cbn [fst]; [auto |].
    case_bool_decide; cbn [fst Shop.stars Shop.unlocked Shop.completed Shop.custom_ior];
      [| auto].
    split; [lia |]. auto.
  - unfold shop_ok, Shop.update_ior.
    cbn [fst snd Shop.stars Shop.unlocked Shop.completed Shop.custom_ior].
    assert (Hv : 1.1 <= Rmax 1.1 (Rmin 2.0 value) <= 2.0) by (apply clamp_bounds; lra).
    split; [exact Hstars |]. split; [exact Hmirror |]. split; [exact Hrec |].
    split; [exact Hv |]. apply set_base_ior_dispersive, Hv.
  - unfold shop_ok, Shop.clear_all.
    cbn [fst snd Shop.stars Shop.unlocked Shop.completed Shop.custom_ior].
    split; [lia |]. split; [reflexivity |]. split; [apply map_Forall_empty |].
    split; [lra |]. apply set_base_ior_dispersive. lra.
Qed.

(** X26.  Whatever the event loop calls on the shop, starting from the
    new shop and the initial glass and awarding 0 to 3 stars at a time:
    the star count is never negative, the plane mirror stays unlocked,
    every level record lies between 0 and 3, the slider value lies between
    1.1 and 2.0, and the glass carries the dispersion of [set_base_ior]
    over a base between 1.1 and 2.0, so that its six indices are
    positive, as the tracer's intensity bound needs. *)
Theorem shop_invariant (ops : list shop_op) :
  Forall fair_op ops ->
  let st := fold_left shop_step ops (Shop.init, GLASS_initial) in
  shop_ok st /\ positive_indices (snd st).
Proof.
  intros Hfair. cbv zeta.
  assert (Hinit : shop_ok (Shop.init, GLASS_initial)).
  { unfold shop_ok, Shop.init. cbn [fst snd Shop.stars Shop.unlocked Shop.completed
                                      Shop.custom_ior].
    split; [lia |]. split; [reflexivity |]. split; [apply map_Forall_empty |].
    split; [lra | apply GLASS_initial_dispersive]. }
  assert (Hok : forall st, shop_ok st -> shop_ok (fold_left shop_step ops st)).
  { induction Hfair as [| op ops Hop Hops IH]; intros st Hst; [exact Hst |].
    cbn [fold_left]. apply IH, shop_step_ok; assumption. }
  split; [apply Hok, Hinit |].
  apply dispersive_positive. apply (Hok _ Hinit).
Qed.

Lemma shop_invariant_witness :
  shop_ok (fold_left shop_step [Award 1 3; Unlock TRIANGLE; UpdateIor 5; ClearAll]
                     (Shop.init, GLASS_initial))
  /\ positive_indices
       (snd (fold_left shop_step [Award 1 3; Unlock TRIANGLE; UpdateIor 5; ClearAll]
                       (Shop.init, GLASS_initial))).
Proof.
  apply (shop_invariant [Award 1 3; Unlock TRIANGLE; UpdateIor 5; ClearAll]).
  repeat constructor; cbn; lia.
Defined.

(** X27.  Levels open in order: level 1 is always unlocked; after the
    award for level [n] (1 to 10) with the stars that [get_stars] gives
    for a score, level [n + 1] is unlocked exactly when the score reaches
    [5000 - 250 n] points or the level was unlocked before; a completion
    of one level never changes whether a level other than the next one is
    unlocked. *)
Theorem levels_open_in_order (self : Shop.t) (level score : Z) :
  (1 <= level <= 10)%Z ->
  let self' := fst (Shop.award self level (Game.get_stars level score)) in
  Shop.is_level_unlocked self' 1 = true
  /\ (Shop.is_level_unlocked self' (level + 1) = true
      <-> (5000 - 250 * level <= score)%Z
          \/ Shop.is_level_unlocked self (level + 1) = true)
  /\ (forall l, l <> (level + 1)%Z ->
        Shop.is_level_unlocked self' l = Shop.is_level_unlocked self l).
Proof.
  intros Hlevel. cbv zeta.
  destruct (award_completed self level (Game.get_stars level score)) as [Hrec Hother].
  assert (Hstars : (1 <= Game.get_stars level score)%Z
                   <-> (5000 - 250 * level <= score)%Z).
  { rewrite get_stars_table. repeat case_bool_decide; lia. }
  split; [reflexivity |]. split.
  - unfold Shop.is_level_unlocked.
    rewrite !bool_decide_eq_false_2 by lia.
    replace (level + 1 - 1)%Z with level by lia.
    rewrite Hrec. rewrite !bool_decide_eq_true.
    destruct (Shop.completed self !! level) as [prev |];
      cbn [default from_option]; unfold Datatypes.id; lia.
  - intros l Hl. unfold Shop.is_level_unlocked.
    case_bool_decide; [reflexivity |].
    rewrite Hother by lia. reflexivity.
Qed.

Lemma levels_open_in_order_witness :
  Shop.is_level_unlocked (fst (Shop.award Shop.init 1 (Game.get_stars 1 9000))) 1 = true.
Proof.
  apply (proj1 (levels_open_in_order Shop.init 1 9000 ltac:(lia))).
Defined.

End ShopLaws.

(** * The score board *)

Section ScoreboardLaws.

Context {A : Type} (key : A -> Z).

Lemma Forall_insert (P : A -> Prop) (a : A) (l : list A) :
  P a -> Forall P l -> Forall P (Scoreboard.insert key a l).
Proof.
  intros Ha Hl. induction Hl as [| b l Hb Hl IH]; cbn [Scoreboard.insert].
  - repeat constructor. exact Ha.
  - case_bool_decide; repeat constructor; auto.
Qed.

Lemma insert_perm (a : A) (l : list A) : Scoreboard.insert key a l ≡ₚ a :: l.
Proof.
  induction l as [| b l IH]; cbn [Scoreboard.insert]; [reflexivity |].
  case_bool_decide; [| reflexivity].
  rewrite IH. apply Permutation_swap.
Qed.

Lemma sort_perm (l : list A) : Scoreboard.sort key l ≡ₚ l.
Proof.
  induction l as [| a l IH]; cbn [Scoreboard.sort]; [reflexivity |].
  rewrite insert_perm, IH. reflexivity.
Qed.

Lemma insert_descending (a : A) (l : list A) :
  descending (map key l) -> descending (map key (Scoreboard.insert key a l)).
Proof.
  induction l as [| b l IH]; cbn [Scoreboard.insert map descending].
  - intros _. split; constructor.
  - intros [Hb Hl]. case_bool_decide as Hgt; cbn [map descending].
    + split; [| exact (IH Hl)].
      rewrite Forall_map. rewrite Forall_map in Hb.
      apply Forall_insert; [lia | exact Hb].
    + split; [| split; assumption].
      constructor; [lia |].
      eapply Forall_impl; [exact Hb |]. cbn. intros c Hc. lia.
Qed.

Lemma sort_descending (l : list A) : descending (map key (Scoreboard.sort key l)).
Proof.
  induction l as [| a l IH]; cbn [Scoreboard.sort]; [exact I |].
  apply insert_descending, IH.
Qed.

Lemma insert_pass (a : A) (front back : list A) :
  Forall (fun b => (key b > key a)%Z) front ->
  Scoreboard.insert key a (front ++ back) = front ++ Scoreboard.insert key a back.
Proof.
  intros Hf. induction Hf as [| b front Hb Hf IH]; [reflexivity |].
  cbn [app Scoreboard.insert]. rewrite bool_decide_eq_true_2 by exact Hb.
  rewrite IH. reflexivity.
Qed.

Lemma insert_stops (P : A -> Prop) (a e : A) (front back : list A) :
  ~ (key e > key a)%Z -> P a -> Forall P front ->
  exists front',
    Scoreboard.insert key a (front ++ e :: back) = front' ++ e :: back
    /\ List.length front' = S (List.length front)
    /\ Forall P front'.
Proof.
  intros He Ha Hf. induction Hf as [| b front Hb Hf IH].
  - exists [a]. cbn [app Scoreboard.insert]. rewrite bool_decide_eq_false_2 by exact He.
    split; [reflexivity |]. split; [reflexivity |]. repeat constructor. exact Ha.
  - cbn [app Scoreboard.insert]. case_bool_decide as Hgt.
    + destruct IH as (front' & Heq & Hlen & Hall).
      exists (b :: front'). rewrite Heq. split; [reflexivity |].
      split; [cbn; lia |]. constructor; assumption.
    + exists (a :: b :: front). split; [reflexivity |]. split; [reflexivity |].
      repeat constructor; assumption.
Qed.

End ScoreboardLaws.

Section BoardLaws.

Lemma position_skip (front back : list (bool * ScoreEntry.t)) (e : ScoreEntry.t) :
  Forall (fun s => fst s = false) front ->
  forall i, Scoreboard.position (front ++ (true, e) :: back) i
            = (i + Z.of_nat (List.length front) + 1)%Z.
Proof.
  intros Hf. induction Hf as [| s front Hs Hf IH]; intros i.
  - cbn. lia.
  - cbn [app Scoreboard.position List.length]. rewrite Hs, IH. lia.
Qed.

(** Where the stable sort leaves the new entry: behind the entries that
    score at least as much, before the others. *)
Lemma sort_marked (scores : list ScoreEntry.t) (e : ScoreEntry.t) :
  exists front back,
    Scoreboard.sort (fun s => ScoreEntry.score (snd s))
                    (map (pair false) scores ++ [(true, e)])
    = front ++ (true, e) :: back
    /\ Forall (fun s => fst s = false
                        /\ (ScoreEntry.score (snd s) >= ScoreEntry.score e)%Z) front
    /\ List.length front
       = List.length (filter (fun s => (ScoreEntry.score s >= ScoreEntry.score e)%Z)
                             scores).
Proof.
  induction scores as [| a scores IH].
  - exists [], []. cbn. split; [reflexivity |]. split; [constructor | reflexivity].
  - destruct IH as (front & back & Heq & Hfront & Hlen).
    cbn [map app Scoreboard.sort]. rewrite Heq.
    destruct (decide (ScoreEntry.score a >= ScoreEntry.score e)%Z) as [Hge | Hlt].
    + destruct (insert_stops (fun s => ScoreEntry.score (snd s))
                  (fun s => fst s = false
                            /\ (ScoreEntry.score (snd s) >= ScoreEntry.score e)%Z)
                  (false, a) (true, e) front back)
        as (front' & Heq' & Hlen' & Hall'); [cbn; lia | cbn; auto | exact Hfront |].
      exists front', back. split; [exact Heq' |]. split; [exact Hall' |].
      rewrite filter_cons_True by exact Hge. cbn [List.length]. lia.
    + rewrite insert_pass.
      * cbn [Scoreboard.insert]. rewrite bool_decide_eq_true_2 by (cbn; lia).
        exists front, (Scoreboard.insert (fun s => ScoreEntry.score (snd s)) (false, a) back).
        split; [reflexivity |]. split; [exact Hfront |].
        rewrite filter_cons_False by exact Hlt. exact Hlen.
      * eapply Forall_impl; [exact Hfront |]. cbn. intros s [_ Hs]. lia.
Qed.

Lemma map_snd_pair (scores : list ScoreEntry.t) :
  map snd (map (pair false) scores) = scores.
Proof. induction scores as [| a l IH]; [reflexivity |]. cbn. rewrite IH. reflexivity. Qed.

(** X28.  [Scoreboard.add] ranks the new entry behind every entry that
    scores at least as much: the returned position is 1 plus the number of
    old entries with a score not below the new one, the new entry sits at
    that position of the new list, the new list holds the old entries and
    the new one and nothing else, and its scores are in descending
    order. *)
Theorem add_rank (scores : list ScoreEntry.t) (entry : ScoreEntry.t) :
  let scores' := fst (Scoreboard.add scores entry) in
  let rank := snd (Scoreboard.add scores entry) in
  rank = (1 + Z.of_nat (List.length
                          (filter (fun s => (ScoreEntry.score s
                                             >= ScoreEntry.score entry)%Z) scores)))%Z
  /\ scores' !! Z.to_nat (rank - 1) = Some entry
  /\ scores' ≡ₚ entry :: scores
  /\ descending (map ScoreEntry.score scores')
  /\ (1 <= rank <= Z.of_nat (List.length scores) + 1)%Z.
Proof.
  cbv zeta. unfold Scoreboard.add. cbn [fst snd].
  destruct (sort_marked scores entry) as (front & back & Heq & Hfront & Hlen).
  assert (Hrank : Scoreboard.position
                    (Scoreboard.sort (fun s => ScoreEntry.score (snd s))
                                     (map (pair false) scores ++ [(true, entry)])) 0
                  = (1 + Z.of_nat (List.length front))%Z).
  { rewrite Heq, position_skip; [lia |].
    eapply Forall_impl; [exact Hfront |]. intros s [Hs _]. exact Hs. }
  rewrite Hrank. split; [rewrite Hlen; reflexivity |]. split; [| split; [| split]].
  - rewrite Heq, map_app. cbn [map snd].
    replace (Z.to_nat (1 + Z.of_nat (List.length front) - 1))
      with (List.length (map snd front)) by (rewrite length_map; lia).
    apply list_lookup_middle. reflexivity.
  - rewrite (sort_perm (fun s => ScoreEntry.score (snd s))).
    rewrite map_app, map_snd_pair. cbn [map snd].
    symmetry. apply Permutation_cons_append.
  - rewrite map_map.
    apply (sort_descending (fun s => ScoreEntry.score (snd s))).
  - rewrite Hlen. pose proof (length_filter
      (fun s => (ScoreEntry.score s >= ScoreEntry.score entry)%Z) scores). lia.
Qed.

Lemma descending_filter (P : ScoreEntry.t -> Prop) `{!forall s, Decision (P s)}
    (l : list ScoreEntry.t) :
  descending (map ScoreEntry.score l) ->
  descending (map ScoreEntry.score (filter P l)).
Proof.
  induction l as [| a l IH]; [auto |].
  cbn [map descending]. intros [Ha Hl].
  destruct (decide (P a)) as [Hp | Hp].
  - rewrite filter_cons_True by exact Hp. cbn [map descending].
    split; [| exact (IH Hl)].
    rewrite Forall_map. rewrite Forall_map in Ha.
    rewrite Forall_forall in *. intros s Hs. apply list_elem_of_filter in Hs.
    apply Ha. tauto.
  - rewrite filter_cons_False by exact Hp. exact (IH Hl).
Qed.

Lemma descending_app (l1 l2 : list ScoreEntry.t) :
  descending (map ScoreEntry.score (l1 ++ l2)) ->
  descending (map ScoreEntry.score l1)
  /\ forall a b, a ∈ l1 -> b ∈ l2 -> (ScoreEntry.score b <= ScoreEntry.score a)%Z.
Proof.
  induction l1 as [| c l1 IH]; cbn [app map descending].
  - intros _. split; [exact I |]. intros a b Ha. apply elem_of_nil in Ha. destruct Ha.
  - intros [Hc Hl]. destruct (IH Hl) as [Hd Hcross]. split.
    + split; [| exact Hd]. rewrite map_app in Hc. apply Forall_app in Hc. tauto.
    + intros a b Ha Hb. apply elem_of_cons in Ha as [-> | Ha]; [| auto].
      rewrite map_app in Hc. apply Forall_app in Hc as [_ Hc].
      rewrite Forall_map, Forall_forall in Hc. apply Hc. exact Hb.
Qed.

(** X29.  On a board in descending order [get_top] returns the best
    entries of a level: at most [n] entries, all of the level and on the
    board, in descending order, and every entry of the level that is left
    out scores no more than each entry returned; [get_best] returns an
    entry of the level with the highest score of the level, and [None]
    exactly when the board has no entry of the level. *)
Theorem get_top_best (scores : list ScoreEntry.t) (level : Z) (n : nat) :
  descending (map ScoreEntry.score scores) ->
  (List.length (Scoreboard.get_top scores level n) <= n)%nat
  /\ (forall t, t ∈ Scoreboard.get_top scores level n ->
        ScoreEntry.level t = level /\ t ∈ scores)
  /\ descending (map ScoreEntry.score (Scoreboard.get_top scores level n))
  /\ (forall s t, s ∈ scores -> ScoreEntry.level s = level ->
        t ∈ Scoreboard.get_top scores level n ->
        s ∈ Scoreboard.get_top scores level n
        \/ (ScoreEntry.score s <= ScoreEntry.score t)%Z)
  /\ match Scoreboard.get_best scores level with
     | Some b =>
         ScoreEntry.level b = level /\ b ∈ scores
         /\ forall s, s ∈ scores -> ScoreEntry.level s = level ->
              (ScoreEntry.score s <= ScoreEntry.score b)%Z
     | None => forall s, s ∈ scores -> ScoreEntry.level s <> level
     end.
Proof.
  intros Hdesc. unfold Scoreboard.get_top, Scoreboard.get_best.
  set (F := filter (fun s => ScoreEntry.level s = level) scores).
  assert (HF : descending (map ScoreEntry.score F)) by apply descending_filter, Hdesc.
  assert (Hin : forall s, s ∈ F <-> ScoreEntry.level s = level /\ s ∈ scores).
  { intros s. unfold F.
    exact (list_elem_of_filter (fun s => ScoreEntry.level s = level) scores s). }
  rewrite <- (take_drop n F) in HF. apply descending_app in HF as [Htop Hcross].
  split; [rewrite length_take; lia |]. split; [| split; [exact Htop | split]].
  - intros t Ht. apply Hin.
    assert (HtF : t ∈ take n F ++ drop n F) by (apply elem_of_app; auto).
    rewrite take_drop in HtF. exact HtF.
  - intros s t Hs Hl Ht.
    assert (HsF : s ∈ take n F ++ drop n F) by (rewrite take_drop; apply Hin; auto).
    apply elem_of_app in HsF as [Hs1 | Hs2]; [auto |].
    right. apply Hcross; assumption.
  - destruct F as [| b F'] eqn:HeqF.
    + intros s Hs Hl. assert (Hf : s ∈ []) by (apply Hin; auto).
      apply elem_of_nil in Hf. exact Hf.
    + assert (Hb : b ∈ b :: F') by apply list_elem_of_here.
      apply Hin in Hb as [Hbl Hbs]. split; [exact Hbl |]. split; [exact Hbs |].
      intros s Hs Hl. assert (Hf : s ∈ b :: F') by (apply Hin; auto).
      assert (Hd : descending (map ScoreEntry.score (b :: F'))).
      { rewrite <- HeqF. apply descending_filter, Hdesc. }
      cbn [map descending] in Hd. destruct Hd as [Hall _].
      apply elem_of_cons in Hf as [-> | Hf]; [lia |].
      rewrite Forall_map, Forall_forall in Hall. apply Hall. exact Hf.
Qed.

Lemma get_top_best_witness :
  (List.length (Scoreboard.get_top sample_board 1 2) <= 2)%nat
  /\ descending (map ScoreEntry.score (Scoreboard.get_top sample_board 1 2)).
Proof.
  destruct (get_top_best sample_board 1 2) as (Hlen & _ & Hdesc & _).
  - cbn. repeat constructor; lia.
  - split; [exact Hlen | exact Hdesc].
Defined.

End BoardLaws.

(** * The split of energy at a surface *)

Section FresnelLaws.

Import Vector2.

Lemma no_refraction_total (incident normal : t) (n1 n2 : R) :
  0 < n1 -> 0 < n2 ->
  Physics.refract incident normal n1 n2 = None ->
  n1 > n2
  /\ (n1 / n2) ^ 2 * (1 - (- dot (normalize normal) (normalize incident)) ^ 2) > 1.
Proof.
  intros H1 H2. unfold Physics.refract.
  set (i := normalize incident). set (m := normalize normal).
  assert (Hsq : (- dot (if bool_decide (dot m i > 0) then neg m else m) i) ^ 2
                = (- dot m i) ^ 2).
  { case_bool_decide; [rewrite dot_neg_l; ring | reflexivity]. }
  rewrite Hsq. clear Hsq. case_bool_decide as Hcrit; [| discriminate]. intros _.
  split; [| exact Hcrit].
  pose proof (dot_normalize_bounds normal incident) as Hd. fold m i in Hd.
  assert (Hr : n1 = n1 / n2 * n2) by (field; lra).
  assert (Hq : 0 < n1 / n2) by (apply Rdiv_lt_0_compat; lra).
  set (q := n1 / n2) in *.
  assert (Hs : 0 <= 1 - (- dot m i) ^ 2 <= 1) by nra.
  assert (Hq1 : 1 < q) by nra.
  nra.
Qed.

(** X30.  The split of energy at a surface: for positive indices the
    reflectance is never negative, it is at most 1 when the normal does
    not point along the incident direction (as the normals of the search
    do), so the transmitted share [1 - R] lies between 0 and 1; whenever
    [refract] finds no refracted direction the reflectance is exactly 1;
    and at normal incidence it is [((n1 - n2) / (n1 + n2))^2], the same in
    both directions through the surface. *)
Theorem fresnel_energy (incident normal : t) (n1 n2 : R) :
  0 < n1 -> 0 < n2 ->
  0 <= Physics.fresnel_reflectance incident normal n1 n2
  /\ (dot normal incident <= 0 ->
      Physics.fresnel_reflectance incident normal n1 n2 <= 1)
  /\ (Physics.refract incident normal n1 n2 = None ->
      Physics.fresnel_reflectance incident normal n1 n2 = 1)
  /\ (forall k, length incident = 1 -> 0 < k ->
        Physics.fresnel_reflectance incident (mul (neg incident) k) n1 n2
        = ((n1 - n2) / (n1 + n2)) ^ 2
        /\ Physics.fresnel_reflectance incident (mul (neg incident) k) n2 n1
           = Physics.fresnel_reflectance incident (mul (neg incident) k) n1 n2).
Proof.
  intros H1 H2.
  split; [apply fresnel_reflectance_nonneg; assumption |].
  split; [apply fresnel_reflectance_le_1; assumption |].
  split.
  - intros Hnone.
    destruct (no_refraction_total incident normal n1 n2 H1 H2 Hnone) as [Hn Hcrit].
    unfold Physics.fresnel_reflectance.
    rewrite (bool_decide_eq_true_2 _ Hn).
    rewrite bool_decide_eq_true_2 by lra. lra.
  - intros k Hunit Hk.
    assert (Hneg : length (neg incident) = 1) by (rewrite length_neg; exact Hunit).
    assert (Hhead : forall a b : R,
               Physics.fresnel_reflectance incident (mul (neg incident) k) a b
               = ((a - b) / (a + b)) ^ 2).
    { intros a b. unfold Physics.fresnel_reflectance.
      rewrite (normalize_unit incident Hunit), (normalize_mul (neg incident) k Hk Hneg).
      assert (Hd : dot (neg incident) incident = - (1))
        by (rewrite dot_neg_l, (dot_self_unit incident Hunit); reflexivity).
      rewrite !Hd.
      replace ((a / b) ^ 2 * (1 - (- - (1)) ^ 2)) with 0 by ring.
      replace ((1 - - - (1)) ^ 5) with 0 by ring.
      rewrite Rmult_0_r, Rplus_0_r.
      repeat case_bool_decide; first [reflexivity | lra]. }
    split; [apply Hhead |]. rewrite !Hhead.
    replace ((n2 - n1) / (n2 + n1)) with (- ((n1 - n2) / (n1 + n2))) by (field; lra).
    ring.
Qed.

Lemma fresnel_energy_witness :
  0 <= Physics.fresnel_reflectance (mk 0 1) (mk 0 (-1)) 1.0 1.5
  /\ (dot (mk 0 (-1)) (mk 0 1) <= 0 ->
      Physics.fresnel_reflectance (mk 0 1) (mk 0 (-1)) 1.0 1.5 <= 1)
  /\ (Physics.refract (mk 0 1) (mk 0 (-1)) 1.0 1.5 = None ->
      Physics.fresnel_reflectance (mk 0 1) (mk 0 (-1)) 1.0 1.5 = 1)
  /\ (forall k, length (mk 0 1) = 1 -> 0 < k ->
        Physics.fresnel_reflectance (mk 0 1) (mul (neg (mk 0 1)) k) 1.0 1.5
        = ((1.0 - 1.5) / (1.0 + 1.5)) ^ 2
        /\ Physics.fresnel_reflectance (mk 0 1) (mul (neg (mk 0 1)) k) 1.5 1.0
           = Physics.fresnel_reflectance (mk 0 1) (mul (neg (mk 0 1)) k) 1.0 1.5).
Proof.
  apply (fresnel_energy (mk 0 1) (mk 0 (-1)) 1.0 1.5); lra.
Defined.

End FresnelLaws.

(** * Instances *)

Lemma color_match_bands_witness :
  Sensor.color_match (Sensor.init 1000 300 RED 40)
                     (Ray.init (Vector2.mk 0 0) (Vector2.mk 1 0) RED "red" false 1.0)
  = true
  <-> Ray.color (Ray.init (Vector2.mk 0 0) (Vector2.mk 1 0) RED "red" false 1.0) = RED.
Proof.
  apply (proj2 (proj2 (color_match_bands 1000 300 RED 40
                         (Ray.init (Vector2.mk 0 0) (Vector2.mk 1 0) RED "red" false 1.0)))
           "red" 1.50 "red" 1.50).
  - apply list_elem_of_here.
  - apply list_elem_of_here.
  - reflexivity.
  - lia.
Defined.

Lemma update_shape_rigid_witness :
  Vector2.length
    (Vector2.sub
       (Vector2.add (Vector2.rotate (Vector2.mk (- (100) / 2) (- (80) / 2)) (radians 30))
                    (Vector2.mk 600 400))
       (Vector2.add (Vector2.rotate (Vector2.mk (100 / 2) (- (80) / 2)) (radians 30))
                    (Vector2.mk 600 400)))
  = Vector2.length (Vector2.sub (Vector2.mk (- (100) / 2) (- (80) / 2))
                                (Vector2.mk (100 / 2) (- (80) / 2))).
Proof.
  apply (proj1 (proj2 (proj2 (proj2
           (update_shape_rigid
              (ItemObject.mk RECTANGLE (Vector2.mk 600 400) 100 80 30 [])))))
           0%nat 1%nat);
    reflexivity.
Defined.

Lemma lightbox_contains_local_witness :
  Vector2.length (Vector2.sub (Vector2.mk 350 400)
                              (LightBox.pos (LightBox.init 350 400 0 false false)))
  < Vector2.length (Vector2.mk (LightBox.w (LightBox.init 350 400 0 false false) / 2)
                               (LightBox.h (LightBox.init 350 400 0 false false) / 2)).
Proof.
  apply (proj1 (proj2 (lightbox_contains_local (LightBox.init 350 400 0 false false)
                         0 0 (Vector2.mk 350 400)))).
  unfold LightBox.contains, LightBox.init, Vector2.sub.
  cbn [LightBox.lock_pos LightBox.lock_rot LightBox.pos LightBox.w LightBox.h
       LightBox.angle andb Vector2.x Vector2.y].
  replace ((350 - 350) * cos (radians (- 0)) - (400 - 400) * sin (radians (- 0)))
    with 0 by ring.
  replace ((350 - 350) * sin (radians (- 0)) + (400 - 400) * cos (radians (- 0)))
    with 0 by ring.
  rewrite Rabs_R0. rewrite !bool_decide_eq_true_2 by lra. reflexivity.
Defined.
